(** * WitcherSeamless: synchronisation core

    A shallow embedding of the synchronisation core of WitcherSeamless and
    the properties its specification states about it.

    - [Cpp]: the native side, [quest_sync] (fact registry, pending queue,
      global story lock, fail-safe) and [scripting_experiments]
      (handshake gate, packet listeners, telemetry).
    - [Script]: the WitcherScript side, [w3mp_final.ws] (atomic facts,
      time smoothing, crown reconciliation).
    - [Interp]: [network::interpolation::player_interpolator].
    - [CppMore], [Proximity], [Telemetry], [Inventory], [Outbound],
      [Scaling]: the rest of the fact registry and of the script bridge,
      the dialogue proximity manager, the telemetry rate, the inventory
      bridge, the handshake and achievement broadcasts, party scaling.
    - [InterpMore], [ScriptWorld], [ScriptLoot], [ScriptScaling]: runs of the
      ring buffer, world-state reconciliation, looting and NPC scaling on
      the script side.

    Conventions.  Fixed-width integers are [Z] with the wrap-around written
    out where the code converts.  A finite [float] is the rational ([Q]) it
    stands for.  In [Interp] and in the time smoothing of [Script] every
    operation on floats is the exact one followed by rounding to the
    nearest 32-bit float, each operation on its own ([Float32]); the two
    loops of [lerp_angle], which need not end, run on fuel and give [None]
    when it is used up.  In [Scaling], [Proximity] and [ScriptScaling]
    operations on floats are exact.  Infinities and NaN are left out
    everywhere.  [printf] and [W3mLog] lines are not state; where a
    listener's log line tells which branch ran it is returned as an
    outcome.  Mutexes and atomics are elided: every operation is one
    atomic step on the world. *)

From Stdlib Require Import ZArith QArith Qabs Qround Qpower Qreduction Lia Lqa
  List String.
From stdpp Require Import base gmap strings list pretty sorting.

Close Scope Q_scope.
Open Scope Z_scope.

(** ** Integer conversions *)

Definition wrap32 (z : Z) : Z := z mod 2 ^ 32.
Definition wrap64 (z : Z) : Z := z mod 2 ^ 64.

(** ** network::protocol *)

Module Protocol.

Record fact_packet := mk_fact_packet {
  fp_fact_name : string;
  fp_value : Z;
  fp_timestamp : Z
}.

Record quest_lock_packet := mk_quest_lock_packet {
  ql_is_locked : bool;
  ql_scene_id : Z;
  ql_player_guid : Z;
  ql_timestamp : Z
}.

Record loot_packet := mk_loot_packet {
  lp_item_name : string;
  lp_quantity : Z;
  lp_player_guid : Z;
  lp_timestamp : Z
}.

Record achievement_packet := mk_achievement_packet {
  ap_achievement_id : string;
  ap_player_guid : Z;
  ap_timestamp : Z
}.

Record handshake_packet := mk_handshake_packet {
  hs_session_id : Z;
  hs_player_guid : Z;
  hs_protocol_version : Z;
  hs_player_name : string;
  hs_timestamp : Z
}.

Record heartbeat_packet := mk_heartbeat_packet {
  hb_player_guid : Z;
  hb_total_crowns : Z;
  hb_world_fact_hash : Z;
  hb_script_version : Z;
  hb_game_time : Z;
  hb_weather_id : Z;
  hb_timestamp : Z
}.

(** [copy_string]: at most [N - 1] characters are copied. *)
Definition copy_string (N : nat) (src : string) : string :=
  substring 0 (N - 1) src.

Definition MAX_FACT_NAME_LENGTH : nat := 128.

(** What [buffer.write(game::PROTOCOL); buffer.write(packet)] puts on
    the wire, by record. *)
Inductive payload :=
| PFact (p : fact_packet)
| PQuestLock (p : quest_lock_packet).

(** A received buffer as the deserializer sees it: [buffer.read<T>()]
    throws when the bytes run out, which is [None] here. *)
Record datagram (P : Type) := mk_datagram {
  dg_protocol : option Z;
  dg_packet : option P
}.
Arguments mk_datagram {P} _ _.
Arguments dg_protocol {P} _.
Arguments dg_packet {P} _.

End Protocol.

(** ** The native side *)

Module Cpp.
Import Protocol.

(** The parts of the platform the code calls into. *)
Record Env := mk_Env {
  (** [std::hash<std::string>] *)
  std_hash : string -> Z;
  (** the k-th reading of
      [high_resolution_clock::now().time_since_epoch().count()] *)
  hrc_now : nat -> Z;
  (** [utils::identity::get_guid()] *)
  get_guid : Z;
  (** [game::PROTOCOL] *)
  PROTOCOL : Z;
  (** [std::sort] of [(hash, timestamp)] pairs by timestamp *)
  std_sort : list (Z * Z) -> list (Z * Z)
}.

(** [network::get_master_server()] *)
Definition get_master_server : string := "127.0.0.1:28960".

Record quest_fact := mk_quest_fact {
  fact_name : string;
  value : Z;
  timestamp : Z;
  player_guid : Z;
  fact_hash : Z
}.

Record global_story_lock := mk_lock {
  m_lock_active : bool;
  m_initiator_guid : Z;
  m_scene_id : Z;
  m_lock_timestamp : Z
}.

Record W3mTelemetry := mk_telemetry {
  packets_sent : Z;
  packets_received : Z;
  current_rtt_ms : Z
}.

Record sent_message := mk_sent {
  sm_channel : string;
  sm_protocol : Z;
  sm_payload : payload
}.

(** Every global of the two translation units, the number of clock
    readings taken so far, and what was handed to [network::send]. *)
Record World := mk_World {
  g_story_lock : global_story_lock;
  m_fact_cache : gmap Z quest_fact;
  g_W3mGlobalSyncInProgress : bool;
  g_W3mPendingFacts : list quest_fact;
  g_telemetry : W3mTelemetry;
  g_loopback_enabled : bool;
  g_handshake_complete : bool;
  g_session_id : Z;
  g_handshake_player_name : string;
  m_unlocked_achievements : gset string;
  clock_reads : nat;
  net_sent : list sent_message
}.

Definition set_story_lock (l : global_story_lock) (w : World) : World :=
  mk_World l (m_fact_cache w) (g_W3mGlobalSyncInProgress w)
    (g_W3mPendingFacts w) (g_telemetry w) (g_loopback_enabled w)
    (g_handshake_complete w) (g_session_id w) (g_handshake_player_name w)
    (m_unlocked_achievements w) (clock_reads w) (net_sent w).

Definition set_fact_cache (c : gmap Z quest_fact) (w : World) : World :=
  mk_World (g_story_lock w) c (g_W3mGlobalSyncInProgress w)
    (g_W3mPendingFacts w) (g_telemetry w) (g_loopback_enabled w)
    (g_handshake_complete w) (g_session_id w) (g_handshake_player_name w)
    (m_unlocked_achievements w) (clock_reads w) (net_sent w).

Definition set_sync (b : bool) (w : World) : World :=
  mk_World (g_story_lock w) (m_fact_cache w) b
    (g_W3mPendingFacts w) (g_telemetry w) (g_loopback_enabled w)
    (g_handshake_complete w) (g_session_id w) (g_handshake_player_name w)
    (m_unlocked_achievements w) (clock_reads w) (net_sent w).

Definition set_pending (q : list quest_fact) (w : World) : World :=
  mk_World (g_story_lock w) (m_fact_cache w) (g_W3mGlobalSyncInProgress w)
    q (g_telemetry w) (g_loopback_enabled w)
    (g_handshake_complete w) (g_session_id w) (g_handshake_player_name w)
    (m_unlocked_achievements w) (clock_reads w) (net_sent w).

Definition set_telemetry (t : W3mTelemetry) (w : World) : World :=
  mk_World (g_story_lock w) (m_fact_cache w) (g_W3mGlobalSyncInProgress w)
    (g_W3mPendingFacts w) t (g_loopback_enabled w)
    (g_handshake_complete w) (g_session_id w) (g_handshake_player_name w)
    (m_unlocked_achievements w) (clock_reads w) (net_sent w).

Definition set_loopback (b : bool) (w : World) : World :=
  mk_World (g_story_lock w) (m_fact_cache w) (g_W3mGlobalSyncInProgress w)
    (g_W3mPendingFacts w) (g_telemetry w) b
    (g_handshake_complete w) (g_session_id w) (g_handshake_player_name w)
    (m_unlocked_achievements w) (clock_reads w) (net_sent w).

Definition set_session (done : bool) (sid : Z) (name : string) (w : World)
  : World :=
  mk_World (g_story_lock w) (m_fact_cache w) (g_W3mGlobalSyncInProgress w)
    (g_W3mPendingFacts w) (g_telemetry w) (g_loopback_enabled w)
    done sid name
    (m_unlocked_achievements w) (clock_reads w) (net_sent w).

Definition set_achievements (a : gset string) (w : World) : World :=
  mk_World (g_story_lock w) (m_fact_cache w) (g_W3mGlobalSyncInProgress w)
    (g_W3mPendingFacts w) (g_telemetry w) (g_loopback_enabled w)
    (g_handshake_complete w) (g_session_id w) (g_handshake_player_name w)
    a (clock_reads w) (net_sent w).

Definition set_clock_reads (n : nat) (w : World) : World :=
  mk_World (g_story_lock w) (m_fact_cache w) (g_W3mGlobalSyncInProgress w)
    (g_W3mPendingFacts w) (g_telemetry w) (g_loopback_enabled w)
    (g_handshake_complete w) (g_session_id w) (g_handshake_player_name w)
    (m_unlocked_achievements w) n (net_sent w).

Definition set_net_sent (l : list sent_message) (w : World) : World :=
  mk_World (g_story_lock w) (m_fact_cache w) (g_W3mGlobalSyncInProgress w)
    (g_W3mPendingFacts w) (g_telemetry w) (g_loopback_enabled w)
    (g_handshake_complete w) (g_session_id w) (g_handshake_player_name w)
    (m_unlocked_achievements w) (clock_reads w) l.

(** The state at process start: every global at its initialiser. *)
Definition initial_world : World :=
  mk_World (mk_lock false 0 0 0) ∅ false [] (mk_telemetry 0 0 0) false
    false 0 "" ∅ 0%nat [].

(** [high_resolution_clock::now().time_since_epoch().count()]: take the
    next reading. *)
Definition now (e : Env) (w : World) : Z * World :=
  (hrc_now e (clock_reads w), set_clock_reads (S (clock_reads w)) w).

(** [network::send(network::get_master_server(), channel, buffer)] *)
Definition network_send (e : Env) (channel : string) (p : payload)
  (w : World) : World :=
  set_net_sent (net_sent w ++ [mk_sent channel (PROTOCOL e) p]) w.

(** *** scripting_experiments: telemetry and handshake state *)

(** [packets_sent++] on a [std::atomic<uint32_t>] *)
Definition increment_sent (w : World) : World :=
  let t := g_telemetry w in
  set_telemetry
    (mk_telemetry (wrap32 (packets_sent t + 1)) (packets_received t)
       (current_rtt_ms t)) w.

Definition increment_received (w : World) : World :=
  let t := g_telemetry w in
  set_telemetry
    (mk_telemetry (packets_sent t) (wrap32 (packets_received t + 1))
       (current_rtt_ms t)) w.

Definition is_handshake_complete (w : World) : bool :=
  g_handshake_complete w.

Definition set_handshake_complete (session_id : Z) (player_name : string)
  (w : World) : World :=
  set_session true session_id player_name w.

(** [W3mSetLoopback], the script's switch for loopback mode. *)
Definition set_loopback_mode (enabled : bool) (w : World) : World :=
  set_loopback enabled w.

(** *** Packet listeners *)

(** How a handler left: it returned, or an exception escaped it. *)
Inductive handler_result :=
| Returned (w : World)
| Threw (w : World).

(** Which of [receive_packet_safe]'s exits was taken. *)
Inductive recv_outcome :=
| IgnoredAddress
| BlockedHandshake
| InvalidProtocol
| Discarded
| Dispatched.

Definition receive_packet_safe {P : Type} (e : Env) (address : string)
  (data : datagram P)
  (handler : string -> datagram P -> World -> handler_result)
  (require_handshake : bool) (w : World) : World * recv_outcome :=
  if negb (String.eqb address get_master_server) then (w, IgnoredAddress)
  else if require_handshake && negb (is_handshake_complete w)
  then (w, BlockedHandshake)
  else
    match dg_protocol data with
    | None => (w, Discarded)
    | Some protocol =>
        if negb (protocol =? PROTOCOL e) then (w, InvalidProtocol)
        else
          match handler address data w with
          | Returned w' => (w', Dispatched)
          | Threw w' => (w', Discarded)
          end
    end.

(** The lambdas handed to [receive_packet_safe].  Each re-reads the
    protocol tag, then its record. *)

Definition read_packet {P : Type} (data : datagram P) : option P :=
  match dg_protocol data with
  | None => None
  | Some _ => dg_packet data
  end.

Definition inventory_handler (addr : string) (data : datagram loot_packet)
  (w : World) : handler_result :=
  match read_packet data with
  | None => Threw w
  | Some _ => Returned w
  end.

Definition handshake_handler (addr : string)
  (data : datagram handshake_packet) (w : World) : handler_result :=
  match read_packet data with
  | None => Threw w
  | Some packet =>
      let player_name := hs_player_name packet in
      if negb (hs_session_id packet =? 0)
      then Returned (set_handshake_complete (hs_session_id packet)
                       player_name w)
      else Returned w
  end.

Definition session_state_handler (addr : string)
  (data : datagram quest_lock_packet) (w : World) : handler_result :=
  match read_packet data with
  | None => Threw w
  | Some _ => Returned w
  end.

Definition achievement_handler (addr : string)
  (data : datagram achievement_packet) (w : World) : handler_result :=
  match read_packet data with
  | None => Threw w
  | Some packet =>
      let achievement_id := ap_achievement_id packet in
      if bool_decide (achievement_id ∈ m_unlocked_achievements w)
      then Returned w
      else Returned
             (set_achievements
                ({[achievement_id]} ∪ m_unlocked_achievements w) w)
  end.

Definition SCRIPT_VERSION : Z := 1.

Definition heartbeat_handler (addr : string)
  (data : datagram heartbeat_packet) (w : World) : handler_result :=
  match read_packet data with
  | None => Threw w
  | Some packet =>
      if negb (hb_script_version packet =? SCRIPT_VERSION)
      then Returned w
      else Returned w
  end.

Definition receive_inventory_safe (e : Env) (address : string)
  (data : datagram loot_packet) (w : World) : World * recv_outcome :=
  receive_packet_safe e address data inventory_handler true
    (increment_received w).

Definition receive_handshake_safe (e : Env) (address : string)
  (data : datagram handshake_packet) (w : World) : World * recv_outcome :=
  receive_packet_safe e address data handshake_handler false
    (increment_received w).

Definition receive_session_state_safe (e : Env) (address : string)
  (data : datagram quest_lock_packet) (w : World) : World * recv_outcome :=
  receive_packet_safe e address data session_state_handler true
    (increment_received w).

Definition receive_achievement_safe (e : Env) (address : string)
  (data : datagram achievement_packet) (w : World) : World * recv_outcome :=
  receive_packet_safe e address data achievement_handler true
    (increment_received w).

Definition receive_heartbeat_safe (e : Env) (address : string)
  (data : datagram heartbeat_packet) (w : World) : World * recv_outcome :=
  receive_packet_safe e address data heartbeat_handler true
    (increment_received w).

(** The message kinds registered with [network::on], with the record
    each carries. *)
Inductive inbound :=
| InLoot (d : datagram loot_packet)
| InQuestLock (d : datagram quest_lock_packet)
| InAchievement (d : datagram achievement_packet)
| InHeartbeat (d : datagram heartbeat_packet)
| InHandshake (d : datagram handshake_packet).

Definition is_handshake_kind (m : inbound) : bool :=
  match m with
  | InHandshake _ => true
  | _ => false
  end.

(** [network::on(kind, callback)]: the callback that runs for a message. *)
Definition deliver (e : Env) (address : string) (m : inbound) (w : World)
  : World * recv_outcome :=
  match m with
  | InLoot d => receive_inventory_safe e address d w
  | InQuestLock d => receive_session_state_safe e address d w
  | InAchievement d => receive_achievement_safe e address d w
  | InHeartbeat d => receive_heartbeat_safe e address d w
  | InHandshake d => receive_handshake_safe e address d w
  end.

(** *** quest_sync::global_story_lock *)

Definition is_locked (w : World) : bool := m_lock_active (g_story_lock w).
Definition get_initiator_guid (w : World) : Z :=
  m_initiator_guid (g_story_lock w).
Definition get_scene_id (w : World) : Z := m_scene_id (g_story_lock w).
Definition get_lock_timestamp (w : World) : Z :=
  m_lock_timestamp (g_story_lock w).

Definition acquire_lock (e : Env) (initiator_guid scene_id : Z) (w : World)
  : World :=
  if is_locked w then w
  else
    let '(t, w) := now e w in
    set_story_lock (mk_lock true initiator_guid scene_id (wrap64 t)) w.

Definition release_lock (w : World) : World :=
  if negb (is_locked w) then w
  else set_story_lock (mk_lock false 0 0 (get_lock_timestamp w)) w.

(** *** quest_sync::quest_fact_manager *)

Definition FACT_CACHE_SIZE_LIMIT : Z := 1024.

Definition compute_fact_hash (e : Env) (name : string) : Z :=
  wrap32 (std_hash e name).

(** [FACT_CACHE_SIZE_LIMIT * 0.75] is 768.0, and its cast 768. *)
Definition prune_oldest_facts (e : Env) (cache : gmap Z quest_fact)
  : gmap Z quest_fact :=
  if Z.of_nat (size cache) * 4 <=? FACT_CACHE_SIZE_LIMIT * 3 then cache
  else
    let fact_ages :=
      std_sort e ((fun hf => (hf.1, timestamp hf.2)) <$> map_to_list cache) in
    let prune_count :=
      (size cache - Z.to_nat (FACT_CACHE_SIZE_LIMIT * 3 / 4))%nat in
    foldl (fun c age => delete age.1 c) cache (take prune_count fact_ages).

Definition register_fact (e : Env) (name : string) (v guid : Z) (w : World)
  : World :=
  let h := compute_fact_hash e name in
  let '(t, w) := now e w in
  let fact := mk_quest_fact name v (wrap64 t) guid h in
  let cache := <[h := fact]> (m_fact_cache w) in
  let cache :=
    if FACT_CACHE_SIZE_LIMIT <? Z.of_nat (size cache)
    then prune_oldest_facts e cache else cache in
  set_fact_cache cache w.

Definition get_fact (e : Env) (name : string) (w : World)
  : option quest_fact :=
  m_fact_cache w !! compute_fact_hash e name.

Definition has_fact (e : Env) (name : string) (w : World) : bool :=
  match get_fact e name w with
  | Some _ => true
  | None => false
  end.

(** *** quest_sync: atomic facts *)

Definition queue_fact_during_sync (e : Env) (name : string) (v guid : Z)
  (w : World) : World :=
  let '(t, w) := now e w in
  let fact := mk_quest_fact name v (wrap64 t) guid (compute_fact_hash e name) in
  set_pending (g_W3mPendingFacts w ++ [fact]) w.

Definition apply_pending (e : Env) (w : World) (fact : quest_fact) : World :=
  register_fact e (fact_name fact) (value fact) (player_guid fact) w.

Definition flush_pending_facts (e : Env) (w : World) : World :=
  match g_W3mPendingFacts w with
  | [] => w
  | pending => set_pending [] (foldl (apply_pending e) w pending)
  end.

Definition broadcast_quest_fact (e : Env) (name : string) (v : Z)
  (w : World) : World :=
  let guid := get_guid e in
  if g_W3mGlobalSyncInProgress w
  then queue_fact_during_sync e name v guid w
  else
    let w := register_fact e name v guid w in
    let '(t, w) := now e w in
    let packet :=
      mk_fact_packet (copy_string MAX_FACT_NAME_LENGTH name) v (wrap64 t) in
    network_send e "fact" (PFact packet) w.

Definition W3mBroadcastFact (e : Env) (name : string) (v : Z) (w : World)
  : World :=
  broadcast_quest_fact e name v w.

Definition W3mAtomicAddFact (e : Env) (name : string) (v : Z) (w : World)
  : World :=
  if g_W3mGlobalSyncInProgress w
  then queue_fact_during_sync e name v (get_guid e) w
  else W3mBroadcastFact e name v w.

(** *** quest_sync: story lock control and fail-safe *)

Definition acquire_global_story_lock (e : Env) (initiator_guid scene_id : Z)
  (w : World) : World :=
  acquire_lock e initiator_guid scene_id (set_sync true w).

Definition FORCED_CHANNEL : string := "story_lock_release_forced".
Definition QUEST_LOCK_CHANNEL : string := "quest_lock".

Definition release_global_story_lock (e : Env) (forced : bool) (w : World)
  : World :=
  let initiator_guid := get_initiator_guid w in
  let scene_id := get_scene_id w in
  let w := release_lock w in
  let w := set_sync false w in
  let w := flush_pending_facts e w in
  let '(t, w) := now e w in
  let packet := mk_quest_lock_packet false scene_id initiator_guid (wrap32 t) in
  let w := increment_sent w in
  if g_loopback_enabled w
  then
    fst (receive_session_state_safe e get_master_server
           (mk_datagram (Some (PROTOCOL e)) (Some packet)) w)
  else
    network_send e (if forced then FORCED_CHANNEL else QUEST_LOCK_CHANNEL)
      (PQuestLock packet) w.

Definition W3mReleaseStoryLock (e : Env) (w : World) : World :=
  release_global_story_lock e false w.

Definition STORY_LOCK_TIMEOUT_MS : Z := 15000.

(** [now - lock_timestamp] is computed on [uint64_t]; the quotient is the
    unsigned one. *)
Definition elapsed_ms (now_ns lock_timestamp : Z) : Z :=
  wrap64 (now_ns - lock_timestamp) / 1000000.

Definition check_story_lock_timeout (e : Env) (w : World) : World :=
  if negb (is_locked w) then w
  else
    let lock_timestamp := get_lock_timestamp w in
    let '(t, w) := now e w in
    if STORY_LOCK_TIMEOUT_MS <? elapsed_ms t lock_timestamp
    then release_global_story_lock e true w
    else w.

(** The body of the 5000 ms [scheduler::loop]. *)
Definition broadcast_narrative_heartbeat (e : Env) (w : World) : World :=
  check_story_lock_timeout e w.

(** *** Runs *)

(** A sequence of script calls to [W3mAtomicAddFact], in order. *)
Definition atomic_add_all (e : Env) (facts : list (string * Z)) (w : World)
  : World :=
  foldl (fun w nv => W3mAtomicAddFact e nv.1 nv.2 w) w facts.

(** [n] turns of the heartbeat loop with nothing else in between. *)
Definition heartbeats (e : Env) (n : nat) (w : World) : World :=
  Nat.iter n (broadcast_narrative_heartbeat e) w.

(** *** What the specification says a flush leaves in the cache *)


(** Each queued fact stored under its hash, one after the other in queue
    order, the first stamped with reading [k]; no eviction. *)
Fixpoint applied_in_order (e : Env) (k : nat) (cache : gmap Z quest_fact)
  (queue : list quest_fact) : gmap Z quest_fact :=
  match queue with
  | [] => cache
  | f :: rest =>
      let h := compute_fact_hash e (fact_name f) in
      applied_in_order e (S k)
        (<[h := mk_quest_fact (fact_name f) (value f) (wrap64 (hrc_now e k))
                  (player_guid f) h]> cache)
        rest
  end.

(** The cache [register_fact] leaves when it takes reading [k]. *)
Definition cache_after_register (e : Env) (k : nat) (name : string)
  (v guid : Z) (cache : gmap Z quest_fact) : gmap Z quest_fact :=
  let h := compute_fact_hash e name in
  let c := <[h := mk_quest_fact name v (wrap64 (hrc_now e k)) guid h]> cache in
  if FACT_CACHE_SIZE_LIMIT <? Z.of_nat (size c)
  then prune_oldest_facts e c else c.

(** The cache the flush loop leaves, its first reading being [k]. *)
Fixpoint cache_after_flush (e : Env) (k : nat) (cache : gmap Z quest_fact)
  (queue : list quest_fact) : gmap Z quest_fact :=
  match queue with
  | [] => cache
  | f :: rest =>
      cache_after_flush e (S k)
        (cache_after_register e k (fact_name f) (value f) (player_guid f)
           cache)
        rest
  end.

(** The period of the [scheduler::loop] that runs the heartbeat. *)
Definition HEARTBEAT_INTERVAL_MS : Z := 5000.

(** The packet a release broadcasts, stamped with reading [k]. *)
Definition release_message (e : Env) (forced : bool) (w : World) (k : nat)
  : sent_message :=
  mk_sent (if forced then FORCED_CHANNEL else QUEST_LOCK_CHANNEL)
    (PROTOCOL e)
    (PQuestLock
       (mk_quest_lock_packet false (get_scene_id w) (get_initiator_guid w)
          (wrap32 (hrc_now e k)))).

(** *** A concrete platform *)

(** MSVC's [std::hash<std::string>]: 64-bit FNV-1a over the bytes. *)
Fixpoint fnv1a_append (val : Z) (s : string) : Z :=
  match s with
  | EmptyString => val
  | String c rest =>
      fnv1a_append
        (wrap64 (Z.lxor val (Z.of_N (Ascii.N_of_ascii c)) * 1099511628211))
        rest
  end.

Definition fnv1a (s : string) : Z := fnv1a_append 14695981039346656037 s.

Fixpoint insert_by_age (p : Z * Z) (l : list (Z * Z)) : list (Z * Z) :=
  match l with
  | [] => [p]
  | q :: rest => if p.2 <? q.2 then p :: l else q :: insert_by_age p rest
  end.

Definition sort_by_age (l : list (Z * Z)) : list (Z * Z) :=
  foldr insert_by_age [] l.

(** FNV-1a hashing, a clock that advances one microsecond per reading,
    protocol tag 1. *)
Definition msvc : Env :=
  mk_Env fnv1a (fun k => 1000 * Z.of_nat k) 77 1 sort_by_age.

(** A clock that stands at [t0] for the first reading and is read every
    [step] nanoseconds afterwards. *)
Definition ticking (t0 step : Z) : Env :=
  mk_Env fnv1a (fun k => t0 + step * Z.of_nat k) 77 1 sort_by_age.


(** The lock taken by player 5 for scene 9 at process start. *)
Definition lock_window (e : Env) : World :=
  acquire_global_story_lock e 5 9 initial_world.

(** A clock read every 5 seconds from 0, the lock taken at the first
    reading and one fact queued at the second. *)
Definition five_seconds : Env := ticking 0 5000000000.

Definition stalled_scene : World :=
  atomic_add_all five_seconds [("q_done", 1)] (lock_window five_seconds).

(** The same scene 20 seconds in, after the checks at 10 s and 15 s, in
    network mode and in loopback mode. *)
Definition overdue_scene : World := heartbeats five_seconds 2 stalled_scene.

Definition overdue_scene_looped_back : World :=
  set_loopback_mode true overdue_scene.

End Cpp.

(** ** Rational stand-ins for [float] comparisons *)

Definition Qleb (a b : Q) : bool := Qle_bool a b.
Definition Qltb (a b : Q) : bool := negb (Qle_bool b a).

(** ** 32-bit floats

    A finite [float] is the rational it stands for; an operation on floats
    is the exact operation followed by rounding to the nearest [float],
    ties to even.  Infinities and NaN are left out. *)

Module Float32.

(** Two to the [e]. *)
Definition pow2 (e : Z) : Q := (2 ^ e)%Q.

(** [floor (log2 q)] for a positive [q]. *)
Definition ilog2 (q : Q) : Z :=
  let k := Z.log2 (Qnum q) - Z.log2 (Zpos (Qden q)) in
  if Qle_bool (pow2 k) q then k else k - 1.

(** The nearest integer, the even one of two that are equally near. *)
Definition rne (q : Q) : Z :=
  let f := Qfloor q in
  match (q - inject_Z f ?= 1 # 2)%Q with
  | Lt => f
  | Gt => f + 1
  | Eq => if Z.even f then f else f + 1
  end.

(** The exponent of the last place of a positive [a]: 24 significant
    bits, and no place below 2^-149. *)
Definition expo (a : Q) : Z := Z.max (ilog2 a - 23) (-149).

Definition round_pos (a : Q) : Q :=
  (inject_Z (rne (a / pow2 (expo a))) * pow2 (expo a))%Q.

(** Rounding to the nearest [float], ties to even.  Overflow to infinity
    is left out: a value beyond the largest [float] is rounded as if the
    exponent had no upper bound. *)
Definition fl (q : Q) : Q :=
  let q := Qred q in
  match (q ?= 0)%Q with
  | Eq => 0%Q
  | Gt => Qred (round_pos q)
  | Lt => Qred (- round_pos (- q))
  end.


(** The operations of the code on [float]: the exact result, rounded. *)
Definition fadd (a b : Q) : Q := fl (a + b).
Definition fsub (a b : Q) : Q := fl (a - b).
Definition fmul (a b : Q) : Q := fl (a * b).
Definition fdiv (a b : Q) : Q := fl (a / b).

(** [static_cast<float>] and [(float)] of an integer. *)
Definition of_int (z : Z) : Q := fl (inject_Z z).

End Float32.

(** ** The script side: w3mp_final.ws *)

Module Script.
Import Float32.

Record W3mPendingFact := mk_pending {
  factName : string;
  value : Z;
  validFor : Z;
  timestamp : Q
}.

(** Calls into the game's fact database. *)
Inductive native_call :=
| FactsAdd (name : string) (value validFor : Z)
| FactsRemove (name : string).

(** The [@addField(CR4Player)] fields, and the player's inventory as far
    as the scripts use it: [inv] is [None] when [thePlayer.inv] is NULL,
    otherwise the quantity of 'Crowns'. *)
Record CR4Player := mk_player {
  inv : option Z;
  w3mGlobalSyncInProgress : bool;
  w3mPendingFacts : list W3mPendingFact;
  w3mTimeSmoothingActive : bool;
  w3mOriginalTimeMultiplier : Q;
  w3mSmoothingStartTime : Q;
  w3mTargetTimeOffset : Q
}.

(** [theGame]: the world clock in game seconds, the time-rate multiplier,
    the engine time in seconds, and the fact-database calls made so far. *)
Record CGame := mk_game {
  gameTime : Z;
  timeMultiplier : Q;
  engineTime : Q;
  factCalls : list native_call
}.

Record State := mk_state {
  thePlayer : option CR4Player;
  theGame : CGame
}.

Definition set_inv (c : option Z) (p : CR4Player) : CR4Player :=
  mk_player c (w3mGlobalSyncInProgress p) (w3mPendingFacts p)
    (w3mTimeSmoothingActive p) (w3mOriginalTimeMultiplier p)
    (w3mSmoothingStartTime p) (w3mTargetTimeOffset p).

Definition set_queue (sync : bool) (q : list W3mPendingFact) (p : CR4Player)
  : CR4Player :=
  mk_player (inv p) sync q
    (w3mTimeSmoothingActive p) (w3mOriginalTimeMultiplier p)
    (w3mSmoothingStartTime p) (w3mTargetTimeOffset p).

Definition set_smoothing (active : bool) (orig start target : Q)
  (p : CR4Player) : CR4Player :=
  mk_player (inv p) (w3mGlobalSyncInProgress p) (w3mPendingFacts p)
    active orig start target.

Definition SetTimeMultiplier (m : Q) (g : CGame) : CGame :=
  mk_game (gameTime g) m (engineTime g) (factCalls g).

(** [theGame.SetGameTime(GameTimeCreateFromGameSeconds(s), false)] *)
Definition SetGameTime (s : Z) (g : CGame) : CGame :=
  mk_game s (timeMultiplier g) (engineTime g) (factCalls g).

Definition call_native (c : native_call) (g : CGame) : CGame :=
  mk_game (gameTime g) (timeMultiplier g) (engineTime g) (factCalls g ++ [c]).

Definition W3mNativeFactsAdd (name : string) (v vf : Z) (s : State) : State :=
  mk_state (thePlayer s) (call_native (FactsAdd name v vf) (theGame s)).

Definition W3mNativeFactsRemove (name : string) (s : State) : State :=
  mk_state (thePlayer s) (call_native (FactsRemove name) (theGame s)).

(** *** Atomic facts *)

Definition W3mAtomicAddFact (name : string) (v vf : Z) (s : State) : State :=
  match thePlayer s with
  | Some p =>
      if w3mGlobalSyncInProgress p
      then
        let pendingFact := mk_pending name v vf (engineTime (theGame s)) in
        mk_state
          (Some (set_queue (w3mGlobalSyncInProgress p)
                   (w3mPendingFacts p ++ [pendingFact]) p))
          (theGame s)
      else W3mNativeFactsAdd name v vf s
  | None => W3mNativeFactsAdd name v vf s
  end.

Definition W3mAtomicRemoveFact (name : string) (s : State) : State :=
  match thePlayer s with
  | Some p =>
      if w3mGlobalSyncInProgress p
      then
        let pendingFact := mk_pending name 0 0 (engineTime (theGame s)) in
        mk_state
          (Some (set_queue (w3mGlobalSyncInProgress p)
                   (w3mPendingFacts p ++ [pendingFact]) p))
          (theGame s)
      else W3mNativeFactsRemove name s
  | None => W3mNativeFactsRemove name s
  end.

(** One turn of the flush loop. *)
Definition replay (s : State) (pendingFact : W3mPendingFact) : State :=
  if 0 <? validFor pendingFact
  then W3mNativeFactsAdd (factName pendingFact) (value pendingFact)
         (validFor pendingFact) s
  else W3mNativeFactsRemove (factName pendingFact) s.

(** [W3mFlushPendingFacts] reads [thePlayer] unguarded: [None] is the
    access through a NULL player. *)
Definition W3mFlushPendingFacts (s : State) : option State :=
  match thePlayer s with
  | None => None
  | Some p =>
      let s' := foldl replay s (w3mPendingFacts p) in
      Some (mk_state (Some (set_queue false [] p)) (theGame s'))
  end.

(** *** Time smoothing *)

Definition smoothingDuration : Q := 3.

(** [(float)hostGameTime - (float)currentSeconds]: two casts and a
    subtraction, each rounded. *)
Definition timeDiff (hostGameTime : Z) (s : State) : Q :=
  fsub (of_int hostGameTime) (of_int (gameTime (theGame s))).

Definition in_smoothing_band (d : Q) : bool :=
  Qleb 5 (Qabs d) && Qleb (Qabs d) 10.

(** [thePlayer] is read, unguarded, only inside the smoothing branch:
    [None] is that access through a NULL player. *)
Definition W3mSmoothTimeReconciliation (hostGameTime : Z) (s : State)
  : option State :=
  let g := theGame s in
  let d := timeDiff hostGameTime s in
  if in_smoothing_band d then
    match thePlayer s with
    | None => None
    | Some p =>
        let p :=
          if negb (w3mTimeSmoothingActive p)
          then set_smoothing true (timeMultiplier g) (engineTime g) d p
          else p in
        let adjustmentRate := fsub (engineTime g) (w3mSmoothingStartTime p) in
        if Qltb adjustmentRate smoothingDuration then
          let newMultiplier :=
            fadd (w3mOriginalTimeMultiplier p)
              (fdiv (w3mTargetTimeOffset p) smoothingDuration) in
          Some (mk_state (Some p) (SetTimeMultiplier newMultiplier g))
        else
          let g := SetTimeMultiplier (w3mOriginalTimeMultiplier p) g in
          let p :=
            set_smoothing false (w3mOriginalTimeMultiplier p)
              (w3mSmoothingStartTime p) (w3mTargetTimeOffset p) p in
          Some (mk_state (Some p) (SetGameTime hostGameTime g))
    end
  else if Qltb 10 (Qabs d) then
    Some (mk_state (thePlayer s) (SetGameTime hostGameTime g))
  else Some s.

(** *** Crown reconciliation *)

(** [int] arithmetic. *)
Definition int32 (z : Z) : Z := (z + 2 ^ 31) mod 2 ^ 32 - 2 ^ 31.

(** [inv.AddAnItem('Crowns', q)] and [inv.RemoveItemByName('Crowns', q)];
    no more than what is held can be removed. *)
Definition AddAnItem (q : Z) (crowns : Z) : Z := crowns + q.
Definition RemoveItemByName (q : Z) (crowns : Z) : Z := Z.max 0 (crowns - q).

Definition W3mGetTotalCrowns (s : State) : Z :=
  match thePlayer s with
  | Some p => match inv p with Some c => c | None => 0 end
  | None => 0
  end.

Definition W3mReconcileCrowns (remoteCrowns remoteGuid : Z) (s : State)
  : State :=
  match thePlayer s with
  | None => s
  | Some p =>
      match inv p with
      | None => s
      | Some localCrowns =>
          let diff := int32 (remoteCrowns - localCrowns) in
          if negb (diff =? 0) then
            let c :=
              if 0 <? diff then AddAnItem diff localCrowns
              else RemoveItemByName (int32 (Z.abs diff)) localCrowns in
            mk_state (Some (set_inv (Some c) p)) (theGame s)
          else s
      end
  end.

End Script.

(** ** network::interpolation *)

Module Vector.
Record t := mk { x : Q; y : Q; z : Q; w : Q }.
End Vector.

Module EulerAngles.
Record t := mk { x : Q; y : Q; z : Q }.
End EulerAngles.

Module Interp.
Import Float32.

Record player_state_packet := mk_packet {
  player_guid : Z;
  position : Vector.t;
  angles : EulerAngles.t;
  velocity : Vector.t;
  move_type : Z;
  speed : Q
}.

(** [timestamp] is a [steady_clock::time_point], in nanoseconds. *)
Record snapshot := mk_snapshot {
  state : player_state_packet;
  timestamp : Z;
  valid : bool
}.

Definition SNAPSHOT_BUFFER_SIZE : nat := 3.
Definition INTERPOLATION_DELAY_MS : Z := 100.
Definition RECOVERY_BLEND_DURATION_MS : Z := 500.
Definition EXTRAPOLATION_THRESHOLD_MS : Z := 100.

Record player_interpolator := mk_interp {
  snapshots_ : list snapshot;
  write_index_ : nat;
  snapshot_count_ : nat;
  in_extrapolation_ : bool;
  blend_active_ : bool;
  blend_start_time_ : Z;
  blend_start_state_ : player_state_packet;
  blend_target_state_ : player_state_packet;
  extrapolation_anchor_ : option player_state_packet;
  last_returned_state_ : option player_state_packet
}.

Definition zero_packet : player_state_packet :=
  mk_packet 0 (Vector.mk 0 0 0 0) (EulerAngles.mk 0 0 0) (Vector.mk 0 0 0 0)
    0 0%Q.

(** [player_interpolator() = default] *)
Definition fresh : player_interpolator :=
  mk_interp (replicate SNAPSHOT_BUFFER_SIZE (mk_snapshot zero_packet 0 false))
    0 0 false false 0 zero_packet zero_packet None None.

(** [duration_cast<milliseconds>] of a nanosecond count truncates. *)
Definition to_ms (ns : Z) : Z := Z.quot ns 1000000.
Definition of_ms (ms : Z) : Z := ms * 1000000.

(** *** Linear interpolation helpers *)

(** [a + (b - a) * t] *)
Definition lerp (a b t : Q) : Q := fadd a (fmul (fsub b a) t).

(** [while (diff > 180.0f) diff -= 360.0f].  The condition is tested at
    most [fuel] times; [None] when the loop has not left by then. *)
Fixpoint wrap_down (fuel : nat) (diff : Q) : option Q :=
  match fuel with
  | O => None
  | S k => if Qltb 180 diff then wrap_down k (fsub diff 360) else Some diff
  end.

(** [while (diff < -180.0f) diff += 360.0f], likewise. *)
Fixpoint wrap_up (fuel : nat) (diff : Q) : option Q :=
  match fuel with
  | O => None
  | S k => if Qltb diff (-180) then wrap_up k (fadd diff 360) else Some diff
  end.

(** The difference [lerp_angle] works with: [b - a] after both loops. *)
Definition normalize_diff (fuel : nat) (a b : Q) : option Q :=
  diff ← wrap_down fuel (fsub b a);
  wrap_up fuel diff.

Definition lerp_angle (fuel : nat) (a b t : Q) : option Q :=
  diff ← normalize_diff fuel a b;
  Some (fadd a (fmul diff t)).

(** [std::clamp] *)
Definition clamp (v lo hi : Q) : Q :=
  if Qltb v lo then lo else if Qltb hi v then hi else v.

Definition lerp_vector (a b : Vector.t) (t : Q) : Vector.t :=
  Vector.mk (lerp (Vector.x a) (Vector.x b) t)
    (lerp (Vector.y a) (Vector.y b) t)
    (lerp (Vector.z a) (Vector.z b) t)
    (lerp (Vector.w a) (Vector.w b) t).

Definition lerp_angles (fuel : nat) (a b : EulerAngles.t) (t : Q)
  : option EulerAngles.t :=
  x ← lerp_angle fuel (EulerAngles.x a) (EulerAngles.x b) t;
  y ← lerp_angle fuel (EulerAngles.y a) (EulerAngles.y b) t;
  z ← lerp_angle fuel (EulerAngles.z a) (EulerAngles.z b) t;
  Some (EulerAngles.mk x y z).

(** The component-wise interpolation both [get_interpolated_state] and
    [blend_packets] do, starting from a copy of [from].  It returns when
    the loops of [lerp_angle] do. *)
Definition blend_packets (fuel : nat) (from to : player_state_packet) (t : Q)
  : option player_state_packet :=
  angles ← lerp_angles fuel (angles from) (angles to) t;
  Some (mk_packet (player_guid from)
          (lerp_vector (position from) (position to) t)
          angles
          (lerp_vector (velocity from) (velocity to) t)
          (move_type from)
          (lerp (speed from) (speed to) t)).

(** *** Ring buffer *)

Definition add_snapshot (now : Z) (packet : player_state_packet)
  (it : player_interpolator) : player_interpolator :=
  mk_interp
    (<[write_index_ it := mk_snapshot packet now true]> (snapshots_ it))
    ((write_index_ it + 1) mod SNAPSHOT_BUFFER_SIZE)%nat
    (if (snapshot_count_ it <? SNAPSHOT_BUFFER_SIZE)%nat
     then S (snapshot_count_ it) else snapshot_count_ it)
    (in_extrapolation_ it) (blend_active_ it) (blend_start_time_ it)
    (blend_start_state_ it) (blend_target_state_ it)
    (extrapolation_anchor_ it) (last_returned_state_ it).

Definition reset (it : player_interpolator) : player_interpolator :=
  mk_interp
    ((fun s => mk_snapshot (state s) (timestamp s) false) <$> snapshots_ it)
    0 0
    (in_extrapolation_ it) (blend_active_ it) (blend_start_time_ it)
    (blend_start_state_ it) (blend_target_state_ it)
    (extrapolation_anchor_ it) (last_returned_state_ it).

(** The scan of [get_latest_snapshot_ptr] and [get_most_recent_snapshot]. *)
Definition latest_step (latest : option snapshot) (snap : snapshot)
  : option snapshot :=
  if negb (valid snap) then latest
  else
    match latest with
    | None => Some snap
    | Some l => if timestamp l <? timestamp snap then Some snap else latest
    end.

Definition get_latest_snapshot_ptr (it : player_interpolator)
  : option snapshot :=
  foldl latest_step None (snapshots_ it).

Definition get_most_recent_snapshot (it : player_interpolator)
  : option player_state_packet :=
  state <$> foldl latest_step None (snapshots_ it).

(** *** Extrapolation *)

Definition get_extrapolated_position (now : Z) (it : player_interpolator)
  : option player_state_packet :=
  match get_most_recent_snapshot it with
  | None => None
  | Some most_recent =>
      match get_latest_snapshot_ptr it with
      | None => Some most_recent
      | Some latest_snapshot =>
          let age_ms := to_ms (now - timestamp latest_snapshot) in
          if age_ms <=? EXTRAPOLATION_THRESHOLD_MS then Some most_recent
          else
            let delta_time_seconds :=
              fdiv (of_int (age_ms - INTERPOLATION_DELAY_MS)) 1000 in
            let p := position most_recent in
            let v := velocity most_recent in
            Some (mk_packet (player_guid most_recent)
                    (Vector.mk
                       (fadd (Vector.x p) (fmul (Vector.x v) delta_time_seconds))
                       (fadd (Vector.y p) (fmul (Vector.y v) delta_time_seconds))
                       (fadd (Vector.z p) (fmul (Vector.z v) delta_time_seconds))
                       (Vector.w p))
                    (angles most_recent) (velocity most_recent)
                    (move_type most_recent) (speed most_recent))
      end
  end.

Definition handle_extrapolation (now : Z) (it : player_interpolator)
  : option player_state_packet * player_interpolator :=
  match get_extrapolated_position now it with
  | Some extrapolated =>
      (Some extrapolated,
       mk_interp (snapshots_ it) (write_index_ it) (snapshot_count_ it)
         true false (blend_start_time_ it)
         (blend_start_state_ it) (blend_target_state_ it)
         (Some extrapolated) (Some extrapolated))
  | None => (None, it)
  end.

(** *** Recovery blend *)

Definition begin_blend (from_state to_state : player_state_packet) (now : Z)
  (it : player_interpolator) : player_interpolator :=
  mk_interp (snapshots_ it) (write_index_ it) (snapshot_count_ it)
    (in_extrapolation_ it) true now from_state to_state
    (extrapolation_anchor_ it) (last_returned_state_ it).

Definition set_in_extrapolation (b : bool) (it : player_interpolator)
  : player_interpolator :=
  mk_interp (snapshots_ it) (write_index_ it) (snapshot_count_ it)
    b (blend_active_ it) (blend_start_time_ it)
    (blend_start_state_ it) (blend_target_state_ it)
    (extrapolation_anchor_ it) (last_returned_state_ it).

Definition apply_blend_if_needed (fuel : nat)
  (target_state : player_state_packet) (now : Z) (it : player_interpolator)
  : option (player_state_packet * player_interpolator) :=
  let it :=
    match in_extrapolation_ it, extrapolation_anchor_ it with
    | true, Some anchor =>
        set_in_extrapolation false (begin_blend anchor target_state now it)
    | _, _ => it
    end in
  if negb (blend_active_ it) then Some (target_state, it)
  else
    let elapsed_ms := to_ms (now - blend_start_time_ it) in
    let t :=
      clamp (fdiv (of_int elapsed_ms) (of_int RECOVERY_BLEND_DURATION_MS))
        0 1 in
    blended ← blend_packets fuel (blend_start_state_ it) target_state t;
    let finished := RECOVERY_BLEND_DURATION_MS <=? elapsed_ms in
    Some (blended,
          mk_interp (snapshots_ it) (write_index_ it) (snapshot_count_ it)
            (in_extrapolation_ it)
            (if finished then false else blend_active_ it)
            (blend_start_time_ it) (blend_start_state_ it) target_state
            (if finished then None else extrapolation_anchor_ it)
            (last_returned_state_ it)).

(** *** Interpolation *)

(** One turn of the loop that looks for the snapshots around the render
    time. *)
Definition bracket_step (render_time : Z)
  (acc : option snapshot * option snapshot) (snap : snapshot)
  : option snapshot * option snapshot :=
  let '(older, newer) := acc in
  if negb (valid snap) then acc
  else if timestamp snap <=? render_time then
    match older with
    | None => (Some snap, newer)
    | Some o =>
        if timestamp o <? timestamp snap then (Some snap, newer) else acc
    end
  else
    match newer with
    | None => (older, Some snap)
    | Some n =>
        if timestamp snap <? timestamp n then (older, Some snap) else acc
    end.

Definition find_bracket (render_time : Z) (it : player_interpolator)
  : option snapshot * option snapshot :=
  foldl (bracket_step render_time) (None, None)
    (take (snapshot_count_ it) (snapshots_ it)).

Definition set_last_returned (r : option player_state_packet)
  (it : player_interpolator) : player_interpolator :=
  mk_interp (snapshots_ it) (write_index_ it) (snapshot_count_ it)
    (in_extrapolation_ it) (blend_active_ it) (blend_start_time_ it)
    (blend_start_state_ it) (blend_target_state_ it)
    (extrapolation_anchor_ it) r.

(** [now] is the reading taken on entry; [later] is the one
    [get_extrapolated_position] takes if it runs.  The outer [None] is a
    call that has not returned when a loop of [lerp_angle] has used up
    [fuel]. *)
Definition get_interpolated_state (fuel : nat) (now later : Z)
  (it : player_interpolator)
  : option (option player_state_packet * player_interpolator) :=
  if (snapshot_count_ it <? 2)%nat then Some (handle_extrapolation later it)
  else
    let render_time := now - of_ms INTERPOLATION_DELAY_MS in
    match find_bracket render_time it with
    | (Some older, Some newer) =>
        let time_diff := to_ms (timestamp newer - timestamp older) in
        if time_diff =? 0 then Some (Some (state older), it)
        else
          let elapsed := to_ms (render_time - timestamp older) in
          let t := fdiv (of_int elapsed) (of_int time_diff) in
          let clamped_t := clamp t 0 1 in
          interpolated ←
            blend_packets fuel (state older) (state newer) clamped_t;
          '(result, it) ← apply_blend_if_needed fuel interpolated now it;
          Some (Some result, set_last_returned (Some result) it)
    | _ => Some (handle_extrapolation later it)
    end.

End Interp.

(** *** Scenarios on the script side *)

Module ScriptRuns.
Import Script.

(** The database call a queued entry is replayed as by the flush. *)
Definition replayed_as (f : W3mPendingFact) : native_call :=
  if 0 <? validFor f
  then FactsAdd (factName f) (value f) (validFor f)
  else FactsRemove (factName f).

(** A player holding [c] crowns, nothing queued, no smoothing. *)
Definition player_with (c : Z) (sync : bool) : CR4Player :=
  mk_player (Some c) sync [] false 0 0 0.

(** A game whose world clock shows [t] seconds, running at rate 1, at
    engine time [et]. *)
Definition game_at (t : Z) (et : Q) : CGame := mk_game t 1 et [].

Definition state_at (crowns t : Z) (et : Q) (sync : bool) : State :=
  mk_state (Some (player_with crowns sync)) (game_at t et).

(** The engine clock moving on to [et], everything else as it was. *)
Definition at_engine_time (et : Q) (s : State) : State :=
  mk_state (thePlayer s)
    (mk_game (gameTime (theGame s)) (timeMultiplier (theGame s)) et
       (factCalls (theGame s))).

(** Both clocks moving on: the engine clock to [et] and the game clock to
    [t] seconds. *)
Definition at_times (et : Q) (t : Z) (s : State) : State :=
  mk_state (thePlayer s)
    (mk_game t (timeMultiplier (theGame s)) et (factCalls (theGame s))).

(** A reconciliation against host time [host] at engine time [et],
    starting from what the previous call left. *)
Definition reconcile_at (host : Z) (et : Q) (s : option State)
  : option State :=
  match s with
  | Some s => W3mSmoothTimeReconciliation host (at_engine_time et s)
  | None => None
  end.

Definition multiplier_of (s : option State) : option Q :=
  match s with
  | Some s => Some (timeMultiplier (theGame s))
  | None => None
  end.

(** A reconciliation against host time [host] with the engine clock at
    [et] and the game clock moved on to [t] seconds. *)
Definition reconcile_at_times (host : Z) (et : Q) (t : Z) (s : option State)
  : option State :=
  match s with
  | Some s => W3mSmoothTimeReconciliation host (at_times et t s)
  | None => None
  end.

Definition smoothing_of (s : option State) : option bool :=
  match s with
  | Some s =>
      match thePlayer s with
      | Some p => Some (w3mTimeSmoothingActive p)
      | None => None
      end
  | None => None
  end.

Definition clock_of (s : option State) : option Z :=
  match s with
  | Some s => Some (gameTime (theGame s))
  | None => None
  end.

End ScriptRuns.

(** *** Scenarios for the interpolator *)

Module InterpRuns.
Import Interp.






(** The largest number of turns for which 180 + 360 n is still an integer
    that a [float] holds exactly. *)
Definition MAX_TURNS : nat := Z.to_nat 46602.

(** [b - a], as the code computes it, is within half a turn plus [n]
    turns. *)
Definition turns_apart (n : nat) (a b : Q) : Prop :=
  (Qabs (Float32.fsub b a) <= 180 + 360 * inject_Z (Z.of_nat n))%Q.


(** A packet standing still at [x] on the first axis. *)
Definition standing_at (x : Q) : player_state_packet :=
  mk_packet 1 (Vector.mk x 0 0 0) (EulerAngles.mk 0 0 0) (Vector.mk 0 0 0 0)
    0 0%Q.


(** Then snapshot A (x = 0) arrives at 1000 ms and B (x = 10) at
    1200 ms. *)
Definition snapshot_A : snapshot := mk_snapshot (standing_at 0) (of_ms 1000) true.


(** The same two snapshots in an interpolator that never extrapolated. *)
Definition steady : player_interpolator :=
  add_snapshot (of_ms 1200) (standing_at 10)
    (add_snapshot (of_ms 1000) (standing_at 0) fresh).




End InterpRuns.

(** ** More of the native side *)

Module CppMore.
Import Protocol Cpp.

(** *** quest_sync::quest_fact_manager, the rest *)

(** [static_cast<int32_t>] of an unsigned value. *)
Definition to_int32 (z : Z) : Z := (z + 2 ^ 31) mod 2 ^ 32 - 2 ^ 31.

(** The loop of [compute_world_state_hash] over the entries in the order
    the map hands them out. *)
Definition world_state_hash_of (entries : list (Z * quest_fact)) : Z :=
  foldl (fun combined_hash hf =>
           Z.lxor (Z.lxor combined_hash hf.1) (wrap32 (value hf.2)))
    0 entries.

Definition cache_hash (cache : gmap Z quest_fact) : Z :=
  world_state_hash_of (map_to_list cache).

Definition compute_world_state_hash (w : World) : Z :=
  cache_hash (m_fact_cache w).

Definition clear_cache (w : World) : World := set_fact_cache ∅ w.

Definition get_fact_count (w : World) : nat := size (m_fact_cache w).

Definition get_fact_by_hash (h : Z) (w : World) : option quest_fact :=
  m_fact_cache w !! h.

(** *** quest_sync: the script bridge *)

Definition W3mAcquireStoryLock (e : Env) (initiator_guid scene_id : Z)
  (w : World) : World :=
  acquire_global_story_lock e initiator_guid (wrap32 scene_id) w.

Definition W3mIsStoryLocked (w : World) : bool := is_locked w.

Definition W3mIsGlobalSyncInProgress (w : World) : bool :=
  g_W3mGlobalSyncInProgress w.

Definition W3mGetFactValue (e : Env) (name : string) (w : World) : Z :=
  match get_fact e name w with
  | Some fact => value fact
  | None => 0
  end.

Definition W3mHasFact (e : Env) (name : string) (w : World) : bool :=
  has_fact e name w.

Definition W3mClearFactCache (w : World) : World := clear_cache w.

Definition W3mGetFactCount (w : World) : Z :=
  to_int32 (Z.of_nat (get_fact_count w)).

Definition W3mComputeWorldStateHash (w : World) : Z :=
  to_int32 (compute_world_state_hash w).

(** *** scripting_experiments: session state broadcast *)

Definition W3mBroadcastSessionState (e : Env) (new_state scene_id : Z)
  (w : World) : World :=
  let '(t, w) := now e w in
  let packet :=
    mk_quest_lock_packet (new_state =? 1) (wrap32 scene_id) (get_guid e)
      (wrap32 t) in
  let w := increment_sent w in
  if g_loopback_enabled w
  then
    fst (receive_session_state_safe e get_master_server
           (mk_datagram (Some (PROTOCOL e)) (Some packet)) w)
  else network_send e QUEST_LOCK_CHANNEL (PQuestLock packet) w.

(** *** Calls from outside *)

(** What the script, the scheduler and the network can ask of the two
    components. *)
Inductive call :=
| CallAcquireStoryLock (initiator_guid scene_id : Z)
| CallReleaseStoryLock
| CallAtomicAddFact (name : string) (v : Z)
| CallBroadcastFact (name : string) (v : Z)
| CallClearFactCache
| CallNarrativeHeartbeat
| CallBroadcastSessionState (new_state scene_id : Z)
| CallSetLoopback (enabled : bool)
| CallDeliver (address : string) (m : inbound).

Definition step (e : Env) (w : World) (c : call) : World :=
  match c with
  | CallAcquireStoryLock g s => W3mAcquireStoryLock e g s w
  | CallReleaseStoryLock => W3mReleaseStoryLock e w
  | CallAtomicAddFact n v => W3mAtomicAddFact e n v w
  | CallBroadcastFact n v => W3mBroadcastFact e n v w
  | CallClearFactCache => W3mClearFactCache w
  | CallNarrativeHeartbeat => broadcast_narrative_heartbeat e w
  | CallBroadcastSessionState st sc => W3mBroadcastSessionState e st sc w
  | CallSetLoopback b => set_loopback_mode b w
  | CallDeliver a m => fst (deliver e a m w)
  end.

Definition run (e : Env) (calls : list call) (w : World) : World :=
  foldl (step e) w calls.

(** What can go wrong at the envelope of a received buffer. *)
Definition tag_of (m : inbound) : option Z :=
  match m with
  | InLoot d => dg_protocol d
  | InQuestLock d => dg_protocol d
  | InAchievement d => dg_protocol d
  | InHeartbeat d => dg_protocol d
  | InHandshake d => dg_protocol d
  end.

Definition truncated (m : inbound) : bool :=
  match m with
  | InLoot d => negb (bool_decide (is_Some (dg_packet d)))
  | InQuestLock d => negb (bool_decide (is_Some (dg_packet d)))
  | InAchievement d => negb (bool_decide (is_Some (dg_packet d)))
  | InHeartbeat d => negb (bool_decide (is_Some (dg_packet d)))
  | InHandshake d => negb (bool_decide (is_Some (dg_packet d)))
  end.

(** *** Views of the world *)

(** The [(hash, timestamp)] pairs [prune_oldest_facts] sorts. *)
Definition ages_of (c : gmap Z quest_fact) : list (Z * Z) :=
  (fun hf : Z * quest_fact => (hf.1, timestamp hf.2)) <$> map_to_list c.

(** The order [prune_oldest_facts] asks [std::sort] for. *)
Definition by_age (a b : Z * Z) : Prop := a.2 <= b.2.

(** What the handshake and the achievement listener own. *)
Definition session_of (w : World) : bool * Z * string * gset string :=
  (g_handshake_complete w, g_session_id w, g_handshake_player_name w,
   m_unlocked_achievements w).

(** Everything else but the counter of received packets. *)
Definition narrative_of (w : World)
  : global_story_lock * gmap Z quest_fact * bool * list quest_fact
    * bool * nat * list sent_message * Z :=
  (g_story_lock w, m_fact_cache w, g_W3mGlobalSyncInProgress w,
   g_W3mPendingFacts w, g_loopback_enabled w, clock_reads w, net_sent w,
   packets_sent (g_telemetry w)).

(** A buffer that carries this build's protocol tag and a whole record. *)
Definition well_formed (e : Env) (m : inbound) : bool :=
  bool_decide (tag_of m = Some (PROTOCOL e)) && negb (truncated m).

(** The lock and the sync flag go together, nothing waits in the queue
    outside a sync, and the cache is within its limit. *)
Definition consistent (w : World) : Prop :=
  is_locked w = g_W3mGlobalSyncInProgress w /\
  (g_W3mGlobalSyncInProgress w = false -> g_W3mPendingFacts w = []) /\
  Z.of_nat (size (m_fact_cache w)) <= FACT_CACHE_SIZE_LIMIT.

(** A scene: taken, a fact queued, a second taker, a heartbeat, the
    release, and a fact after it. *)
Definition one_scene : list call :=
  [CallAcquireStoryLock 5 9; CallAtomicAddFact "q_done" 1;
   CallAcquireStoryLock 6 10; CallNarrativeHeartbeat;
   CallReleaseStoryLock; CallBroadcastFact "q_next" 2].

End CppMore.

(** ** scaling::scaling_manager *)

Module Scaling.

Definition HEALTH_MULTIPLIER_PER_PLAYER : Q := 1 # 2.
Definition BOSS_DAMAGE_BONUS_PER_PLAYER : Q := 1 # 5.

Record scaling_config := mk_config {
  health_multiplier : Q;
  damage_multiplier : Q;
  is_boss : bool;
  party_count : Z
}.

Definition calculate_health_multiplier (party_count : Z) : Q :=
  if party_count <=? 1 then 1%Q
  else (1 + inject_Z (party_count - 1) * HEALTH_MULTIPLIER_PER_PLAYER)%Q.

Definition calculate_damage_multiplier (party_count : Z) (is_boss : bool)
  : Q :=
  if (party_count <=? 1) || negb is_boss then 1%Q
  else (1 + inject_Z (party_count - 1) * BOSS_DAMAGE_BONUS_PER_PLAYER)%Q.

Definition create_config (party_count : Z) (is_boss : bool)
  : scaling_config :=
  mk_config (calculate_health_multiplier party_count)
    (calculate_damage_multiplier party_count is_boss) is_boss party_count.

Definition apply_health_scaling (base_health : Q) (party_count : Z)
  : option Q :=
  if party_count <=? 1 then None
  else Some (base_health * calculate_health_multiplier party_count)%Q.

Definition apply_damage_scaling (base_damage : Q) (party_count : Z)
  (is_boss : bool) : option Q :=
  if (party_count <=? 1) || negb is_boss then None
  else Some (base_damage * calculate_damage_multiplier party_count is_boss)%Q.

Definition get_scaling_description (party_count : Z) (is_boss : bool)
  : string :=
  if party_count <=? 1 then "No scaling (solo play)"
  else if is_boss then "Boss scaling (health + damage)"
  else "Standard scaling (health only)".

End Scaling.

(** ** quest_sync::dialogue_proximity_manager *)

Module Proximity.
Import Cpp.

(** A [const float*] to three coordinates; [None] is the null pointer. *)
Definition float3 : Type := Q * Q * Q.

Definition is_within_proximity (player_pos initiator_pos : option float3)
  (radius : Q) : bool :=
  match player_pos, initiator_pos with
  | Some p, Some i =>
      let dx := (p.1.1 - i.1.1)%Q in
      let dy := (p.1.2 - i.1.2)%Q in
      let dz := (p.2 - i.2)%Q in
      let distance_sq := (dx * dx + dy * dy + dz * dz)%Q in
      let radius_sq := (radius * radius)%Q in
      Qleb distance_sq radius_sq
  | _, _ => false
  end.

Record teleport_request := mk_request {
  player_guid : Z;
  target_position : float3;
  timestamp : Z
}.

Record dialogue_proximity_manager := mk_manager {
  m_pending_teleports : gmap Z teleport_request
}.

(** The clock reading is the world's next one. *)
Definition request_teleport (e : Env) (player_guid : Z)
  (target_position : float3) (s : World * dialogue_proximity_manager)
  : World * dialogue_proximity_manager :=
  let '(t, w) := now e s.1 in
  let request := mk_request player_guid target_position (wrap64 t) in
  (w, mk_manager (<[player_guid := request]> (m_pending_teleports s.2))).

Definition has_pending_teleport (player_guid : Z)
  (m : dialogue_proximity_manager) : bool :=
  bool_decide (is_Some (m_pending_teleports m !! player_guid)).

Definition clear_teleport (player_guid : Z) (m : dialogue_proximity_manager)
  : dialogue_proximity_manager :=
  mk_manager (delete player_guid (m_pending_teleports m)).

End Proximity.

(** ** scripting_experiments: the telemetry rate and the inventory bridge *)

Module Telemetry.
Import Cpp.

(** [W3mTelemetry] with its [last_reset_time], a [steady_clock] reading
    in nanoseconds. *)
Record timed_telemetry := mk_timed {
  counters : W3mTelemetry;
  last_reset_time : Z
}.

(** [now] is the [steady_clock] reading the call takes. *)
Definition get_packets_per_second (now : Z) (t : timed_telemetry)
  : Z * timed_telemetry :=
  let c := counters t in
  let elapsed := Z.quot (now - last_reset_time t) 1000000 in
  if 1000 <=? elapsed then
    let total_packets := wrap32 (packets_sent c + packets_received c) in
    let pps := total_packets in
    (pps, mk_timed (mk_telemetry 0 0 (current_rtt_ms c)) now)
  else (wrap32 (packets_sent c + packets_received c), t).

Definition update_rtt (rtt_ms : Z) (t : timed_telemetry) : timed_telemetry :=
  let c := counters t in
  mk_timed (mk_telemetry (packets_sent c) (packets_received c) rtt_ms)
    (last_reset_time t).

End Telemetry.

Module Inventory.
Import Protocol Cpp.

Definition MAX_ITEM_NAME_LENGTH : nat := 64.

Record W3mInventoryBridge := mk_bridge {
  m_outgoing_queue : list loot_packet;
  m_processed_items : gset string
}.

(** What [network::send] was handed on the loot channel. *)
Record sent_loot := mk_sent_loot {
  sl_channel : string;
  sl_protocol : Z;
  sl_packet : loot_packet
}.

(** The world together with [g_inventory_bridge] and the loot sent. *)
Record Host := mk_host {
  world : World;
  g_inventory_bridge : W3mInventoryBridge;
  loot_sent : list sent_loot
}.

(** [std::to_string] of a [uint32_t] *)
Definition to_string (quantity : Z) : string := pretty (Z.to_N quantity).

Definition item_key (item_name : string) (quantity : Z) : string :=
  String.append item_name (String.append "_" (to_string quantity)).

Definition push (e : Env) (item_name : string) (quantity : Z)
  (processed : gset string) (h : Host) : Host :=
  let '(t, w) := now e (world h) in
  let packet :=
    mk_loot_packet (copy_string MAX_ITEM_NAME_LENGTH item_name) quantity
      (get_guid e) (wrap32 t) in
  mk_host w
    (mk_bridge (m_outgoing_queue (g_inventory_bridge h) ++ [packet])
       processed)
    (loot_sent h).

Definition queue_item (e : Env) (item_name : string) (quantity : Z)
  (is_relic_or_boss : bool) (h : Host) : Host :=
  let is_crowns :=
    String.eqb item_name "Crowns" || String.eqb item_name "crowns" in
  let processed := m_processed_items (g_inventory_bridge h) in
  if negb is_crowns && is_relic_or_boss then
    let key := item_key item_name quantity in
    if bool_decide (key ∈ processed) then h
    else push e item_name quantity ({[key]} ∪ processed) h
  else push e item_name quantity processed h.

(** The script's [W3mInventoryBridge] import. *)
Definition W3mInventoryBridge_Queue (e : Env) (item_name : string)
  (quantity : Z) (is_relic_or_boss : bool) (h : Host) : Host :=
  queue_item e item_name (wrap32 quantity) is_relic_or_boss h.

(** One turn of the loop of [process_queue] on the packet at the front. *)
Definition process_front (e : Env) (packet : loot_packet)
  (rest : list loot_packet) (h : Host) : Host :=
  let bridge := mk_bridge rest (m_processed_items (g_inventory_bridge h)) in
  let w := increment_sent (world h) in
  if g_loopback_enabled w
  then
    mk_host
      (fst (receive_inventory_safe e get_master_server
              (mk_datagram (Some (PROTOCOL e)) (Some packet)) w))
      bridge (loot_sent h)
  else
    mk_host w bridge
      (loot_sent h ++ [mk_sent_loot "loot" (PROTOCOL e) packet]).

(** [while (!m_outgoing_queue.empty())], run for at most [fuel] turns. *)
Fixpoint process_loop (e : Env) (fuel : nat) (h : Host) : Host :=
  match fuel with
  | O => h
  | S k =>
      match m_outgoing_queue (g_inventory_bridge h) with
      | [] => h
      | packet :: rest => process_loop e k (process_front e packet rest h)
      end
  end.

(** Each turn pops one packet and none is pushed under the mutex, so as
    many turns as packets queued are enough. *)
Definition process_queue (e : Env) (h : Host) : Host :=
  process_loop e (length (m_outgoing_queue (g_inventory_bridge h))) h.

Definition idle_host : Host := mk_host initial_world (mk_bridge [] ∅) [].

End Inventory.

(** ** scripting_experiments: handshake and achievement broadcasts *)

Module Outbound.
Import Protocol Cpp.

(** What [network::send] was handed on the handshake and achievement
    channels. *)
Inductive wire :=
| WHandshake (p : handshake_packet)
| WAchievement (p : achievement_packet).

Record sent_wire := mk_wire {
  sw_channel : string;
  sw_protocol : Z;
  sw_packet : wire
}.

Record Peer := mk_peer {
  world : World;
  wire_sent : list sent_wire
}.

Definition MAX_ACHIEVEMENT_ID_LENGTH : nat := 64.

(** [sizeof(packet.player_name)] *)
Definition PLAYER_NAME_SIZE : nat := 32.

(** [local_name] stands for [get_player_name(get_guid())];
    [strncpy_s(.., _TRUNCATE)] keeps at most 31 characters of it. *)
Definition W3mInitiateHandshake (e : Env) (local_name : string)
  (session_id : Z) (s : Peer) : Peer :=
  let '(t, w) := now e (world s) in
  let packet :=
    mk_handshake_packet session_id (wrap32 (get_guid e)) SCRIPT_VERSION
      (copy_string PLAYER_NAME_SIZE local_name) (wrap32 t) in
  let w := increment_sent w in
  if g_loopback_enabled w
  then
    mk_peer
      (fst (receive_handshake_safe e get_master_server
              (mk_datagram (Some (PROTOCOL e)) (Some packet)) w))
      (wire_sent s)
  else
    mk_peer w
      (wire_sent s ++ [mk_wire "handshake" (PROTOCOL e) (WHandshake packet)]).

Definition W3mBroadcastAchievement (e : Env) (achievement_id : string)
  (s : Peer) : Peer :=
  let achievement_str := achievement_id in
  if bool_decide (achievement_str ∈ m_unlocked_achievements (world s)) then s
  else
    let w :=
      set_achievements
        ({[achievement_str]} ∪ m_unlocked_achievements (world s)) (world s) in
    let '(t, w) := now e w in
    let packet :=
      mk_achievement_packet
        (copy_string MAX_ACHIEVEMENT_ID_LENGTH achievement_str) (get_guid e)
        (wrap32 t) in
    let w := increment_sent w in
    if g_loopback_enabled w
    then
      mk_peer
        (fst (receive_achievement_safe e get_master_server
                (mk_datagram (Some (PROTOCOL e)) (Some packet)) w))
        (wire_sent s)
    else
      mk_peer w
        (wire_sent s
         ++ [mk_wire "achievement" (PROTOCOL e) (WAchievement packet)]).

(** A peer at process start, and one that has switched loopback on. *)
Definition idle_peer : Peer := mk_peer initial_world [].

Definition looped_peer : Peer :=
  mk_peer (set_loopback_mode true initial_world) [].

End Outbound.

(** ** More of the interpolator *)

Module InterpMore.
Import Interp.

(** Snapshots arriving one after the other, each paired with the clock
    reading [add_snapshot] takes. *)
Definition add_snapshots (arrivals : list (Z * player_state_packet))
  (it : player_interpolator) : player_interpolator :=
  foldl (fun it a => add_snapshot a.1 a.2 it) it arrivals.

(** The slots the selection loop of [get_interpolated_state] scans. *)
Definition scanned (it : player_interpolator) : list snapshot :=
  take (snapshot_count_ it) (snapshots_ it).

End InterpMore.

(** ** More of the script side *)

Module ScriptWorld.
Import Script.

(** The script state together with the weather: the effect in force and
    the changes asked of the engine so far. *)
Record Session := mk_session {
  st : State;
  curWeather : Z;
  weatherRequests : list Z
}.

Definition W3mGetGameTime (x : Session) : Z := gameTime (theGame (st x)).

Definition W3mGetWeatherID (x : Session) : Z := curWeather x.

Definition RequestWeatherChange (weather : Z) (x : Session) : Session :=
  mk_session (st x) (curWeather x) (weatherRequests x ++ [weather]).

(** [if (thePlayer) thePlayer.w3mGlobalSyncInProgress = true] *)
Definition raise_sync (s : State) : State :=
  match thePlayer s with
  | Some p => mk_state (Some (set_queue true (w3mPendingFacts p) p)) (theGame s)
  | None => s
  end.

(** [None] is an access through a NULL player in one of the two calls. *)
Definition W3mReconcileWorldState (hostGameTime hostWeatherID : Z)
  (x : Session) : option Session :=
  let s := raise_sync (st x) in
  match W3mSmoothTimeReconciliation hostGameTime s with
  | None => None
  | Some s =>
      let x := mk_session s (curWeather x) (weatherRequests x) in
      let currentWeather := curWeather x in
      let hostWeather := hostWeatherID in
      let x :=
        if negb (currentWeather =? hostWeather)
        then RequestWeatherChange hostWeather x else x in
      match W3mFlushPendingFacts (st x) with
      | None => None
      | Some s => Some (mk_session s (curWeather x) (weatherRequests x))
      end
  end.

End ScriptWorld.

Module ScriptLoot.
Import Script Cpp Inventory.

(** [StrContains(s, sub)] *)
Definition StrContains (s sub : string) : bool :=
  match String.index 0 sub s with
  | Some _ => true
  | None => false
  end.

(** [quality] stands for [inv.GetItemQualityFromName], which hands back
    the least and the greatest quality of an item.  The script state is
    only read; the call goes to the native bridge. *)
Definition W3mOnItemLooted (e : Env) (quality : string -> Z * Z)
  (itemName : string) (quantity : Z) (containerTag : string) (s : State)
  (h : Host) : Host :=
  match thePlayer s with
  | None => h
  | Some p =>
      match inv p with
      | None => h
      | Some _ =>
          let itemNameStr := itemName in
          let containerTagStr := containerTag in
          if String.eqb itemNameStr "Crowns"
          then W3mInventoryBridge_Queue e itemNameStr quantity false h
          else
            let '(minQuality, maxQuality) := quality itemName in
            let itemQuality := maxQuality in
            let isBossContainer :=
              StrContains containerTagStr "boss"
              || StrContains containerTagStr "Boss" in
            let isRelicOrBoss := (4 <=? itemQuality) || isBossContainer in
            if isRelicOrBoss
            then W3mInventoryBridge_Queue e itemNameStr quantity true h
            else h
      end
  end.

(** An item database: swords of quality 4, everything else of quality 1. *)
Definition swords_are_relics (itemName : string) : Z * Z :=
  if StrContains itemName "sword" then (4, 4) else (1, 1).

End ScriptLoot.

(** ** The script side, party scaling *)

Module ScriptScaling.
Import Script.

(** An NPC as far as [W3mScaleNPCHealth] touches it: the abilities added
    so far, each [AddAbility(name, true)] adding one more instance, its
    tags and its health in percent. *)
Record CNewNPC := mk_npc {
  abilities : list string;
  tags : list string;
  healthPerc : Q
}.

Definition AddAbility (a : string) (npc : CNewNPC) : CNewNPC :=
  mk_npc (abilities npc ++ [a]) (tags npc) (healthPerc npc).

Definition SetHealthPerc (p : Q) (npc : CNewNPC) : CNewNPC :=
  mk_npc (abilities npc) (tags npc) p.

Definition HasTag (t : string) (npc : CNewNPC) : bool :=
  bool_decide (t ∈ tags npc).

Definition when (b : bool) (f : CNewNPC -> CNewNPC) (npc : CNewNPC)
  : CNewNPC :=
  if b then f npc else npc.

(** [None] is the NULL npc, for which the function returns at once. *)
Definition W3mScaleNPCHealth (npc : option CNewNPC) (healthMultiplier : Q)
  (partyCount : Z) : option CNewNPC :=
  match npc with
  | None => None
  | Some npc =>
      let health := AddAbility "W3MP_PartyScaling_Health" in
      let npc := when (Qleb (3 # 2) healthMultiplier) health npc in
      let npc := when (Qleb 2 healthMultiplier) health npc in
      let npc := when (Qleb (5 # 2) healthMultiplier) health npc in
      let npc := SetHealthPerc 100 npc in
      let isBoss := HasTag "Boss" npc || HasTag "boss" npc in
      if isBoss && (1 <? partyCount) then
        let damageBonus := (inject_Z (int32 (partyCount - 1)) * (1 # 5))%Q in
        let damage := AddAbility "W3MP_BossScaling_Damage" in
        let npc := when (Qleb (1 # 5) damageBonus) damage npc in
        let npc := when (Qleb (2 # 5) damageBonus) damage npc in
        let npc := when (Qleb (3 # 5) damageBonus) damage npc in
        Some npc
      else Some npc
  end.

(** The number of ability instances a party of [n] earns. *)
Definition earned (n : Z) : nat := Z.to_nat (Z.min 3 (Z.max 0 (n - 1))).

End ScriptScaling.

(** * Properties *)

(** ** Comparisons on rationals *)

Lemma Qleb_true (a b : Q) : Qleb a b = true <-> (a <= b)%Q.
Proof. apply Qle_bool_iff. Qed.

Lemma Qleb_false (a b : Q) : Qleb a b = false <-> (b < a)%Q.
Proof.
  unfold Qleb. split; intros H.
  - apply Qnot_le_lt. intros Hle. apply Qle_bool_iff in Hle. congruence.
  - destruct (Qle_bool a b) eqn:E; [|reflexivity].
    apply Qle_bool_iff in E. exfalso. exact (Qlt_not_le _ _ H E).
Qed.

Lemma Qltb_true (a b : Q) : Qltb a b = true <-> (a < b)%Q.
Proof.
  unfold Qltb. rewrite negb_true_iff. apply (Qleb_false b a).
Qed.

Lemma Qltb_false (a b : Q) : Qltb a b = false <-> (b <= a)%Q.
Proof.
  unfold Qltb. rewrite negb_false_iff. apply (Qleb_true b a).
Qed.

(** ** Rounding to a float *)

Section Float32Properties.
Import Float32.
Local Open Scope Q_scope.

Lemma pow2_pos (e : Z) : 0 < pow2 e.
Proof. apply Qpower_0_lt. reflexivity. Qed.

Lemma pow2_add (a b : Z) : pow2 (a + b) == pow2 a * pow2 b.
Proof. apply Qpower_plus. discriminate. Qed.

Lemma pow2_le (a b : Z) : (a <= b)%Z -> pow2 a <= pow2 b.
Proof. intros H. apply Qpower_le_compat_l; [exact H | discriminate]. Qed.

Lemma pow2_lt (a b : Z) : (a < b)%Z -> pow2 a < pow2 b.
Proof. intros H. apply Qpower_lt_compat_l; [exact H | reflexivity]. Qed.

Lemma pow2_nonneg_Z (k : Z) : (0 <= k)%Z -> pow2 k == inject_Z (2 ^ k).
Proof. intros H. unfold pow2. rewrite Zpower_Qpower by exact H. reflexivity. Qed.

Lemma pow2_succ (k : Z) : pow2 (k + 1) == 2 * pow2 k.
Proof. rewrite pow2_add. change (pow2 1) with 2. ring. Qed.

Lemma pow2_pred (k : Z) : 2 * pow2 (k - 1) == pow2 k.
Proof.
  rewrite <- pow2_succ. replace (k - 1 + 1)%Z with k by lia. reflexivity.
Qed.

Lemma Z_log2_Q (n : Z) :
  (0 < n)%Z -> pow2 (Z.log2 n) <= inject_Z n /\ inject_Z n < 2 * pow2 (Z.log2 n).
Proof.
  intros H. destruct (Z.log2_spec n H) as [H1 H2].
  pose proof (Z.log2_nonneg n) as H0.
  rewrite <- pow2_succ, !pow2_nonneg_Z by lia.
  rewrite <- Zle_Qle, <- Zlt_Qlt.
  replace (Z.log2 n + 1)%Z with (Z.succ (Z.log2 n)) by lia. split; assumption.
Qed.

Lemma ilog2_spec (q : Q) :
  0 < q -> pow2 (ilog2 q) <= q /\ q < pow2 (ilog2 q + 1).
Proof.
  intros Hq. unfold ilog2.
  set (n := Qnum q). set (d := Zpos (Qden q)).
  assert (Hn : (0 < n)%Z).
  { unfold Qlt in Hq. cbn in Hq. unfold n. lia. }
  assert (Hd : (0 < d)%Z) by (unfold d; lia).
  destruct (Z_log2_Q n Hn) as [N1 N2]. destruct (Z_log2_Q d Hd) as [D1 D2].
  assert (Hqd : q * inject_Z d == inject_Z n).
  { unfold n, d. destruct q as [qn qd]. cbn [Qnum Qden].
    rewrite (Qmake_Qdiv qn qd). field.
    intros E. unfold Qeq in E. cbn in E. lia. }
  assert (Hd0 : 0 < inject_Z d)
    by (change 0 with (inject_Z 0); rewrite <- Zlt_Qlt; exact Hd).
  set (k := (Z.log2 n - Z.log2 d)%Z).
  assert (Hk : pow2 k * pow2 (Z.log2 d) == pow2 (Z.log2 n)).
  { rewrite <- pow2_add. unfold k.
    replace (Z.log2 n - Z.log2 d + Z.log2 d)%Z with (Z.log2 n) by lia.
    reflexivity. }
  pose proof (pow2_pos k) as Pk. pose proof (pow2_pos (Z.log2 d)) as Pd.
  pose proof (pow2_pos (Z.log2 n)) as Pn.
  pose proof (pow2_pred k) as Hp. pose proof (pow2_pos (k - 1)) as Pk1.
  pose proof (pow2_succ k) as Hs.
  assert (Hup : q < 2 * pow2 k).
  { apply Qnot_le_lt. intros Hc. 
    assert (2 * pow2 k * inject_Z d <= q * inject_Z d) by nra.
    nra. }
  assert (Hlo : pow2 (k - 1) < q).
  { apply Qnot_le_lt. intros Hc.
    assert (q * inject_Z d <= pow2 (k - 1) * inject_Z d) by nra.
    nra. }
  destruct (Qle_bool (pow2 k) q) eqn:E.
  - apply Qle_bool_iff in E. split; [exact E|]. rewrite Hs. exact Hup.
  - assert (Hlt : q < pow2 k).
    { apply Qnot_le_lt. intros Hc. apply Qle_bool_iff in Hc. congruence. }
    replace (k - 1 + 1)%Z with k by lia. split; [apply Qlt_le_weak; exact Hlo | exact Hlt].
Qed.

Lemma ilog2_le (x y : Q) : 0 < x -> x <= y -> (ilog2 x <= ilog2 y)%Z.
Proof.
  intros Hx Hxy.
  destruct (ilog2_spec x Hx) as [X1 _].
  destruct (ilog2_spec y ltac:(lra)) as [_ Y2].
  destruct (Z.le_gt_cases (ilog2 x) (ilog2 y)) as [H|H]; [exact H|].
  pose proof (pow2_le (ilog2 y + 1) (ilog2 x) ltac:(lia)). lra.
Qed.

Lemma ilog2_upper (x : Q) (k : Z) : 0 < x -> x < pow2 k -> (ilog2 x < k)%Z.
Proof.
  intros Hx Hk. destruct (ilog2_spec x Hx) as [X1 _].
  destruct (Z.lt_ge_cases (ilog2 x) k) as [H|H]; [exact H|].
  pose proof (pow2_le k (ilog2 x) H). lra.
Qed.

Lemma ilog2_lower (x : Q) (k : Z) : pow2 k <= x -> (k <= ilog2 x)%Z.
Proof.
  intros Hk. pose proof (pow2_pos k) as Pk.
  destruct (ilog2_spec x ltac:(lra)) as [_ X2].
  destruct (Z.le_gt_cases k (ilog2 x)) as [H|H]; [exact H|].
  pose proof (pow2_le (ilog2 x + 1) k ltac:(lia)). lra.
Qed.

(** *** Rounding to an integer *)

Lemma rne_bounds (q : Q) : (Qfloor q <= rne q <= Qfloor q + 1)%Z.
Proof.
  unfold rne. cbv zeta.
  destruct (Qcompare _ _); [destruct (Z.even _)| |]; lia.
Qed.

Lemma rne_Z (n : Z) : rne (inject_Z n) = n.
Proof.
  unfold rne. rewrite Qfloor_Z.
  assert (E : (inject_Z n - inject_Z n ?= 1 # 2) = Lt)
    by (apply (proj1 (Qlt_alt _ _)); lra).
  rewrite E. reflexivity.
Qed.

Lemma rne_comp (x y : Q) : x == y -> rne x = rne y.
Proof.
  intros H. unfold rne.
  assert (Hf : Qfloor x = Qfloor y) by (rewrite H; reflexivity).
  rewrite Hf.
  assert (Hc : (x - inject_Z (Qfloor y) ?= 1 # 2)
               = (y - inject_Z (Qfloor y) ?= 1 # 2))
    by (rewrite H; reflexivity).
  rewrite Hc. reflexivity.
Qed.

Lemma rne_mono (x y : Q) : x <= y -> (rne x <= rne y)%Z.
Proof.
  intros H. pose proof (Qfloor_resp_le x y H) as Hf.
  pose proof (rne_bounds x) as Bx. pose proof (rne_bounds y) as By.
  destruct (Z.eq_dec (Qfloor x) (Qfloor y)) as [E|E]; [|lia].
  unfold rne in *. rewrite E in *.
  set (f := Qfloor y) in *.
  destruct (Qcompare_spec (x - inject_Z f) (1 # 2)) as [X|X|X];
    destruct (Qcompare_spec (y - inject_Z f) (1 # 2)) as [Y|Y|Y];
    try destruct (Z.even f); try lia; exfalso; lra.
Qed.

Lemma rne_ge (x : Q) (n : Z) : inject_Z n <= x -> (n <= rne x)%Z.
Proof. intros H. rewrite <- (rne_Z n). apply rne_mono. exact H. Qed.

Lemma rne_le (x : Q) (n : Z) : x <= inject_Z n -> (rne x <= n)%Z.
Proof. intros H. rewrite <- (rne_Z n). apply rne_mono. exact H. Qed.

(** *** Rounding a positive number *)

Lemma expo_le (x y : Q) : 0 < x -> x <= y -> (expo x <= expo y)%Z.
Proof.
  intros Hx Hxy. unfold expo. pose proof (ilog2_le x y Hx Hxy). lia.
Qed.

Lemma scaled_lt (x : Q) : 0 < x -> x / pow2 (expo x) < inject_Z (2 ^ 24).
Proof.
  intros Hx. pose proof (pow2_pos (expo x)) as P.
  apply Qlt_shift_div_r; [exact P|].
  destruct (ilog2_spec x Hx) as [_ X2].
  rewrite <- pow2_nonneg_Z, <- pow2_add by lia.
  eapply Qlt_le_trans; [exact X2|]. apply pow2_le. unfold expo. lia.
Qed.

Lemma scaled_ge (x : Q) :
  0 < x -> (-149 < expo x)%Z -> inject_Z (2 ^ 23) <= x / pow2 (expo x).
Proof.
  intros Hx He. pose proof (pow2_pos (expo x)) as P.
  apply Qle_shift_div_l; [exact P|].
  destruct (ilog2_spec x Hx) as [X1 _].
  rewrite <- pow2_nonneg_Z, <- pow2_add by lia.
  eapply Qle_trans; [|exact X1]. apply pow2_le. unfold expo in *. lia.
Qed.

Lemma round_pos_nonneg (x : Q) : 0 < x -> 0 <= round_pos x.
Proof.
  intros Hx. unfold round_pos. pose proof (pow2_pos (expo x)) as P.
  assert (0 <= rne (x / pow2 (expo x)))%Z.
  { apply rne_ge. apply Qle_shift_div_l; [exact P|].
    change (inject_Z 0) with 0. lra. }
  assert (0 <= inject_Z (rne (x / pow2 (expo x))))
    by (change 0 with (inject_Z 0); rewrite <- Zle_Qle; assumption).
  nra.
Qed.

Lemma round_pos_mono (x y : Q) :
  0 < x -> x <= y -> round_pos x <= round_pos y.
Proof.
  intros Hx Hxy. assert (Hy : 0 < y) by lra.
  pose proof (expo_le x y Hx Hxy) as He. unfold round_pos.
  pose proof (pow2_pos (expo x)) as Px. pose proof (pow2_pos (expo y)) as Py.
  destruct (Z.eq_dec (expo x) (expo y)) as [E|E].
  - rewrite E.
    assert (rne (x / pow2 (expo y)) <= rne (y / pow2 (expo y)))%Z.
    { apply rne_mono. apply Qle_shift_div_l; [exact Py|].
      assert (Hs : x / pow2 (expo y) * pow2 (expo y) == x) by (field; lra).
      rewrite Hs. exact Hxy. }
    rewrite Zle_Qle in H. nra.
  - assert (Hlt : (expo x < expo y)%Z) by lia.
    assert (Hx24 : (rne (x / pow2 (expo x)) <= 2 ^ 24)%Z).
    { apply rne_le. apply Qlt_le_weak. apply scaled_lt. exact Hx. }
    assert (Hy23 : (2 ^ 23 <= rne (y / pow2 (expo y)))%Z).
    { apply rne_ge. apply scaled_ge; [exact Hy|]. unfold expo in *. lia. }
    rewrite Zle_Qle in Hx24, Hy23.
    rewrite <- pow2_nonneg_Z in Hx24, Hy23 by lia.
    assert (Hmid : pow2 24 * pow2 (expo x) <= pow2 23 * pow2 (expo y)).
    { rewrite <- !pow2_add. apply pow2_le. lia. }
    pose proof (pow2_pos 23). pose proof (pow2_pos 24).
    eapply Qle_trans; [|eapply Qle_trans; [exact Hmid|]]; nra.
Qed.

(** *** The laws of rounding used below *)

Lemma fl_comp (x y : Q) : x == y -> fl x = fl y.
Proof. intros H. unfold fl. rewrite (Qred_complete x y H). reflexivity. Qed.

Lemma fl_0 : fl 0 = 0.
Proof. reflexivity. Qed.

Lemma fl_sign (x : Q) :
  (0 < x -> 0 <= fl x) /\ (x < 0 -> fl x <= 0) /\ (x == 0 -> fl x = 0).
Proof.
  unfold fl. pose proof (Qred_correct x) as R.
  destruct (Qcompare_spec (Qred x) 0) as [E|E|E].
  - repeat split; intros; try lra. 
  - split; [intros; lra|]. split; [|intros; lra].
    intros _.
    pose proof (Qred_correct (- round_pos (- Qred x))) as Cx.
    pose proof (round_pos_nonneg (- Qred x) ltac:(lra)). lra.
  - split; [|split; intros; lra].
    intros _.
    pose proof (Qred_correct (round_pos (Qred x))) as Cx.
    pose proof (round_pos_nonneg (Qred x) E). lra.
Qed.

Theorem fl_mono (x y : Q) : x <= y -> fl x <= fl y.
Proof.
  intros H.
  destruct (fl_sign x) as (Xp & Xn & Xz). destruct (fl_sign y) as (Yp & Yn & Yz).
  destruct (Qlt_le_dec 0 x) as [Hx|Hx].
  - unfold fl. pose proof (Qred_correct x) as Rx.
    pose proof (Qred_correct y) as Ry.
    assert (Ex : (Qred x ?= 0) = Gt) by (apply (proj1 (Qgt_alt _ _)); lra).
    assert (Ey : (Qred y ?= 0) = Gt) by (apply (proj1 (Qgt_alt _ _)); lra).
    rewrite Ex, Ey.
    pose proof (Qred_correct (round_pos (Qred x))) as Cx.
    pose proof (Qred_correct (round_pos (Qred y))) as Cy.
    pose proof (round_pos_mono (Qred x) (Qred y) ltac:(lra) ltac:(lra)).
    lra.
  - destruct (Qlt_le_dec 0 y) as [Hy|Hy].
    + destruct (Qeq_dec x 0) as [E|E].
      * rewrite (Xz E). apply Yp. exact Hy.
      * assert (fl x <= 0) by (apply Xn; lra).
        assert (0 <= fl y) by (apply Yp; exact Hy). lra.
    + destruct (Qeq_dec y 0) as [E|E].
      * rewrite (Yz E).
        destruct (Qeq_dec x 0) as [E'|E']; [rewrite (Xz E'); lra|].
        apply Xn. lra.
      * unfold fl. pose proof (Qred_correct x) as Rx.
        pose proof (Qred_correct y) as Ry.
        assert (Ex : (Qred x ?= 0) = Lt) by (apply (proj1 (Qlt_alt _ _)); lra).
        assert (Ey : (Qred y ?= 0) = Lt) by (apply (proj1 (Qlt_alt _ _)); lra).
        rewrite Ex, Ey.
        pose proof (Qred_correct (- round_pos (- Qred x))) as Cx.
        pose proof (Qred_correct (- round_pos (- Qred y))) as Cy.
        pose proof (round_pos_mono (- Qred y) (- Qred x) ltac:(lra) ltac:(lra)).
        lra.
Qed.

Lemma Qred_Z (z : Z) : Qred (inject_Z z) = inject_Z z.
Proof.
  unfold Qred, inject_Z.
  pose proof (Z.ggcd_gcd z 1) as G.
  pose proof (Z.ggcd_correct_divisors z 1) as D.
  destruct (Z.ggcd z 1) as [g [q1 q2]]. cbn [fst snd] in *.
  rewrite Z.gcd_1_r in G. subst g. destruct D as [D1 D2].
  assert (E1 : q1 = z) by lia. assert (E2 : q2 = 1%Z) by lia.
  clear D1 D2. subst q1 q2. reflexivity.
Qed.

Lemma round_pos_int (z : Z) :
  (0 < z <= 2 ^ 24)%Z -> round_pos (inject_Z z) == inject_Z z.
Proof.
  intros Hz. set (a := inject_Z z).
  assert (Ha : 0 < a)
    by (unfold a; change 0 with (inject_Z 0); rewrite <- Zlt_Qlt; lia).
  assert (Hup : a <= pow2 24).
  { unfold a. rewrite pow2_nonneg_Z by lia. rewrite <- Zle_Qle. lia. }
  destruct (ilog2_spec a Ha) as [L1 L2].
  assert (Hl : (ilog2 a <= 24)%Z).
  { pose proof (ilog2_upper a 25 Ha) as U.
    assert (a < pow2 25) by (pose proof (pow2_lt 24 25 ltac:(lia)); lra).
    specialize (U H). lia. }
  unfold round_pos. set (e := expo a).
  assert (He : (-149 <= e <= 1)%Z) by (unfold e, expo; lia).
  pose proof (pow2_pos e) as Pe.
  destruct (Z.le_gt_cases e 0) as [Hneg|Hpos].
  - assert (Hm : / pow2 e == inject_Z (2 ^ (- e))).
    { rewrite <- pow2_nonneg_Z by lia. unfold pow2. rewrite Qpower_opp.
      reflexivity. }
    assert (Hs : a / pow2 e == inject_Z (z * 2 ^ (- e))).
    { unfold Qdiv. rewrite Hm, inject_Z_mult. reflexivity. }
    rewrite (rne_comp _ _ Hs), rne_Z, inject_Z_mult, <- Hm.
    fold a. field. lra.
  - assert (e = 1%Z) by lia.
    assert (Hi : ilog2 a = 24%Z) by (unfold e, expo in *; lia).
    rewrite Hi in L1.
    assert (Ea : a == pow2 24) by lra.
    rewrite H. 
    assert (Hs : a / pow2 1 == inject_Z (2 ^ 23)).
    { rewrite Ea. reflexivity. }
    rewrite (rne_comp _ _ Hs), rne_Z, Ea. reflexivity.
Qed.

Theorem fl_int (z : Z) :
  (- 2 ^ 24 <= z <= 2 ^ 24)%Z -> fl (inject_Z z) = inject_Z z.
Proof.
  intros Hz. unfold fl. rewrite Qred_Z.
  destruct (Qcompare_spec (inject_Z z) 0) as [E|E|E].
  - assert (z = 0%Z) by (unfold Qeq in E; cbn in E; lia).
    subst z. reflexivity.
  - change 0 with (inject_Z 0) in E. rewrite <- Zlt_Qlt in E.
    rewrite <- inject_Z_opp.
    assert (R : round_pos (inject_Z (- z)) == inject_Z (- z))
      by (apply round_pos_int; lia).
    rewrite <- (Qred_Z z). apply Qred_complete.
    rewrite R, inject_Z_opp. ring.
  - change 0 with (inject_Z 0) in E. rewrite <- Zlt_Qlt in E.
    rewrite <- (Qred_Z z) at 2. apply Qred_complete.
    apply round_pos_int. lia.
Qed.

End Float32Properties.

(** ** The script side *)

Section ScriptProperties.
Import Script ScriptRuns.

Lemma int32_small (z : Z) : - 2 ^ 31 <= z < 2 ^ 31 -> int32 z = z.
Proof.
  intros H. unfold int32.
  change (2 ^ 32) with 4294967296.
  change (2 ^ 31) with 2147483648 in *.
  rewrite Z.mod_small by lia. lia.
Qed.

(** What one reconciliation of the crowns leaves, for amounts an [int]
    holds without wrapping. *)
Lemma reconcile_crowns_result (L R g : Z) (p : CR4Player) (s : State) :
  thePlayer s = Some p -> inv p = Some L ->
  0 <= L < 2 ^ 31 -> 0 <= R < 2 ^ 31 ->
  W3mReconcileCrowns R g s
  = if R =? L then s
    else mk_state (Some (set_inv (Some R) p)) (theGame s).
Proof.
  intros Hp Hinv HL HR. unfold W3mReconcileCrowns.
  rewrite Hp, Hinv.
  assert (Hd : - 2 ^ 31 <= R - L < 2 ^ 31) by lia.
  assert (Ha : - 2 ^ 31 <= Z.abs (R - L) < 2 ^ 31) by lia.
  rewrite (int32_small (R - L)) by exact Hd.
  destruct (Z.eqb_spec R L) as [->|Hne].
  - rewrite Z.sub_diag. reflexivity.
  - destruct (Z.eqb_spec (R - L) 0) as [E|_]; [lia|]. cbn [negb].
    destruct (Z.ltb_spec 0 (R - L)).
    + unfold AddAnItem.
      replace (L + (R - L)) with R by lia. reflexivity.
    + unfold RemoveItemByName. rewrite int32_small by exact Ha.
      replace (Z.max 0 (L - Z.abs (R - L))) with R by lia. reflexivity.
Qed.

Ltac by_evaluation := vm_compute; repeat split; congruence.

(** C4, as stated, fails.  Local 100 against remote 95 is a difference of
    5, within the 10 units the claim lets pass, and the local total does
    not stay at 100: it becomes 95. *)
Lemma crowns_small_difference_is_reconciled :
  let s := ScriptRuns.state_at 100 0 0 false in
  W3mGetTotalCrowns s = 100 /\
  Z.abs (95 - 100) <= 10 /\
  W3mGetTotalCrowns (W3mReconcileCrowns 95 7 s) = 95 /\
  W3mGetTotalCrowns (W3mReconcileCrowns 95 7 s) <> W3mGetTotalCrowns s.
Proof. by_evaluation. Qed.

(** C4, amended.  A reconciliation step with local total [L] and remote
    total [R] leaves the local total at [R] whatever the size of the
    difference, and touches nothing else: [W3mReconcileCrowns] has no
    threshold. *)
Theorem crowns_reconciled_to_remote (L R g : Z) (p : CR4Player) (s : State) :
  thePlayer s = Some p -> inv p = Some L ->
  0 <= L < 2 ^ 31 -> 0 <= R < 2 ^ 31 ->
  W3mGetTotalCrowns (W3mReconcileCrowns R g s) = R /\
  theGame (W3mReconcileCrowns R g s) = theGame s /\
  thePlayer (W3mReconcileCrowns R g s) = Some (set_inv (Some R) p).
Proof.
  intros Hp Hinv HL HR.
  rewrite (reconcile_crowns_result L R g p s Hp Hinv HL HR).
  destruct (Z.eqb_spec R L) as [->|Hne].
  - unfold W3mGetTotalCrowns. rewrite Hp, Hinv. repeat split.
    destruct p; cbn in *. subst. reflexivity.
  - repeat split.
Qed.

Lemma crowns_reconciled_to_remote_witness :
  let s := ScriptRuns.state_at 100 0 0 false in
  W3mGetTotalCrowns (W3mReconcileCrowns 95 7 s) = 95 /\
  W3mGetTotalCrowns (W3mReconcileCrowns 80 7 s) = 80.
Proof.
  intros s. split.
  - apply (crowns_reconciled_to_remote 100 95 7
             (ScriptRuns.player_with 100 false));
      [reflexivity | reflexivity | by_evaluation | by_evaluation].
  - apply (crowns_reconciled_to_remote 100 80 7
             (ScriptRuns.player_with 100 false));
      [reflexivity | reflexivity | by_evaluation | by_evaluation].
Defined.

(** *** World clock *)

Lemma in_smoothing_band_true (d : Q) :
  in_smoothing_band d = true <-> (5 <= Qabs d /\ Qabs d <= 10)%Q.
Proof.
  unfold in_smoothing_band. rewrite andb_true_iff, !Qleb_true. reflexivity.
Qed.

Lemma in_smoothing_band_false (d : Q) :
  in_smoothing_band d = false <-> (Qabs d < 5 \/ 10 < Qabs d)%Q.
Proof.
  unfold in_smoothing_band. rewrite andb_false_iff, !Qleb_false. reflexivity.
Qed.

(** The difference the script computes is the exact one as long as both
    clocks are within 2^23 seconds of zero. *)
Lemma timeDiff_exact (host : Z) (s : State) :
  - 2 ^ 23 <= host <= 2 ^ 23 ->
  - 2 ^ 23 <= gameTime (theGame s) <= 2 ^ 23 ->
  timeDiff host s = inject_Z (host - gameTime (theGame s)).
Proof.
  intros Hh Hc. change (2 ^ 23) with 8388608 in Hh, Hc.
  unfold timeDiff, Float32.fsub, Float32.of_int.
  rewrite !fl_int by (change (2 ^ 24) with 16777216; lia).
  rewrite <- (fl_int (host - gameTime (theGame s)))
    by (change (2 ^ 24) with 16777216; lia).
  apply fl_comp. unfold Z.sub. rewrite inject_Z_plus, inject_Z_opp.
  reflexivity.
Qed.

(** C5, as stated, fails.  The local clock shows 1000 s and the host
    1045 s: a difference of 45 s, at most 60 and outside the smoothing
    band.  The step is not ignored: the local clock is set to 1045.
    Nor is the difference the exact one: with the local clock at 2^26 s
    and the host 11 s ahead, the two casts to [float] leave a difference
    of 8, and the step starts smoothing. *)
Lemma clock_diff_45_is_snapped :
  let s := ScriptRuns.state_at 0 1000 0 false in
  let late := ScriptRuns.state_at 0 (2 ^ 26) 0 false in
  (Qabs (timeDiff 1045 s) <= 60)%Q /\
  in_smoothing_band (timeDiff 1045 s) = false /\
  W3mSmoothTimeReconciliation 1045 s
  = Some (mk_state (thePlayer s) (SetGameTime 1045 (theGame s))) /\
  W3mSmoothTimeReconciliation 1045 s <> Some s /\
  timeDiff (2 ^ 26 + 11) late = 8%Q /\
  in_smoothing_band (timeDiff (2 ^ 26 + 11) late) = true /\
  W3mSmoothTimeReconciliation (2 ^ 26 + 11) late <> Some late.
Proof. by_evaluation. Qed.

(** C5, amended.  The difference is the one the script computes on
    floats, which is the exact one while both clocks are within 2^23
    seconds of zero.  A difference below 5 seconds is ignored: the state
    is left as it is.  Every difference above 10 seconds, within 60
    seconds or not, is snapped at once: the local clock is set to the
    host's and neither the multiplier nor the smoothing fields change.
    So 45 s and 15 s both snap. *)
Theorem clock_drift_outside_band (host : Z) (s : State) :
  ((Qabs (timeDiff host s) < 5)%Q ->
   W3mSmoothTimeReconciliation host s = Some s) /\
  ((10 < Qabs (timeDiff host s))%Q ->
   W3mSmoothTimeReconciliation host s
   = Some (mk_state (thePlayer s) (SetGameTime host (theGame s)))) /\
  (- 2 ^ 23 <= host <= 2 ^ 23 ->
   - 2 ^ 23 <= gameTime (theGame s) <= 2 ^ 23 ->
   timeDiff host s = inject_Z (host - gameTime (theGame s))).
Proof.
  unfold W3mSmoothTimeReconciliation.
  split; [|split; [|apply timeDiff_exact]]; intros Hd.
  - assert (Hb : in_smoothing_band (timeDiff host s) = false)
      by (apply in_smoothing_band_false; left; exact Hd).
    rewrite Hb.
    assert (Hs : Qltb 10 (Qabs (timeDiff host s)) = false)
      by (apply Qltb_false; lra).
    rewrite Hs. reflexivity.
  - assert (Hb : in_smoothing_band (timeDiff host s) = false)
      by (apply in_smoothing_band_false; right; exact Hd).
    rewrite Hb.
    assert (Hs : Qltb 10 (Qabs (timeDiff host s)) = true)
      by (apply Qltb_true; exact Hd).
    rewrite Hs. reflexivity.
Qed.

Lemma clock_drift_outside_band_witness :
  let s := ScriptRuns.state_at 0 1000 0 false in
  W3mSmoothTimeReconciliation 1003 s = Some s /\
  W3mSmoothTimeReconciliation 1045 s
  = Some (mk_state (thePlayer s) (SetGameTime 1045 (theGame s))) /\
  W3mSmoothTimeReconciliation 1015 s
  = Some (mk_state (thePlayer s) (SetGameTime 1015 (theGame s))) /\
  timeDiff 1045 s = 45%Q.
Proof.
  intros s.
  split; [|split; [|split]].
  - apply (proj1 (clock_drift_outside_band 1003 s)). reflexivity.
  - apply (proj1 (proj2 (clock_drift_outside_band 1045 s))). reflexivity.
  - apply (proj1 (proj2 (clock_drift_outside_band 1015 s))). reflexivity.
  - apply (proj2 (proj2 (clock_drift_outside_band 1045 s)));
      vm_compute; split; discriminate.
Defined.

(** C6, as stated, fails.  Local clock 1000 s, host 1007 s, rate 1:
    smoothing starts at engine time 0 and the function is called again 1 s
    and 2 s into the 3-second window.  The multiplier does not ramp: it is
    put at 1 + 7/3, rounded, by the first call, away from the original
    rate at once, and it is that same value at every later instant of the
    window.  Nor does the end of the window restore anything: when, 4 s
    after the start, the local clock has caught up to within 2 s of the
    host, the step is ignored, the multiplier stays raised, smoothing
    stays switched on and the clock is not set to the host's. *)
Lemma smoothing_multiplier_is_held_not_ramped :
  let s0 := Some (ScriptRuns.state_at 0 1000 0 false) in
  let s1 := ScriptRuns.reconcile_at 1007 0 s0 in
  let s2 := ScriptRuns.reconcile_at 1007 1 s1 in
  let s3 := ScriptRuns.reconcile_at 1007 2 s2 in
  let s4 := ScriptRuns.reconcile_at_times 1011 4 1009 s1 in
  ScriptRuns.multiplier_of s0 = Some 1%Q /\
  ScriptRuns.multiplier_of s1
  = Some (Float32.fadd 1 (Float32.fdiv 7 3)) /\
  ScriptRuns.multiplier_of s1 <> Some 1%Q /\
  ScriptRuns.multiplier_of s2 = ScriptRuns.multiplier_of s1 /\
  ScriptRuns.multiplier_of s3 = ScriptRuns.multiplier_of s1 /\
  (Qabs (inject_Z (1011 - 1009)) < 5)%Q /\
  ScriptRuns.multiplier_of s4 = ScriptRuns.multiplier_of s1 /\
  ScriptRuns.smoothing_of s4 = Some true /\
  ScriptRuns.clock_of s4 = Some 1009.
Proof. by_evaluation. Qed.

Lemma fsub_self (x : Q) : Float32.fsub x x = 0%Q.
Proof.
  unfold Float32.fsub. rewrite <- fl_0. apply fl_comp. ring.
Qed.

(** C6, amended.  On a reconciliation that finds 5 <= |diff| <= 10, the
    difference and every operation being the script's, on floats:
    - if smoothing is not active it is started: the current multiplier,
      the engine time and the difference are recorded, and the multiplier
      is set to the recorded one plus a third of the difference;
    - while smoothing is active and less than 3 seconds have passed since
      its start, the multiplier is set to that same value (held, with no
      dependence on the time passed) and the clock is left alone;
    - once 3 seconds have passed, the recorded multiplier is restored,
      smoothing is switched off and the local clock is set to the host's. *)
Theorem smoothing_lifecycle (host : Z) (p : CR4Player) (s : State) :
  thePlayer s = Some p ->
  (5 <= Qabs (timeDiff host s))%Q -> (Qabs (timeDiff host s) <= 10)%Q ->
  let g := theGame s in
  let d := timeDiff host s in
  (w3mTimeSmoothingActive p = false ->
   W3mSmoothTimeReconciliation host s
   = Some (mk_state
             (Some (set_smoothing true (timeMultiplier g) (engineTime g) d p))
             (SetTimeMultiplier
                (Float32.fadd (timeMultiplier g) (Float32.fdiv d 3)) g))) /\
  (w3mTimeSmoothingActive p = true ->
   (Float32.fsub (engineTime g) (w3mSmoothingStartTime p) < 3)%Q ->
   W3mSmoothTimeReconciliation host s
   = Some (mk_state (Some p)
             (SetTimeMultiplier
                (Float32.fadd (w3mOriginalTimeMultiplier p)
                   (Float32.fdiv (w3mTargetTimeOffset p) 3))
                g))) /\
  (w3mTimeSmoothingActive p = true ->
   (3 <= Float32.fsub (engineTime g) (w3mSmoothingStartTime p))%Q ->
   W3mSmoothTimeReconciliation host s
   = Some (mk_state
             (Some (set_smoothing false (w3mOriginalTimeMultiplier p)
                      (w3mSmoothingStartTime p) (w3mTargetTimeOffset p) p))
             (SetGameTime host
                (SetTimeMultiplier (w3mOriginalTimeMultiplier p) g)))).
Proof.
  intros Hp Hlo Hhi g d.
  assert (Hb : in_smoothing_band d = true)
    by (apply in_smoothing_band_true; split; assumption).
  unfold W3mSmoothTimeReconciliation. fold g. fold d.
  rewrite Hb, Hp. split; [|split].
  - intros Hna. rewrite Hna. cbn [negb set_smoothing w3mSmoothingStartTime
      w3mOriginalTimeMultiplier w3mTargetTimeOffset].
    rewrite fsub_self. reflexivity.
  - intros Ha Hin. rewrite Ha. cbn [negb].
    assert (H0 : Qltb (Float32.fsub (engineTime g) (w3mSmoothingStartTime p))
                   smoothingDuration = true)
      by (apply Qltb_true; exact Hin).
    rewrite H0. reflexivity.
  - intros Ha Hout. rewrite Ha. cbn [negb].
    assert (H0 : Qltb (Float32.fsub (engineTime g) (w3mSmoothingStartTime p))
                   smoothingDuration = false)
      by (apply Qltb_false; exact Hout).
    rewrite H0. reflexivity.
Qed.

Lemma smoothing_lifecycle_witness :
  let s0 := ScriptRuns.state_at 0 1000 0 false in
  exists s1 s2 s3,
    W3mSmoothTimeReconciliation 1007 s0 = Some s1 /\
    W3mSmoothTimeReconciliation 1009 (ScriptRuns.at_times 2 1003 s1)
    = Some s2 /\
    W3mSmoothTimeReconciliation 1015 (ScriptRuns.at_times 5 1010 s2)
    = Some s3 /\
    timeMultiplier (theGame s1) = Float32.fadd 1 (Float32.fdiv 7 3) /\
    timeMultiplier (theGame s2) = Float32.fadd 1 (Float32.fdiv 7 3) /\
    gameTime (theGame s2) = 1003 /\
    timeMultiplier (theGame s3) = 1%Q /\
    gameTime (theGame s3) = 1015 /\
    (w3mTimeSmoothingActive <$> thePlayer s3) = Some false.
Proof.
  intros s0.
  pose (p0 := ScriptRuns.player_with 0 false).
  pose (m := Float32.fadd 1 (Float32.fdiv 7 3)).
  pose (p1 := set_smoothing true 1 0 7 p0).
  pose (s1 := mk_state (Some p1) (SetTimeMultiplier m (theGame s0))).
  pose (s1' := ScriptRuns.at_times 2 1003 s1).
  pose (s2 := mk_state (Some p1) (SetTimeMultiplier m (theGame s1'))).
  pose (s2' := ScriptRuns.at_times 5 1010 s2).
  pose (s3 := mk_state
                (Some (set_smoothing false 1 0 7 p1))
                (SetGameTime 1015 (SetTimeMultiplier 1 (theGame s2')))).
  exists s1, s2, s3.
  split; [|split; [|split]].
  - apply (proj1 (smoothing_lifecycle 1007 p0 s0 eq_refl
                    ltac:(by_evaluation) ltac:(by_evaluation))).
    reflexivity.
  - apply (proj1 (proj2 (smoothing_lifecycle 1009 p1 s1' eq_refl
                           ltac:(by_evaluation) ltac:(by_evaluation)))).
    + reflexivity.
    + reflexivity.
  - apply (proj2 (proj2 (smoothing_lifecycle 1015 p1 s2' eq_refl
                           ltac:(by_evaluation) ltac:(by_evaluation)))).
    + reflexivity.
    + by_evaluation.
  - by_evaluation.
Defined.

(** *** Atomic facts on the script side *)

Lemma replay_calls (s : State) (f : W3mPendingFact) :
  replay s f
  = mk_state (thePlayer s)
      (call_native (ScriptRuns.replayed_as f) (theGame s)).
Proof.
  unfold replay, ScriptRuns.replayed_as.
  destruct (0 <? validFor f); reflexivity.
Qed.

Lemma flush_replays_in_order (q : list W3mPendingFact) (s : State) :
  thePlayer (foldl replay s q) = thePlayer s /\
  gameTime (theGame (foldl replay s q)) = gameTime (theGame s) /\
  timeMultiplier (theGame (foldl replay s q)) = timeMultiplier (theGame s) /\
  engineTime (theGame (foldl replay s q)) = engineTime (theGame s) /\
  factCalls (theGame (foldl replay s q))
  = factCalls (theGame s) ++ map ScriptRuns.replayed_as q.
Proof.
  revert s. induction q as [|f q IH]; intros s; cbn [foldl map].
  - rewrite app_nil_r. repeat split.
  - destruct (IH (replay s f)) as (H1 & H2 & H3 & H4 & H5).
    rewrite H1, H2, H3, H4, H5, replay_calls. cbn.
    rewrite <- app_assoc. repeat split.
Qed.

(** C10.  With a sync in progress the atomic add queues the fact with
    its [validFor] and calls nothing; the flush replays a queued entry as
    a removal whenever its [validFor] is not above zero.  So an atomic add
    with [validFor = 0] is a [FactsAdd] when no sync is in progress, and,
    when queued and then flushed, a [FactsRemove] with no [FactsAdd]. *)
Theorem atomic_add_zero_validity_depends_on_sync (name : string) (v : Z)
  (p : CR4Player) (s : State) :
  thePlayer s = Some p ->
  (forall vf,
     w3mGlobalSyncInProgress p = true ->
     thePlayer (W3mAtomicAddFact name v vf s)
     = Some (set_queue true
               (w3mPendingFacts p
                ++ [mk_pending name v vf (engineTime (theGame s))]) p) /\
     theGame (W3mAtomicAddFact name v vf s) = theGame s) /\
  (forall f, validFor f <= 0 ->
     ScriptRuns.replayed_as f = FactsRemove (factName f)) /\
  (w3mGlobalSyncInProgress p = false ->
   factCalls (theGame (W3mAtomicAddFact name v 0 s))
   = factCalls (theGame s) ++ [FactsAdd name v 0]) /\
  (w3mGlobalSyncInProgress p = true ->
   exists s',
     W3mFlushPendingFacts (W3mAtomicAddFact name v 0 s) = Some s' /\
     factCalls (theGame s')
     = factCalls (theGame s)
       ++ map ScriptRuns.replayed_as (w3mPendingFacts p)
       ++ [FactsRemove name] /\
     (w3mPendingFacts <$> thePlayer s') = Some [] /\
     (w3mGlobalSyncInProgress <$> thePlayer s') = Some false).
Proof.
  intros Hp. split; [|split; [|split]].
  - intros vf Hsync. unfold W3mAtomicAddFact. rewrite Hp, Hsync.
    split; reflexivity.
  - intros f Hf. unfold ScriptRuns.replayed_as.
    destruct (Z.ltb_spec 0 (validFor f)); [lia | reflexivity].
  - intros Hsync. unfold W3mAtomicAddFact. rewrite Hp, Hsync. reflexivity.
  - intros Hsync. unfold W3mAtomicAddFact. rewrite Hp, Hsync.
    unfold W3mFlushPendingFacts. cbn [thePlayer set_queue w3mPendingFacts].
    eexists. split; [reflexivity|].
    cbn [theGame thePlayer].
    match goal with
    | |- context [foldl replay ?st ?q] =>
        destruct (flush_replays_in_order q st) as (_ & _ & _ & _ & H5)
    end.
    rewrite H5. cbn [theGame]. rewrite map_app. cbn [map].
    split; [reflexivity|]. split; reflexivity.
Qed.

Lemma atomic_add_zero_validity_depends_on_sync_witness :
  factCalls
    (theGame (W3mAtomicAddFact "q1" 1 0 (ScriptRuns.state_at 0 0 0 false)))
  = [FactsAdd "q1" 1 0] /\
  exists s',
    W3mFlushPendingFacts
      (W3mAtomicAddFact "q1" 1 0 (ScriptRuns.state_at 0 0 0 true))
    = Some s' /\
    factCalls (theGame s') = [FactsRemove "q1"].
Proof.
  split.
  - apply (proj1 (proj2 (proj2
      (atomic_add_zero_validity_depends_on_sync "q1" 1
         (ScriptRuns.player_with 0 false) (ScriptRuns.state_at 0 0 0 false)
         eq_refl)))).
    reflexivity.
  - destruct (proj2 (proj2 (proj2
      (atomic_add_zero_validity_depends_on_sync "q1" 1
         (ScriptRuns.player_with 0 true) (ScriptRuns.state_at 0 0 0 true)
         eq_refl))) eq_refl) as (s' & Hf & Hc & _).
    exists s'. split; [exact Hf | exact Hc].
Defined.

End ScriptProperties.

(** ** The interpolator *)

Section InterpProperties.
Import Interp InterpRuns.



(** *** Rounded interpolation *)

Lemma fl_le_int (x : Q) (z : Z) :
  - 2 ^ 24 <= z <= 2 ^ 24 -> (x <= inject_Z z)%Q ->
  (Float32.fl x <= inject_Z z)%Q.
Proof.
  intros Hz H. pose proof (fl_mono x (inject_Z z) H) as M.
  rewrite (fl_int z Hz) in M. exact M.
Qed.

Lemma fl_ge_int (x : Q) (z : Z) :
  - 2 ^ 24 <= z <= 2 ^ 24 -> (inject_Z z <= x)%Q ->
  (inject_Z z <= Float32.fl x)%Q.
Proof.
  intros Hz H. pose proof (fl_mono (inject_Z z) x H) as M.
  rewrite (fl_int z Hz) in M. exact M.
Qed.









(** *** Angles *)

Lemma inject_Z_succ (n : nat) :
  (inject_Z (Z.of_nat (S n)) == inject_Z (Z.of_nat n) + 1)%Q.
Proof.
  rewrite Nat2Z.inj_succ. unfold Z.succ. rewrite inject_Z_plus. reflexivity.
Qed.

(** Up to [MAX_TURNS] turns, half a turn plus [n] turns is a whole number
    a [float] holds. *)
Lemma turns_bound (n : nat) :
  (n <= MAX_TURNS)%nat ->
  (180 + 360 * inject_Z (Z.of_nat n)
   == inject_Z (180 + 360 * Z.of_nat n))%Q /\
  - 2 ^ 24 <= 180 + 360 * Z.of_nat n <= 2 ^ 24 /\
  - 2 ^ 24 <= - (180 + 360 * Z.of_nat n) <= 2 ^ 24.
Proof.
  intros H. unfold MAX_TURNS in H. change (2 ^ 24) with 16777216.
  split; [|lia].
  rewrite inject_Z_plus, inject_Z_mult. reflexivity.
Qed.

(** The first loop leaves within [n + 1] tests when the difference is at
    most half a turn plus [n] turns; it leaves a difference that is at
    most 180, untouched if it was so already, and at least -180 if it was
    not. *)
Lemma wrap_down_exits (fuel n : nat) (d : Q) :
  (n <= MAX_TURNS)%nat -> (n < fuel)%nat ->
  (d <= 180 + 360 * inject_Z (Z.of_nat n))%Q ->
  exists d', wrap_down fuel d = Some d' /\ (d' <= 180)%Q /\
    ((d <= 180)%Q -> d' = d) /\ ((180 < d)%Q -> (-180 <= d')%Q).
Proof.
  revert n d. induction fuel as [|k IH]; intros n d Hmax Hlt Hd; [lia|].
  cbn [wrap_down]. destruct (Qltb 180 d) eqn:E.
  - apply Qltb_true in E. destruct n as [|n'].
    + exfalso. change (inject_Z (Z.of_nat 0)) with 0%Q in Hd. lra.
    + pose proof (inject_Z_succ n') as Hs.
      destruct (turns_bound n' ltac:(lia)) as (Hb & Hr & _).
      assert (Hstep : (Float32.fsub d 360
                       <= 180 + 360 * inject_Z (Z.of_nat n'))%Q).
      { rewrite Hb. apply fl_le_int; [exact Hr|]. rewrite <- Hb. lra. }
      assert (Hlow : (inject_Z (-180) <= Float32.fsub d 360)%Q).
      { apply fl_ge_int; [vm_compute; split; discriminate|].
        change (inject_Z (-180)) with (-180)%Q. lra. }
      change (inject_Z (-180)) with (-180)%Q in Hlow.
      destruct (IH n' (Float32.fsub d 360) ltac:(lia) ltac:(lia) Hstep)
        as (d' & Hw & Hle & Hsame & Hbig).
      exists d'. split; [exact Hw|]. split; [exact Hle|].
      split; [intros; lra|]. intros _.
      destruct (Qlt_le_dec 180 (Float32.fsub d 360)) as [Hgt|Hle'].
      * apply Hbig. exact Hgt.
      * rewrite (Hsame Hle'). exact Hlow.
  - apply Qltb_false in E. exists d. split; [reflexivity|].
    split; [exact E|]. split; [reflexivity | intros; lra].
Qed.

Lemma wrap_up_exits (fuel n : nat) (d : Q) :
  (n <= MAX_TURNS)%nat -> (n < fuel)%nat ->
  (- (180 + 360 * inject_Z (Z.of_nat n)) <= d)%Q ->
  exists d', wrap_up fuel d = Some d' /\ (-180 <= d')%Q /\
    ((-180 <= d)%Q -> d' = d) /\ ((d < -180)%Q -> (d' <= 180)%Q).
Proof.
  revert n d. induction fuel as [|k IH]; intros n d Hmax Hlt Hd; [lia|].
  cbn [wrap_up]. destruct (Qltb d (-180)) eqn:E.
  - apply Qltb_true in E. destruct n as [|n'].
    + exfalso. change (inject_Z (Z.of_nat 0)) with 0%Q in Hd. lra.
    + pose proof (inject_Z_succ n') as Hs.
      destruct (turns_bound n' ltac:(lia)) as (Hb & _ & Hr).
      assert (Hstep : (- (180 + 360 * inject_Z (Z.of_nat n'))
                       <= Float32.fadd d 360)%Q).
      { rewrite Hb, <- inject_Z_opp. apply fl_ge_int; [exact Hr|].
        rewrite inject_Z_opp, <- Hb. lra. }
      assert (Hhigh : (Float32.fadd d 360 <= inject_Z 180)%Q).
      { apply fl_le_int; [vm_compute; split; discriminate|].
        change (inject_Z 180) with 180%Q. lra. }
      change (inject_Z 180) with 180%Q in Hhigh.
      destruct (IH n' (Float32.fadd d 360) ltac:(lia) ltac:(lia) Hstep)
        as (d' & Hw & Hge & Hsame & Hbig).
      exists d'. split; [exact Hw|]. split; [exact Hge|].
      split; [intros; lra|]. intros _.
      destruct (Qlt_le_dec (Float32.fadd d 360) (-180)) as [Hlt'|Hge'].
      * apply Hbig. exact Hlt'.
      * rewrite (Hsame Hge'). exact Hhigh.
  - apply Qltb_false in E. exists d. split; [reflexivity|].
    split; [exact E|]. split; [reflexivity | intros; lra].
Qed.

(** Far enough out the first loop never leaves: at 2^34 a step of 360 is
    less than half the gap between neighbouring floats, the subtraction
    gives 2^34 back, and no amount of fuel is enough. *)
Lemma wrap_down_never_leaves (fuel : nat) :
  Float32.fsub (inject_Z (2 ^ 34)) 360 = inject_Z (2 ^ 34) /\
  wrap_down fuel (inject_Z (2 ^ 34)) = None /\
  (forall t, lerp_angle fuel 0 (inject_Z (2 ^ 34)) t = None).
Proof.
  assert (Hs : Float32.fsub (inject_Z (2 ^ 34)) 360 = inject_Z (2 ^ 34))
    by (vm_compute; reflexivity).
  assert (Hw : forall k, wrap_down k (inject_Z (2 ^ 34)) = None).
  { induction k as [|k IH]; [reflexivity|].
    cbn [wrap_down].
    assert (Hc : Qltb 180 (inject_Z (2 ^ 34)) = true)
      by (vm_compute; reflexivity).
    rewrite Hc, Hs. exact IH. }
  split; [exact Hs|]. split; [apply Hw|].
  intros t. unfold lerp_angle, normalize_diff.
  assert (Hd : Float32.fsub (inject_Z (2 ^ 34)) 0 = inject_Z (2 ^ 34))
    by (vm_compute; reflexivity).
  rewrite Hd, Hw. reflexivity.
Qed.

(** Both loops of [lerp_angle] leave, and the difference they leave is in
    [-180, 180]; a difference already there is left alone. *)
Lemma normalize_diff_range (fuel n : nat) (a b : Q) :
  (n <= MAX_TURNS)%nat -> (n < fuel)%nat -> turns_apart n a b ->
  exists d, normalize_diff fuel a b = Some d /\
    (-180 <= d)%Q /\ (d <= 180)%Q /\
    ((Qabs (Float32.fsub b a) <= 180)%Q -> d = Float32.fsub b a).
Proof.
  intros Hmax Hlt Hap. unfold turns_apart in Hap.
  apply Qabs_Qle_condition in Hap as [Hlo Hhi].
  assert (Hn : (0 <= inject_Z (Z.of_nat n))%Q).
  { change 0%Q with (inject_Z 0). rewrite <- Zle_Qle. lia. }
  destruct (wrap_down_exits fuel n _ Hmax Hlt Hhi)
    as (d1 & Hw1 & Hle1 & Hsame1 & Hbig1).
  assert (Hlo1 : (- (180 + 360 * inject_Z (Z.of_nat n)) <= d1)%Q).
  { destruct (Qlt_le_dec 180 (Float32.fsub b a)) as [Hgt|Hle].
    - specialize (Hbig1 Hgt). lra.
    - rewrite (Hsame1 Hle). exact Hlo. }
  destruct (wrap_up_exits fuel n d1 Hmax Hlt Hlo1)
    as (d2 & Hw2 & Hge2 & Hsame2 & Hbig2).
  exists d2. unfold normalize_diff. rewrite Hw1. cbn. 
  split; [exact Hw2|]. split; [exact Hge2|]. split.
  - destruct (Qlt_le_dec d1 (-180)) as [Hlt'|Hge'].
    + apply Hbig2. exact Hlt'.
    + rewrite (Hsame2 Hge'). exact Hle1.
  - intros Hin. apply Qabs_Qle_condition in Hin as [Hin1 Hin2].
    rewrite <- (Hsame1 Hin2). apply Hsame2.
    rewrite (Hsame1 Hin2). exact Hin1.
Qed.



(** On whole degrees each turn of a loop is exact: what the first loop
    leaves is the difference less a whole number of turns. *)
Lemma wrap_down_int (fuel : nat) (z : Z) (d : Q) :
  - 2 ^ 24 <= z <= 2 ^ 24 ->
  wrap_down fuel (inject_Z z) = Some d ->
  exists k, d = inject_Z (z - 360 * k) /\
    - 2 ^ 24 <= z - 360 * k <= 2 ^ 24.
Proof.
  revert z. induction fuel as [|f IH]; intros z Hz; [discriminate|].
  cbn [wrap_down]. destruct (Qltb 180 (inject_Z z)) eqn:E.
  - apply Qltb_true in E. change 180%Q with (inject_Z 180) in E.
    rewrite <- Zlt_Qlt in E.
    assert (Hr : - 2 ^ 24 <= z - 360 <= 2 ^ 24)
      by (change (2 ^ 24) with 16777216 in *; lia).
    unfold Float32.fsub.
    rewrite (fl_comp (inject_Z z - 360) (inject_Z (z - 360)))
      by (unfold Z.sub; rewrite inject_Z_plus; reflexivity).
    rewrite (fl_int _ Hr). intros Hw.
    destruct (IH (z - 360) Hr Hw) as (k & Hk & Hrk).
    exists (k + 1). replace (z - 360 * (k + 1)) with (z - 360 - 360 * k)
      by lia. split; assumption.
  - intros [= <-]. exists 0. rewrite Z.mul_0_r, Z.sub_0_r.
    split; [reflexivity | exact Hz].
Qed.

Lemma wrap_up_int (fuel : nat) (z : Z) (d : Q) :
  - 2 ^ 24 <= z <= 2 ^ 24 ->
  wrap_up fuel (inject_Z z) = Some d ->
  exists k, d = inject_Z (z + 360 * k).
Proof.
  revert z. induction fuel as [|f IH]; intros z Hz; [discriminate|].
  cbn [wrap_up]. destruct (Qltb (inject_Z z) (-180)) eqn:E.
  - apply Qltb_true in E. change (-180)%Q with (inject_Z (-180)) in E.
    rewrite <- Zlt_Qlt in E.
    assert (Hr : - 2 ^ 24 <= z + 360 <= 2 ^ 24)
      by (change (2 ^ 24) with 16777216 in *; lia).
    unfold Float32.fadd.
    rewrite (fl_comp (inject_Z z + 360) (inject_Z (z + 360)))
      by (rewrite inject_Z_plus; reflexivity).
    rewrite (fl_int _ Hr). intros Hw.
    destruct (IH (z + 360) Hr Hw) as (k & Hk).
    exists (k + 1). replace (z + 360 * (k + 1)) with (z + 360 + 360 * k)
      by lia. exact Hk.
  - intros [= <-]. exists 0. rewrite Z.mul_0_r, Z.add_0_r. reflexivity.
Qed.

Lemma normalize_diff_int (fuel : nat) (za zb : Z) (d : Q) :
  - 2 ^ 23 <= za <= 2 ^ 23 -> - 2 ^ 23 <= zb <= 2 ^ 23 ->
  normalize_diff fuel (inject_Z za) (inject_Z zb) = Some d ->
  exists k, d = inject_Z (zb - za - 360 * k).
Proof.
  intros Ha Hb. change (2 ^ 23) with 8388608 in Ha, Hb.
  unfold normalize_diff, Float32.fsub.
  rewrite (fl_comp (inject_Z zb - inject_Z za) (inject_Z (zb - za)))
    by (unfold Z.sub; rewrite inject_Z_plus, inject_Z_opp; reflexivity).
  assert (Hr : - 2 ^ 24 <= zb - za <= 2 ^ 24)
    by (change (2 ^ 24) with 16777216; lia).
  rewrite (fl_int _ Hr).
  destruct (wrap_down fuel (inject_Z (zb - za))) as [d1|] eqn:E1;
    cbn; [|discriminate].
  destruct (wrap_down_int fuel _ d1 Hr E1) as (k1 & -> & Hr1).
  intros E2. destruct (wrap_up_int fuel _ d Hr1 E2) as (k2 & ->).
  exists (k1 - k2). f_equal. lia.
Qed.


(** *** The bracket *)

(** What the selection loop returns does bracket the render time. *)
Lemma bracket_step_keeps (rt : Z) (acc : option snapshot * option snapshot)
  (snap : snapshot) :
  (forall o, acc.1 = Some o -> timestamp o <= rt) ->
  (forall n, acc.2 = Some n -> rt < timestamp n) ->
  (forall o, (bracket_step rt acc snap).1 = Some o -> timestamp o <= rt) /\
  (forall n, (bracket_step rt acc snap).2 = Some n -> rt < timestamp n).
Proof.
  intros Ho Hn. destruct acc as [older newer]. unfold bracket_step.
  destruct (valid snap); cbn [negb]; [|split; assumption].
  destruct (Z.leb_spec (timestamp snap) rt) as [Hle|Hgt].
  - destruct older as [o|].
    + destruct (timestamp o <? timestamp snap); cbn in *;
        split; try assumption.
      intros x [= <-]. exact Hle.
    + cbn in *. split; try assumption. intros x [= <-]. exact Hle.
  - destruct newer as [n|].
    + destruct (timestamp snap <? timestamp n); cbn in *;
        split; try assumption.
      intros x [= <-]. exact Hgt.
    + cbn in *. split; try assumption. intros x [= <-]. exact Hgt.
Qed.

Lemma bracket_step_invariant (rt : Z) (l : list snapshot)
  (acc : option snapshot * option snapshot) :
  (forall o, acc.1 = Some o -> timestamp o <= rt) ->
  (forall n, acc.2 = Some n -> rt < timestamp n) ->
  (forall o, (foldl (bracket_step rt) acc l).1 = Some o -> timestamp o <= rt)
  /\
  (forall n, (foldl (bracket_step rt) acc l).2 = Some n -> rt < timestamp n).
Proof.
  revert acc. induction l as [|snap l IH]; intros acc Ho Hn.
  - cbn. split; assumption.
  - cbn [foldl].
    destruct (bracket_step_keeps rt acc snap Ho Hn) as [Ho' Hn'].
    apply IH; assumption.
Qed.






(** C9.  The difference [lerp_angle] interpolates along is the one
    between the two angles brought into [-180, 180] by whole turns, so the
    shorter way round.  When the angles are no more than half a turn plus
    [MAX_TURNS] turns apart both loops leave, with a difference in
    [-180, 180] that is the plain one if that was there already; between
    whole degrees it differs from the plain one by a whole number of
    turns.  From 359 degrees to 1 degree the difference -358 becomes +2,
    so halfway the angle is 360, which is 0 modulo 360, and not the 180 a
    plain [lerp] gives; from 1 degree to 359 the difference 358 becomes
    -2, and halfway the angle is 0. *)
Theorem lerp_angle_359_to_1_halfway :
  (forall fuel n a b t,
     (n <= MAX_TURNS)%nat -> (n < fuel)%nat -> turns_apart n a b ->
     exists d,
       normalize_diff fuel a b = Some d /\
       (-180 <= d)%Q /\ (d <= 180)%Q /\
       ((Qabs (Float32.fsub b a) <= 180)%Q -> d = Float32.fsub b a) /\
       lerp_angle fuel a b t
       = Some (Float32.fadd a (Float32.fmul d t))) /\
  (forall fuel za zb d,
     - 2 ^ 23 <= za <= 2 ^ 23 -> - 2 ^ 23 <= zb <= 2 ^ 23 ->
     normalize_diff fuel (inject_Z za) (inject_Z zb) = Some d ->
     exists k, d = inject_Z (zb - za - 360 * k)) /\
  (forall k,
     let fuel := S (S k) in
     normalize_diff fuel 359 1 = Some 2%Q /\
     lerp_angle fuel 359 1 (1 # 2) = Some 360%Q /\
     lerp_angle fuel 359 1 (1 # 2) <> Some 180%Q /\
     normalize_diff fuel 1 359 = Some (-2)%Q /\
     lerp_angle fuel 1 359 (1 # 2) = Some 0%Q) /\
  (exists k : Z, (360 == 0 + 360 * inject_Z k)%Q) /\
  lerp 359 1 (1 # 2) = 180%Q.
Proof.
  split; [|split; [|split; [|split]]].
  - intros fuel n a b t Hmax Hfuel Hap.
    destruct (normalize_diff_range fuel n a b Hmax Hfuel Hap)
      as (d & Hd & Hlo & Hhi & Hsame).
    exists d. split; [exact Hd|]. split; [exact Hlo|]. split; [exact Hhi|].
    split; [exact Hsame|]. unfold lerp_angle. rewrite Hd. reflexivity.
  - exact normalize_diff_int.
  - intros k fuel. subst fuel.
    split; [vm_compute; reflexivity|]. split; [vm_compute; reflexivity|].
    split; [vm_compute; discriminate|].
    split; vm_compute; reflexivity.
  - exists 1. reflexivity.
  - vm_compute. reflexivity.
Qed.

Lemma lerp_angle_359_to_1_halfway_witness :
  exists d,
    normalize_diff 2 359 1 = Some d /\ (-180 <= d)%Q /\ (d <= 180)%Q /\
    lerp_angle 2 359 1 (1 # 2)
    = Some (Float32.fadd 359 (Float32.fmul d (1 # 2))).
Proof.
  destruct (proj1 lerp_angle_359_to_1_halfway 2%nat 1%nat 359%Q 1%Q (1 # 2)%Q)
    as (d & Hd & Hlo & Hhi & _ & Hl).
  - unfold MAX_TURNS. lia.
  - lia.
  - unfold turns_apart. vm_compute. discriminate.
  - exists d. split; [exact Hd|]. split; [exact Hlo|].
    split; [exact Hhi | exact Hl].
Defined.

End InterpProperties.

(** ** The native side *)

Section CppProperties.
Import Protocol Cpp.

Ltac unfold_setters :=
  unfold set_story_lock, set_fact_cache, set_sync, set_pending,
    set_telemetry, set_loopback, set_session, set_achievements,
    set_clock_reads, set_net_sent in *.

Ltac world_eq :=
  unfold_setters; cbn; repeat f_equal; try lia; try reflexivity.

(** *** The fact registry *)

Lemma register_fact_world (e : Env) (name : string) (v guid : Z) (w : World) :
  register_fact e name v guid w
  = set_fact_cache
      (cache_after_register e (clock_reads w) name v guid (m_fact_cache w))
      (set_clock_reads (S (clock_reads w)) w).
Proof. reflexivity. Qed.

Lemma fold_register_world (e : Env) (q : list quest_fact) (w : World) :
  foldl (apply_pending e) w q
  = set_fact_cache
      (cache_after_flush e (clock_reads w) (m_fact_cache w) q)
      (set_clock_reads (clock_reads w + length q) w).
Proof.
  revert w. induction q as [|f q IH]; intros w; cbn [foldl].
  - destruct w. world_eq.
  - rewrite IH. unfold apply_pending. rewrite register_fact_world.
    destruct w. world_eq.
Qed.

Lemma flush_world (e : Env) (w : World) :
  flush_pending_facts e w
  = set_pending []
      (set_fact_cache
         (cache_after_flush e (clock_reads w) (m_fact_cache w)
            (g_W3mPendingFacts w))
         (set_clock_reads (clock_reads w + length (g_W3mPendingFacts w)) w)).
Proof.
  unfold flush_pending_facts.
  destruct (g_W3mPendingFacts w) as [|f q] eqn:Hq.
  - destruct w; cbn in *. subst. world_eq.
  - rewrite fold_register_world. reflexivity.
Qed.

Lemma size_insert_le (c : gmap Z quest_fact) (h : Z) (f : quest_fact) :
  (size (<[h := f]> c) <= S (size c))%nat.
Proof.
  rewrite map_size_insert. destruct (c !! h); cbn; lia.
Qed.




(** The last entry of the queue is the one [get_fact] then answers with. *)
Lemma applied_in_order_last (e : Env) (q : list quest_fact) (f : quest_fact)
  (k : nat) (c : gmap Z quest_fact) :
  applied_in_order e k c (q ++ [f]) !! compute_fact_hash e (fact_name f)
  = Some (mk_quest_fact (fact_name f) (value f)
            (wrap64 (hrc_now e (k + length q))) (player_guid f)
            (compute_fact_hash e (fact_name f))).
Proof.
  revert k c. induction q as [|g q IH]; intros k c.
  - cbn. rewrite lookup_insert_eq, Nat.add_0_r. reflexivity.
  - cbn [app applied_in_order length]. rewrite IH.
    do 3 f_equal. f_equal. lia.
Qed.

(** *** Queueing during a sync *)





(** *** The story lock *)

(** C7.  On a lock that is held, [acquire_lock] with any owner and scene
    returns the world as it was: owner, scene, timestamp and flag stay.
    On a lock that is not held it sets the flag and records the given
    owner, the given scene and the clock reading it takes.  So a second
    acquire after a first changes nothing. *)
Theorem acquire_lock_first_wins (e : Env) (guid scene : Z) (w : World) :
  (is_locked w = true -> acquire_lock e guid scene w = w) /\
  (is_locked w = false ->
   is_locked (acquire_lock e guid scene w) = true /\
   get_initiator_guid (acquire_lock e guid scene w) = guid /\
   get_scene_id (acquire_lock e guid scene w) = scene /\
   get_lock_timestamp (acquire_lock e guid scene w)
   = wrap64 (hrc_now e (clock_reads w)) /\
   (0 <= hrc_now e (clock_reads w) < 2 ^ 64 ->
    get_lock_timestamp (acquire_lock e guid scene w)
    = hrc_now e (clock_reads w))) /\
  (forall guid2 scene2,
     acquire_lock e guid2 scene2 (acquire_lock e guid scene w)
     = acquire_lock e guid scene w).
Proof.
  split; [|split].
  - intros H. unfold acquire_lock. rewrite H. reflexivity.
  - intros H. unfold acquire_lock. rewrite H. cbn.
    repeat split. intros Hr. unfold wrap64. apply Z.mod_small. exact Hr.
  - intros guid2 scene2. unfold acquire_lock at 1.
    assert (Hl : is_locked (acquire_lock e guid scene w) = true).
    { unfold acquire_lock. destruct (is_locked w) eqn:E; [exact E|].
      reflexivity. }
    rewrite Hl. reflexivity.
Qed.

Lemma acquire_lock_first_wins_witness :
  let w1 := acquire_lock msvc 5 9 initial_world in
  is_locked initial_world = false /\
  g_story_lock w1 = mk_lock true 5 9 0 /\
  is_locked w1 = true /\
  acquire_lock msvc 6 10 w1 = w1.
Proof.
  intros w1.
  destruct (acquire_lock_first_wins msvc 5 9 initial_world)
    as (_ & Hidle & _).
  destruct (Hidle eq_refl) as (Hl & _).
  destruct (acquire_lock_first_wins msvc 6 10 w1) as (Hheld & _).
  split; [reflexivity|]. split; [reflexivity|].
  split; [exact Hl | exact (Hheld Hl)].
Defined.

(** *** The handshake gate *)

Lemma master_is_master :
  String.eqb get_master_server get_master_server = true.
Proof. reflexivity. Qed.

(** With the handshake incomplete the gate hands the world back as it got
    it and calls no handler, whatever the handler is. *)
Lemma gate_blocks {P : Type} (e : Env) (address : string) (data : datagram P)
  (handler : string -> datagram P -> World -> handler_result) (w : World) :
  g_handshake_complete w = false ->
  receive_packet_safe e address data handler true w
  = (w, if String.eqb address get_master_server
        then BlockedHandshake else IgnoredAddress).
Proof.
  intros H. unfold receive_packet_safe, is_handshake_complete.
  destruct (String.eqb address get_master_server); cbn; [|reflexivity].
  rewrite H. reflexivity.
Qed.

(** The listeners count every message they are handed before they enter
    the gate: a loot message that arrives before any handshake is blocked,
    and [packets_received] has gone from 0 to 1. *)
Lemma listeners_count_before_the_gate :
  let d := mk_datagram (Some 1) (Some (mk_loot_packet "Crowns" 10 42 0)) in
  let w' := fst (deliver msvc get_master_server (InLoot d) initial_world) in
  snd (deliver msvc get_master_server (InLoot d) initial_world)
  = BlockedHandshake /\
  packets_received (g_telemetry initial_world) = 0 /\
  packets_received (g_telemetry w') = 1.
Proof. cbv zeta. repeat split. Qed.

Lemma telemetry_put_back (w : World) :
  set_telemetry (g_telemetry w) (increment_received w) = w.
Proof. destruct w. reflexivity. Qed.

(** C2.  While the handshake is incomplete, [receive_packet_safe] called
    with [require_handshake] hands the world back exactly as it got it
    and does not call the handler, whatever the record type, sender,
    bytes and handler; every listener but the handshake one calls it so,
    hence a message of any other kind is not dispatched, leaves the
    handshake incomplete and leaves the world as it was but for the
    listener's own count of received packets, kept in telemetry outside
    the gate.  The handshake handler, given a record with a non-zero
    session identifier, completes the handshake; given one with a zero
    identifier it returns normally, with no exception, and changes
    nothing.  The handshake listener reaches that handler while the
    handshake is incomplete. *)
Theorem handshake_gate (e : Env) (w : World) :
  g_handshake_complete w = false ->
  (forall (P : Type) (address : string) (data : datagram P)
     (handler : string -> datagram P -> World -> handler_result),
     fst (receive_packet_safe e address data handler true w) = w /\
     snd (receive_packet_safe e address data handler true w)
     <> Dispatched) /\
  (forall address m,
     is_handshake_kind m = false ->
     snd (deliver e address m w) <> Dispatched /\
     g_handshake_complete (fst (deliver e address m w)) = false /\
     set_telemetry (g_telemetry w) (fst (deliver e address m w)) = w) /\
  (forall address data packet,
     read_packet data = Some packet ->
     (hs_session_id packet <> 0 ->
      handshake_handler address data w
      = Returned (set_handshake_complete (hs_session_id packet)
                    (hs_player_name packet) w) /\
      g_handshake_complete
        (set_handshake_complete (hs_session_id packet)
           (hs_player_name packet) w) = true) /\
     (hs_session_id packet = 0 ->
      handshake_handler address data w = Returned w)) /\
  (forall packet,
     let d := mk_datagram (Some (PROTOCOL e)) (Some packet) in
     let r := receive_handshake_safe e get_master_server d w in
     snd r = Dispatched /\
     g_handshake_complete (fst r) = negb (hs_session_id packet =? 0)).
Proof.
  intros Hw.
  assert (Hw' : g_handshake_complete (increment_received w) = false)
    by exact Hw.
  split; [|split; [|split]].
  - intros P address data handler.
    rewrite (gate_blocks e address data handler w Hw). cbn [fst snd].
    split; [reflexivity|].
    destruct (String.eqb address get_master_server); discriminate.
  - intros address m Hm.
    assert (Hd : deliver e address m w
                 = (increment_received w,
                    if String.eqb address get_master_server
                    then BlockedHandshake else IgnoredAddress)).
    { destruct m as [d|d|d|d|d]; try discriminate Hm; cbn [deliver];
        unfold receive_inventory_safe, receive_session_state_safe,
          receive_achievement_safe, receive_heartbeat_safe;
        apply gate_blocks; exact Hw'. }
    rewrite Hd. cbn [fst snd].
    split; [destruct (String.eqb address get_master_server); discriminate|].
    split; [exact Hw' | apply telemetry_put_back].
  - intros address data packet Hread. unfold handshake_handler.
    rewrite Hread. split; intros Hs.
    + destruct (Z.eqb_spec (hs_session_id packet) 0) as [E|_];
        [contradiction|].
      cbn [negb]. split; reflexivity.
    + rewrite Hs. reflexivity.
  - intros packet. cbv zeta.
    unfold receive_handshake_safe, receive_packet_safe.
    rewrite master_is_master. cbn [negb andb dg_protocol].
    rewrite Z.eqb_refl. cbn [negb].
    unfold handshake_handler, read_packet. cbn [dg_protocol dg_packet].
    destruct (hs_session_id packet =? 0); cbn [negb fst snd];
      split; try reflexivity. exact Hw'.
Qed.

Lemma handshake_gate_witness :
  let loot := mk_datagram (Some 1) (Some (mk_loot_packet "Crowns" 10 42 0)) in
  let hello := mk_datagram (Some 1)
                 (Some (mk_handshake_packet 4242 7 1 "Geralt" 0)) in
  let null := mk_datagram (Some 1)
                (Some (mk_handshake_packet 0 7 1 "Geralt" 0)) in
  fst (receive_packet_safe msvc get_master_server loot inventory_handler true
         initial_world) = initial_world /\
  snd (deliver msvc get_master_server (InLoot loot) initial_world)
  <> Dispatched /\
  g_handshake_complete
    (fst (receive_handshake_safe msvc get_master_server hello initial_world))
  = true /\
  handshake_handler get_master_server null initial_world
  = Returned initial_world.
Proof.
  intros loot hello null.
  destruct (handshake_gate msvc initial_world eq_refl)
    as (Hgate & Hkinds & Hhandler & Hlistener).
  split; [exact (proj1 (Hgate _ get_master_server loot inventory_handler))|].
  split; [exact (proj1 (Hkinds get_master_server (InLoot loot) eq_refl))|].
  split.
  - exact (proj2 (Hlistener (mk_handshake_packet 4242 7 1 "Geralt" 0))).
  - exact (proj2 (Hhandler get_master_server null
                    (mk_handshake_packet 0 7 1 "Geralt" 0) eq_refl)
             eq_refl).
Defined.

(** *** Release and fail-safe *)

Lemma session_state_listener_world (e : Env)
  (d : datagram quest_lock_packet) (w : World) :
  fst (receive_session_state_safe e get_master_server d w)
  = increment_received w.
Proof.
  unfold receive_session_state_safe, receive_packet_safe.
  rewrite master_is_master. cbn [negb].
  destruct (is_handshake_complete (increment_received w)); cbn [andb negb];
    [|reflexivity].
  destruct d as [[tag|] [packet|]]; cbn; try reflexivity;
    destruct (tag =? PROTOCOL e); reflexivity.
Qed.

(** What a release leaves: the lock free, the sync flag down, the queue
    flushed into the cache and empty, and, unless looped back, one packet
    sent on the channel that tells a forced release from a cooperative
    one. *)
Lemma release_effects (e : Env) (forced : bool) (w : World) :
  let w' := release_global_story_lock e forced w in
  let k := (clock_reads w + length (g_W3mPendingFacts w))%nat in
  is_locked w' = false /\
  g_W3mGlobalSyncInProgress w' = false /\
  g_W3mPendingFacts w' = [] /\
  m_fact_cache w'
  = cache_after_flush e (clock_reads w) (m_fact_cache w)
      (g_W3mPendingFacts w) /\
  net_sent w'
  = (if g_loopback_enabled w then net_sent w
     else net_sent w ++ [release_message e forced w k]).
Proof.
  cbv zeta. unfold release_global_story_lock.
  rewrite flush_world. unfold now. cbn [fst snd].
  assert (Hl : g_loopback_enabled (release_lock w) = g_loopback_enabled w)
    by (unfold release_lock; destruct (is_locked w); reflexivity).
  assert (Hr : is_locked (release_lock w) = false)
    by (unfold release_lock; destruct (is_locked w) eqn:E;
        [reflexivity | exact E]).
  assert (Hc : m_fact_cache (release_lock w) = m_fact_cache w)
    by (unfold release_lock; destruct (is_locked w); reflexivity).
  assert (Hq : g_W3mPendingFacts (release_lock w) = g_W3mPendingFacts w)
    by (unfold release_lock; destruct (is_locked w); reflexivity).
  assert (Hk : clock_reads (release_lock w) = clock_reads w)
    by (unfold release_lock; destruct (is_locked w); reflexivity).
  assert (Hn : net_sent (release_lock w) = net_sent w)
    by (unfold release_lock; destruct (is_locked w); reflexivity).
  cbn [g_loopback_enabled increment_sent set_telemetry set_clock_reads
         set_pending set_fact_cache set_sync].
  rewrite Hl.
  destruct (g_loopback_enabled w).
  - rewrite session_state_listener_world.
    cbn. rewrite Hc, Hq, Hk, Hn. repeat split. exact Hr.
  - unfold network_send, release_message.
    cbn. rewrite Hc, Hq, Hk, Hn. repeat split. exact Hr.
Qed.

Lemma check_when_locked (e : Env) (w : World) :
  is_locked w = true ->
  check_story_lock_timeout e w
  = if STORY_LOCK_TIMEOUT_MS
       <? elapsed_ms (hrc_now e (clock_reads w)) (get_lock_timestamp w)
    then release_global_story_lock e true
           (set_clock_reads (S (clock_reads w)) w)
    else set_clock_reads (S (clock_reads w)) w.
Proof.
  intros H. unfold check_story_lock_timeout. rewrite H. reflexivity.
Qed.

Lemma check_when_free (e : Env) (w : World) :
  is_locked w = false -> check_story_lock_timeout e w = w.
Proof.
  intros H. unfold check_story_lock_timeout. rewrite H. reflexivity.
Qed.

Lemma heartbeats_succ (e : Env) (n : nat) (w : World) :
  heartbeats e (S n) w = check_story_lock_timeout e (heartbeats e n w).
Proof. reflexivity. Qed.

(** As long as the lock is held after [n] heartbeats, each of them took
    one reading and saw no more than the timeout. *)
Lemma heartbeats_while_held (e : Env) (n : nat) (w : World) :
  is_locked (heartbeats e n w) = true ->
  heartbeats e n w = set_clock_reads (clock_reads w + n) w /\
  forall k, (k < n)%nat ->
    elapsed_ms (hrc_now e (clock_reads w + k)) (get_lock_timestamp w)
    <= STORY_LOCK_TIMEOUT_MS.
Proof.
  induction n as [|n IH]; intros Hheld.
  - split; [destruct w; world_eq | intros k Hk; lia].
  - rewrite heartbeats_succ in Hheld |- *.
    destruct (is_locked (heartbeats e n w)) eqn:Hn.
    + destruct (IH eq_refl) as [Hw Hk].
      set (wn := heartbeats e n w) in *.
      assert (Hr : clock_reads wn = (clock_reads w + n)%nat)
        by (rewrite Hw; reflexivity).
      assert (Ht : get_lock_timestamp wn = get_lock_timestamp w)
        by (rewrite Hw; reflexivity).
      rewrite (check_when_locked e wn Hn) in Hheld |- *.
      rewrite Hr, Ht in Hheld |- *.
      destruct (Z.ltb_spec STORY_LOCK_TIMEOUT_MS
                  (elapsed_ms (hrc_now e (clock_reads w + n))
                     (get_lock_timestamp w))) as [Hover|Hfresh].
      * destruct (release_effects e true
                    (set_clock_reads (S (clock_reads w + n)) wn))
          as (Hfree & _).
        rewrite Hfree in Hheld. discriminate.
      * split; [rewrite Hw; destruct w; world_eq|].
        intros k Hlt. destruct (Nat.eq_dec k n) as [->|Hne];
          [exact Hfresh | apply Hk; lia].
    + rewrite check_when_free in Hheld by exact Hn. congruence.
Qed.

Lemma elapsed_ms_plain (t ts : Z) :
  0 <= ts <= t -> t < 2 ^ 64 -> elapsed_ms t ts = (t - ts) / 1000000.
Proof.
  intros H1 H2. unfold elapsed_ms, wrap64. rewrite Z.mod_small; [reflexivity|].
  lia.
Qed.

Lemma channels_differ : FORCED_CHANNEL <> QUEST_LOCK_CHANNEL.
Proof. discriminate. Qed.

Lemma check_after_held (e : Env) (n : nat) (w : World) :
  is_locked (heartbeats e n w) = true ->
  heartbeats e (S n) w
  = if STORY_LOCK_TIMEOUT_MS
       <? elapsed_ms (hrc_now e (clock_reads w + n)) (get_lock_timestamp w)
    then release_global_story_lock e true
           (set_clock_reads (S (clock_reads w + n)) (heartbeats e n w))
    else set_clock_reads (S (clock_reads w + n)) (heartbeats e n w).
Proof.
  intros Hn. destruct (heartbeats_while_held e n w Hn) as [Hw _].
  rewrite heartbeats_succ, (check_when_locked e _ Hn).
  rewrite Hw. reflexivity.
Qed.

(** C3, as stated, fails.  In loopback mode a lock taken at 0 s is
    checked at 20 s.  The lock is force-released and the queue flushed,
    but nothing is broadcast, and nothing tells this release from a
    cooperative one: both leave the same world. *)
Lemma looped_back_release_has_no_marker :
  let e := five_seconds in
  let w := overdue_scene_looped_back in
  let w' := check_story_lock_timeout e w in
  is_locked w = true /\
  STORY_LOCK_TIMEOUT_MS
  < elapsed_ms (hrc_now e (clock_reads w)) (get_lock_timestamp w) /\
  is_locked w' = false /\
  g_W3mPendingFacts w' = [] /\
  net_sent w' = [] /\
  release_global_story_lock e true w = release_global_story_lock e false w.
Proof. vm_compute. repeat split. Qed.

(** C3, amended.  A check made while the lock is held, whose reading is
    more than 15000 ms past the lock timestamp in the check's own measure
    (whole milliseconds), releases the lock as forced: the lock is free,
    the sync flag is down, and the pending queue has been flushed into the
    cache and is empty.  Unless loopback mode is on, one packet is sent,
    on the forced-release channel, where a cooperative release uses the
    quest-lock channel; in loopback mode nothing is sent.  With a check
    every 5000 ms at most and nothing else releasing the lock, it is
    still held at the start of a check only if no more than 15000 + 5000
    ms have passed, and it is free after the first check that sees more
    than 15000 ms. *)
Theorem failsafe_releases_stalled_lock (e : Env) (w : World) :
  is_locked w = true ->
  let ts := get_lock_timestamp w in
  let r := clock_reads w in
  (STORY_LOCK_TIMEOUT_MS < elapsed_ms (hrc_now e r) ts ->
   let w' := check_story_lock_timeout e w in
   is_locked w' = false /\
   g_W3mGlobalSyncInProgress w' = false /\
   g_W3mPendingFacts w' = [] /\
   m_fact_cache w'
   = m_fact_cache (flush_pending_facts e (set_clock_reads (S r) w)) /\
   net_sent w'
   = (if g_loopback_enabled w then net_sent w
      else net_sent w
           ++ [release_message e true w
                 (S r + length (g_W3mPendingFacts w))])) /\
  net_sent (release_global_story_lock e false w)
  = (if g_loopback_enabled w then net_sent w
     else net_sent w
          ++ [release_message e false w (r + length (g_W3mPendingFacts w))])
  /\
  (forall k k',
     sm_channel (release_message e true w k)
     <> sm_channel (release_message e false w k')) /\
  (forall n,
     0 <= ts ->
     (forall k, (k <= n)%nat -> ts <= hrc_now e (r + k) < 2 ^ 64) ->
     hrc_now e r - ts <= HEARTBEAT_INTERVAL_MS * 1000000 ->
     (forall k, (k < n)%nat ->
        hrc_now e (r + S k) - hrc_now e (r + k)
        <= HEARTBEAT_INTERVAL_MS * 1000000) ->
     (is_locked (heartbeats e n w) = true ->
      elapsed_ms (hrc_now e (r + n)) ts
      <= STORY_LOCK_TIMEOUT_MS + HEARTBEAT_INTERVAL_MS) /\
     (STORY_LOCK_TIMEOUT_MS < elapsed_ms (hrc_now e (r + n)) ts ->
      is_locked (heartbeats e (S n) w) = false)).
Proof.
  intros Hheld ts r.
  split; [|split; [|split]].
  - intros Hover. cbv zeta. rewrite (check_when_locked e w Hheld).
    fold ts r.
    destruct (Z.ltb_spec STORY_LOCK_TIMEOUT_MS (elapsed_ms (hrc_now e r) ts))
      as [_|Hle]; [|lia].
    destruct (release_effects e true (set_clock_reads (S r) w))
      as (H1 & H2 & H3 & H4 & H5).
    split; [exact H1|]. split; [exact H2|]. split; [exact H3|].
    split; [rewrite H4, flush_world; reflexivity | exact H5].
  - destruct (release_effects e false w) as (_ & _ & _ & _ & H5). exact H5.
  - intros k k'. exact channels_differ.
  - intros n Hts Hrange Hfirst Hstep.
    assert (Hplain : forall k, (k <= n)%nat ->
              elapsed_ms (hrc_now e (r + k)) ts
              = (hrc_now e (r + k) - ts) / 1000000).
    { intros k Hk. destruct (Hrange k Hk).
      apply elapsed_ms_plain; [lia | assumption]. }
    split.
    + intros Hn. destruct (heartbeats_while_held e n w Hn) as [_ Hfresh].
      fold ts r in Hfresh.
      unfold STORY_LOCK_TIMEOUT_MS, HEARTBEAT_INTERVAL_MS in *.
      destruct n as [|m].
      * rewrite (Hplain 0%nat) by lia.
        rewrite Nat.add_0_r in *.
        Z.to_euclidean_division_equations. lia.
      * pose proof (Hfresh m ltac:(lia)) as Hm.
        rewrite (Hplain m) in Hm by lia.
        rewrite (Hplain (S m)) by lia.
        pose proof (Hstep m ltac:(lia)) as Hs.
        Z.to_euclidean_division_equations. lia.
    + intros Hover.
      destruct (is_locked (heartbeats e n w)) eqn:Hn.
      * rewrite (check_after_held e n w Hn). fold ts r.
        destruct (Z.ltb_spec STORY_LOCK_TIMEOUT_MS
                    (elapsed_ms (hrc_now e (r + n)) ts)) as [_|Hle]; [|lia].
        destruct (release_effects e true
                    (set_clock_reads (S (r + n)) (heartbeats e n w)))
          as (H1 & _).
        exact H1.
      * rewrite heartbeats_succ, check_when_free by exact Hn. exact Hn.
Qed.

Ltac below_four k tac :=
  do 4 (destruct k as [|k]; [tac|]); lia.

Lemma failsafe_releases_stalled_lock_witness :
  let e := five_seconds in
  let w := overdue_scene in
  let w' := check_story_lock_timeout e w in
  is_locked w = true /\
  has_fact e "q_done" w = false /\
  is_locked w' = false /\
  g_W3mGlobalSyncInProgress w' = false /\
  g_W3mPendingFacts w' = [] /\
  has_fact e "q_done" w' = true /\
  (sm_channel <$> net_sent w') = [FORCED_CHANNEL] /\
  (sm_channel <$> net_sent (release_global_story_lock e false w))
  = [QUEST_LOCK_CHANNEL] /\
  is_locked (heartbeats e 3 (lock_window e)) = true /\
  elapsed_ms (hrc_now e 4) 0 <= 20000 /\
  is_locked (heartbeats e 4 (lock_window e)) = false.
Proof.
  intros e w w'.
  assert (Hheld : is_locked w = true) by (vm_compute; reflexivity).
  destruct (failsafe_releases_stalled_lock e w Hheld)
    as (Hforced & Hcoop & _ & _).
  destruct Hforced as (H1 & H2 & H3 & H4 & H5); [vm_compute; reflexivity|].
  assert (Hheld0 : is_locked (lock_window e) = true)
    by (vm_compute; reflexivity).
  destruct (failsafe_releases_stalled_lock e (lock_window e) Hheld0)
    as (_ & _ & _ & Hbound).
  destruct (Hbound 3%nat) as [Hstill Hfree].
  { vm_compute; discriminate. }
  { intros k Hk.
    below_four k ltac:(vm_compute; split; [discriminate | reflexivity]). }
  { vm_compute; discriminate. }
  { intros k Hk. below_four k ltac:(vm_compute; discriminate). }
  split; [exact Hheld|].
  split; [vm_compute; reflexivity|].
  split; [exact H1|]. split; [exact H2|]. split; [exact H3|].
  split.
  { unfold has_fact, get_fact, w'. rewrite H4.
    vm_compute; reflexivity. }
  split; [unfold w'; rewrite H5; vm_compute; reflexivity|].
  split; [rewrite Hcoop; vm_compute; reflexivity|].
  split; [vm_compute; reflexivity|].
  split.
  { apply Hstill. vm_compute; reflexivity. }
  apply Hfree. vm_compute; reflexivity.
Defined.

End CppProperties.

(** ** More of the native side *)

Section CppMoreProperties.
Import Protocol Cpp CppMore.


(** *** The world-state fingerprint *)

Ltac xor_solve :=
  apply Z.bits_inj'; intros ? ?; rewrite ?Z.lxor_spec, ?Z.bits_0;
  repeat match goal with
         | |- context [Z.testbit ?x ?n] => destruct (Z.testbit x n)
         end; reflexivity.

Lemma hash_loop_from (acc : Z) (l : list (Z * quest_fact)) :
  foldl (fun c hf => Z.lxor (Z.lxor c hf.1) (wrap32 (value hf.2))) acc l
  = Z.lxor acc (world_state_hash_of l).
Proof.
  unfold world_state_hash_of. revert acc.
  induction l as [|a l IH]; intros acc; cbn [foldl].
  - xor_solve.
  - rewrite IH, (IH (Z.lxor (Z.lxor 0 a.1) (wrap32 (value a.2)))).
    xor_solve.
Qed.

Lemma hash_cons (a : Z * quest_fact) (l : list (Z * quest_fact)) :
  world_state_hash_of (a :: l)
  = Z.lxor (Z.lxor a.1 (wrap32 (value a.2))) (world_state_hash_of l).
Proof.
  unfold world_state_hash_of at 1. cbn [foldl].
  rewrite hash_loop_from. xor_solve.
Qed.

Lemma hash_permutation (l1 l2 : list (Z * quest_fact)) :
  l1 ≡ₚ l2 -> world_state_hash_of l1 = world_state_hash_of l2.
Proof.
  induction 1 as [|a l1 l2 _ IH|a b l|l1 l2 l3 _ IH1 _ IH2].
  - reflexivity.
  - rewrite !hash_cons, IH. reflexivity.
  - rewrite !hash_cons. xor_solve.
  - congruence.
Qed.

Lemma cache_hash_insert_fresh (c : gmap Z quest_fact) (h : Z) (f : quest_fact) :
  c !! h = None ->
  cache_hash (<[h := f]> c)
  = Z.lxor (Z.lxor h (wrap32 (value f))) (cache_hash c).
Proof.
  intros Hn. unfold cache_hash.
  rewrite (hash_permutation _ _ (map_to_list_insert c h f Hn)).
  apply hash_cons.
Qed.

(** X1.  The world-state fingerprint is an exclusive-or fold: it is 0
    for an empty cache, it does not depend on the order in which the
    entries are visited, a fact stored under a fresh hash changes it by
    that hash combined with the 32-bit value, and overwriting a fact
    changes it by the old and the new value only. *)
Theorem world_state_hash_is_an_xor_fold (c : gmap Z quest_fact) (h : Z)
  (f : quest_fact) (entries : list (Z * quest_fact)) :
  cache_hash ∅ = 0 /\
  (entries ≡ₚ map_to_list c -> world_state_hash_of entries = cache_hash c) /\
  (c !! h = None ->
   cache_hash (<[h := f]> c)
   = Z.lxor (cache_hash c) (Z.lxor h (wrap32 (value f)))) /\
  (forall f0, c !! h = Some f0 ->
   cache_hash (<[h := f]> c)
   = Z.lxor (cache_hash c)
       (Z.lxor (wrap32 (value f0)) (wrap32 (value f)))).
Proof.
  split; [reflexivity|].
  split; [intros Hp; apply hash_permutation; exact Hp|].
  split.
  - intros Hn. rewrite cache_hash_insert_fresh by exact Hn. xor_solve.
  - intros f0 Hs.
    rewrite <- (insert_delete_eq c h f).
    rewrite <- (insert_delete_id c h f0 Hs) at 2.
    rewrite !cache_hash_insert_fresh by apply lookup_delete_eq.
    xor_solve.
Qed.


Lemma world_state_hash_is_an_xor_fold_witness :
  cache_hash (<[5 := mk_quest_fact "a" 3 0 77 5]> ∅)
  = Z.lxor (cache_hash ∅) (Z.lxor 5 (wrap32 3)).
Proof.
  destruct (world_state_hash_is_an_xor_fold ∅ 5
              (mk_quest_fact "a" 3 0 77 5) []) as (_ & _ & Hfresh & _).
  apply Hfresh. reflexivity.
Defined.

(** *** Register and look up *)

(** X2.  Below the size limit, a registered fact is what [get_fact] and
    [W3mGetFactValue] return for its name, stamped with the reading taken;
    names with another hash read as before, and a name with the same hash
    reads the new fact: the cache is keyed by the 32-bit hash alone. *)
Theorem register_then_get (e : Env) (name : string) (v guid : Z) (w : World) :
  Z.of_nat (size (m_fact_cache w)) < FACT_CACHE_SIZE_LIMIT ->
  let w' := register_fact e name v guid w in
  let stored :=
    mk_quest_fact name v (wrap64 (hrc_now e (clock_reads w))) guid
      (compute_fact_hash e name) in
  get_fact e name w' = Some stored /\
  W3mGetFactValue e name w' = v /\
  (forall other,
     compute_fact_hash e other <> compute_fact_hash e name ->
     get_fact e other w' = get_fact e other w) /\
  (forall other,
     compute_fact_hash e other = compute_fact_hash e name ->
     get_fact e other w' = Some stored).
Proof.
  intros Hsize w' stored.
  assert (Hc : m_fact_cache w'
               = <[compute_fact_hash e name := stored]> (m_fact_cache w)).
  { unfold w'. rewrite register_fact_world.
    cbn [m_fact_cache set_fact_cache]. unfold cache_after_register.
    fold stored.
    pose proof (size_insert_le (m_fact_cache w) (compute_fact_hash e name)
                  stored) as Hle.
    destruct (Z.ltb_spec FACT_CACHE_SIZE_LIMIT
                (Z.of_nat (size (<[compute_fact_hash e name:=stored]>
                                   (m_fact_cache w))))); [lia|reflexivity]. }
  assert (Hg : get_fact e name w' = Some stored).
  { unfold get_fact. rewrite Hc. apply lookup_insert_eq. }
  split; [exact Hg|].
  split; [unfold W3mGetFactValue; rewrite Hg; reflexivity|].
  split.
  - intros other Hne. unfold get_fact. rewrite Hc.
    apply lookup_insert_ne. congruence.
  - intros other Heq. unfold get_fact in *. rewrite Heq. exact Hg.
Qed.

Lemma register_then_get_witness :
  W3mGetFactValue msvc "q_done" (register_fact msvc "q_done" 1 77 initial_world)
  = 1.
Proof.
  apply (register_then_get msvc "q_done" 1 77 initial_world).
  reflexivity.
Defined.

(** *** Pruning *)

Lemma delete_all_size (keys : list Z) (c : gmap Z quest_fact) :
  NoDup keys -> (forall k, k ∈ keys -> is_Some (c !! k)) ->
  size (foldl (fun c k => delete k c) c keys) = (size c - length keys)%nat.
Proof.
  revert c. induction keys as [|k keys IH]; intros c Hnd Hin; cbn [foldl length].
  - lia.
  - apply NoDup_cons in Hnd as [Hk Hnd].
    rewrite IH.
    + rewrite map_size_delete.
      destruct (Hin k) as [x Hx]; [left|]. rewrite Hx. cbn.
      assert (size c <> 0%nat)
        by (intros H0; apply map_size_empty_inv in H0; subst c;
            rewrite lookup_empty in Hx; discriminate).
      lia.
    + exact Hnd.
    + intros k' Hk'. rewrite lookup_delete_ne by (intros ->; contradiction).
      apply Hin. right. exact Hk'.
Qed.

Lemma foldl_delete_ages (ages : list (Z * Z)) (c : gmap Z quest_fact) :
  foldl (fun c age => delete age.1 c) c ages
  = foldl (fun c k => delete k c) c (ages.*1).
Proof.
  revert c. induction ages as [|a ages IH]; intros c; [reflexivity|].
  cbn. apply IH.
Qed.

Lemma ages_keys (c : gmap Z quest_fact) : (ages_of c).*1 = (map_to_list c).*1.
Proof.
  unfold ages_of. rewrite <- list_fmap_compose. reflexivity.
Qed.

Lemma prune_size (e : Env) (c : gmap Z quest_fact) :
  (forall l, std_sort e l ≡ₚ l) ->
  (768 < size c)%nat ->
  size (prune_oldest_facts e c) = 768%nat.
Proof.
  intros Hperm Hbig. unfold prune_oldest_facts.
  destruct (Z.leb_spec (Z.of_nat (size c) * 4) (FACT_CACHE_SIZE_LIMIT * 3))
    as [Hle|_]; [unfold FACT_CACHE_SIZE_LIMIT in Hle; lia|].
  change (Z.to_nat (FACT_CACHE_SIZE_LIMIT * 3 / 4)) with 768%nat.
  fold (ages_of c).
  set (ages := std_sort e (ages_of c)).
  assert (Hk : ages.*1 ≡ₚ (map_to_list c).*1).
  { unfold ages. rewrite (Hperm (ages_of c)), ages_keys. reflexivity. }
  assert (Hlen : length ages = size c).
  { rewrite <- (length_fmap fst ages), Hk, length_fmap.
    apply length_map_to_list. }
  rewrite foldl_delete_ages, delete_all_size.
  - rewrite length_fmap, length_take. lia.
  - rewrite fmap_take. apply (sublist_NoDup _ (ages.*1)).
    + rewrite Hk. apply NoDup_fst_map_to_list.
    + apply sublist_take.
  - intros k Hin. rewrite fmap_take in Hin.
    apply elem_of_take in Hin as (i & Hi & _).
    apply list_elem_of_lookup_2 in Hi. rewrite Hk in Hi.
    apply list_elem_of_fmap in Hi as ([k' f] & -> & Hf).
    apply elem_of_map_to_list in Hf. eauto.
Qed.

(** X3.  When [std::sort] returns a permutation of its input,
    [register_fact] keeps the cache within [FACT_CACHE_SIZE_LIMIT]; a new
    fact registered on a cache of exactly 1024 entries leaves 768. *)
Theorem register_keeps_cache_bounded (e : Env) (name : string) (v guid : Z)
  (w : World) :
  (forall l, std_sort e l ≡ₚ l) ->
  Z.of_nat (size (m_fact_cache w)) <= FACT_CACHE_SIZE_LIMIT ->
  let w' := register_fact e name v guid w in
  Z.of_nat (size (m_fact_cache w')) <= FACT_CACHE_SIZE_LIMIT /\
  (size (m_fact_cache w) = 1024%nat ->
   get_fact e name w = None ->
   size (m_fact_cache w') = 768%nat).
Proof.
  intros Hperm Hsize w'. unfold w'. rewrite register_fact_world.
  cbn [m_fact_cache set_fact_cache]. unfold cache_after_register.
  set (h := compute_fact_hash e name).
  set (stored := mk_quest_fact _ _ _ _ _).
  pose proof (size_insert_le (m_fact_cache w) h stored) as Hle.
  unfold FACT_CACHE_SIZE_LIMIT in *.
  split.
  - destruct (Z.ltb_spec 1024 (Z.of_nat (size (<[h:=stored]> (m_fact_cache w)))))
      as [Hover|Hok]; [|lia].
    rewrite prune_size; [lia | exact Hperm | lia].
  - intros Hfull Hnew. unfold get_fact in Hnew. fold h in Hnew.
    pose proof (map_size_insert_None h stored (m_fact_cache w) Hnew) as Hs.
    rewrite Hs, Hfull.
    destruct (Z.ltb_spec 1024 (Z.of_nat 1025)) as [_|?]; [|lia].
    rewrite prune_size; [reflexivity | exact Hperm | lia].
Qed.

Lemma insert_by_age_perm (p : Z * Z) (l : list (Z * Z)) :
  insert_by_age p l ≡ₚ p :: l.
Proof.
  induction l as [|q l IH]; cbn; [reflexivity|].
  destruct (p.2 <? q.2); [reflexivity|].
  rewrite IH. apply Permutation_swap.
Qed.

Lemma sort_by_age_perm (l : list (Z * Z)) : sort_by_age l ≡ₚ l.
Proof.
  unfold sort_by_age. induction l as [|p l IH]; cbn; [reflexivity|].
  rewrite insert_by_age_perm, IH. reflexivity.
Qed.

Lemma register_keeps_cache_bounded_witness :
  Z.of_nat (size (m_fact_cache (register_fact msvc "a" 1 77 initial_world)))
  <= FACT_CACHE_SIZE_LIMIT.
Proof.
  apply (register_keeps_cache_bounded msvc "a" 1 77 initial_world).
  - exact sort_by_age_perm.
  - vm_compute. discriminate.
Defined.

Lemma delete_all_other (keys : list Z) (c : gmap Z quest_fact) (k : Z) :
  k ∉ keys -> foldl (fun c k => delete k c) c keys !! k = c !! k.
Proof.
  revert c. induction keys as [|k' keys IH]; intros c Hk; [reflexivity|].
  cbn [foldl]. apply not_elem_of_cons in Hk as [Hne Hk].
  rewrite IH by exact Hk. apply lookup_delete_ne. congruence.
Qed.

Lemma ages_entry (c : gmap Z quest_fact) (a : Z * Z) :
  a ∈ ages_of c -> exists f, c !! a.1 = Some f /\ a.2 = timestamp f.
Proof.
  unfold ages_of. intros Hin.
  apply list_elem_of_fmap in Hin as ([h f] & -> & Hf).
  apply elem_of_map_to_list in Hf. exists f. split; [exact Hf|reflexivity].
Qed.

(** X4.  When [std::sort] sorts by timestamp and every cached fact is
    older than the reading taken, the fact just registered is never among
    those the pruning evicts. *)
Theorem registered_fact_survives_pruning (e : Env) (name : string)
  (v guid : Z) (w : World) :
  (forall l, std_sort e l ≡ₚ l) ->
  (forall l, StronglySorted by_age (std_sort e l)) ->
  (forall h f, m_fact_cache w !! h = Some f ->
     timestamp f < wrap64 (hrc_now e (clock_reads w))) ->
  get_fact e name (register_fact e name v guid w)
  = Some (mk_quest_fact name v (wrap64 (hrc_now e (clock_reads w))) guid
            (compute_fact_hash e name)).
Proof.
  intros Hperm Hsorted Hnewest.
  rewrite register_fact_world. unfold get_fact.
  cbn [m_fact_cache set_fact_cache]. unfold cache_after_register.
  set (h := compute_fact_hash e name).
  set (stored := mk_quest_fact _ _ _ _ _).
  set (c := <[h:=stored]> (m_fact_cache w)).
  destruct (FACT_CACHE_SIZE_LIMIT <? Z.of_nat (size c));
    [|apply lookup_insert_eq].
  unfold prune_oldest_facts.
  destruct (Z.of_nat (size c) * 4 <=? FACT_CACHE_SIZE_LIMIT * 3) eqn:Hsmall;
    [apply lookup_insert_eq|].
  apply Z.leb_gt in Hsmall. unfold FACT_CACHE_SIZE_LIMIT in Hsmall.
  change (Z.to_nat (FACT_CACHE_SIZE_LIMIT * 3 / 4)) with 768%nat.
  fold (ages_of c). set (ages := std_sort e (ages_of c)).
  set (n := (size c - 768)%nat).
  assert (Hk : ages.*1 ≡ₚ (map_to_list c).*1).
  { unfold ages. rewrite (Hperm (ages_of c)), ages_keys. reflexivity. }
  assert (Hlen : length ages = size c).
  { rewrite <- (length_fmap fst ages), Hk, length_fmap.
    apply length_map_to_list. }
  assert (Hin : forall a, a ∈ ages ->
            exists f, c !! a.1 = Some f /\ a.2 = timestamp f).
  { intros a Ha. apply ages_entry. unfold ages in Ha.
    rewrite (Hperm (ages_of c)) in Ha. exact Ha. }
  assert (Hnd : NoDup ((take n ages).*1 ++ (drop n ages).*1)).
  { rewrite <- fmap_app, take_drop, Hk. apply NoDup_fst_map_to_list. }
  apply NoDup_app in Hnd as (_ & Hdisj & _).
  assert (Hss : StronglySorted by_age (take n ages ++ drop n ages))
    by (rewrite take_drop; apply Hsorted).
  rewrite foldl_delete_ages, delete_all_other; [apply lookup_insert_eq|].
  intros Hh. apply list_elem_of_fmap in Hh as (a & Ha1 & Ha).
  destruct (drop n ages) as [|b rest] eqn:Hdrop.
  { apply (f_equal length) in Hdrop. rewrite length_drop in Hdrop.
    cbn in Hdrop. unfold n in Hdrop. lia. }
  assert (Hb : b ∈ b :: rest) by left.
  pose proof (StronglySorted_app_1_elem_of by_age _ _ a b Hss Ha Hb) as Hab.
  destruct (Hin a) as (fa & Hfa & Hta).
  { rewrite <- (take_drop n ages). apply elem_of_app. left. exact Ha. }
  destruct (Hin b) as (fb & Hfb & Htb).
  { rewrite <- (take_drop n ages), Hdrop. apply elem_of_app. right. exact Hb. }
  rewrite <- Ha1 in Hfa. unfold c in Hfa. rewrite lookup_insert_eq in Hfa.
  injection Hfa as <-.
  destruct (decide (b.1 = h)) as [Hbh|Hbh].
  - apply (Hdisj h).
    + apply list_elem_of_fmap. exists a. split; [exact Ha1 | exact Ha].
    + rewrite <- Hbh. apply list_elem_of_fmap. exists b. split; [reflexivity|left].
  - unfold c in Hfb. rewrite lookup_insert_ne in Hfb by congruence.
    pose proof (Hnewest _ _ Hfb) as Hlt.
    unfold by_age in Hab. rewrite Hta, Htb in Hab. cbn in Hab. lia.
Qed.

Lemma insert_by_age_elem (p a : Z * Z) (l : list (Z * Z)) :
  a ∈ insert_by_age p l -> a = p \/ a ∈ l.
Proof.
  induction l as [|q l IH]; cbn.
  - intros Ha. apply list_elem_of_singleton in Ha. left. exact Ha.
  - destruct (p.2 <? q.2).
    + intros Ha. apply elem_of_cons in Ha as [->|Ha]; [left; reflexivity|].
      right. exact Ha.
    + intros Ha. apply elem_of_cons in Ha as [->|Ha]; [right; left|].
      destruct (IH Ha) as [->|Hl]; [left; reflexivity | right; right; exact Hl].
Qed.

Lemma insert_by_age_sorted (p : Z * Z) (l : list (Z * Z)) :
  StronglySorted by_age l -> StronglySorted by_age (insert_by_age p l).
Proof.
  induction l as [|q l IH]; intros Hs; cbn.
  - repeat constructor.
  - apply StronglySorted_cons in Hs as [Hq Hs].
    destruct (Z.ltb_spec p.2 q.2) as [Hlt|Hge].
    + apply StronglySorted_cons. split.
      * constructor; [unfold by_age; lia|].
        eapply Forall_impl; [exact Hq|]. unfold by_age. intros; lia.
      * apply StronglySorted_cons. split; assumption.
    + apply StronglySorted_cons. split; [|apply IH; exact Hs].
      apply Forall_forall. intros a Ha.
      destruct (insert_by_age_elem _ _ _ Ha) as [->|Hl];
        [exact Hge|].
      rewrite Forall_forall in Hq. apply Hq. exact Hl.
Qed.

Lemma sort_by_age_sorted (l : list (Z * Z)) :
  StronglySorted by_age (sort_by_age l).
Proof.
  unfold sort_by_age. induction l as [|p l IH]; cbn; [constructor|].
  apply insert_by_age_sorted. exact IH.
Qed.

Lemma registered_fact_survives_pruning_witness :
  let w1 := register_fact msvc "q_a" 1 77 initial_world in
  get_fact msvc "q_b" (register_fact msvc "q_b" 2 77 w1)
  = Some (mk_quest_fact "q_b" 2 (wrap64 (hrc_now msvc (clock_reads w1))) 77
            (compute_fact_hash msvc "q_b")).
Proof.
  intros w1.
  apply (registered_fact_survives_pruning msvc "q_b" 2 77 w1).
  - exact sort_by_age_perm.
  - exact sort_by_age_sorted.
  - intros h f H.
    assert (Hc : m_fact_cache w1
                 = {[compute_fact_hash msvc "q_a"
                     := mk_quest_fact "q_a" 1 0 77
                          (compute_fact_hash msvc "q_a")]})
      by (vm_compute; reflexivity).
    rewrite Hc in H. apply lookup_singleton_Some in H as [_ <-].
    reflexivity.
Defined.





Ltac unfold_listeners :=
  unfold deliver, receive_inventory_safe, receive_handshake_safe,
    receive_session_state_safe, receive_achievement_safe,
    receive_heartbeat_safe, receive_packet_safe, inventory_handler,
    handshake_handler, session_state_handler, achievement_handler,
    heartbeat_handler, read_packet, is_handshake_complete in *.

Ltac split_cases :=
  repeat match goal with
         | |- context [if ?b then _ else _] => destruct b eqn:?
         | |- context [match ?o with Some _ => _ | None => _ end] =>
             destruct o eqn:?
         end.

(** The three shapes a delivery can leave the world in. *)
Lemma deliver_shape (e : Env) (a : string) (m : inbound) (w : World) :
  fst (deliver e a m w) = increment_received w \/
  (exists p, m = InHandshake (mk_datagram (Some (PROTOCOL e)) (Some p)) /\
     hs_session_id p <> 0 /\ a = get_master_server /\
     fst (deliver e a m w)
     = set_handshake_complete (hs_session_id p) (hs_player_name p)
         (increment_received w)) \/
  (exists p, m = InAchievement (mk_datagram (Some (PROTOCOL e)) (Some p)) /\
     g_handshake_complete w = true /\ a = get_master_server /\
     fst (deliver e a m w)
     = set_achievements
         ({[ap_achievement_id p]} ∪ m_unlocked_achievements w)
         (increment_received w)).
Proof.
  destruct m as [d|d|d|d|d]; destruct d as [tag packet].
  - left. unfold_listeners. cbn. split_cases; reflexivity.
  - left. unfold_listeners. cbn. split_cases; reflexivity.
  - unfold_listeners. cbn.
    destruct (String.eqb_spec a get_master_server) as [->|Hne]; cbn;
      [|left; reflexivity].
    destruct (g_handshake_complete w) eqn:Hc; cbn; [|left; reflexivity].
    destruct tag as [tag|]; [|left; reflexivity].
    destruct (Z.eqb_spec tag (PROTOCOL e)) as [->|Ht]; cbn;
      [|left; reflexivity].
    destruct packet as [p|]; [|left; reflexivity].
    destruct (bool_decide _); [left; reflexivity|].
    right. right. exists p. repeat split.
  - left. unfold_listeners. cbn. split_cases; reflexivity.
  - unfold_listeners. cbn.
    destruct (String.eqb_spec a get_master_server) as [->|Hne]; cbn;
      [|left; reflexivity].
    destruct tag as [tag|]; [|left; reflexivity].
    destruct (Z.eqb_spec tag (PROTOCOL e)) as [->|Ht]; cbn;
      [|left; reflexivity].
    destruct packet as [p|]; [|left; reflexivity].
    destruct (Z.eqb_spec (hs_session_id p) 0) as [Hz|Hnz]; cbn;
      [left; reflexivity|].
    right. left. exists p. repeat split. exact Hnz.
Qed.

(** X5.  Whatever arrives, from whomever, a listener changes neither the
    story lock, the fact cache, the sync flag, the pending queue, the
    loopback switch, the clock, what was sent nor the counter of sent
    packets; the counter of received packets goes up by one, modulo
    2^32. *)
Theorem inbound_leaves_narrative_state (e : Env) (a : string) (m : inbound)
  (w : World) :
  narrative_of (fst (deliver e a m w)) = narrative_of w /\
  packets_received (g_telemetry (fst (deliver e a m w)))
  = wrap32 (packets_received (g_telemetry w) + 1).
Proof.
  destruct (deliver_shape e a m w) as [H|[(p & _ & _ & _ & H)|(p & _ & _ & _ & H)]];
    rewrite H; split; reflexivity.
Qed.

Lemma deliver_outcome_dispatched (e : Env) (a : string) (m : inbound)
  (w : World) :
  snd (deliver e a m w) = Dispatched ->
  a = get_master_server /\ well_formed e m = true /\
  (is_handshake_kind m = false -> g_handshake_complete w = true).
Proof.
  unfold well_formed.
  destruct m as [d|d|d|d|d]; destruct d as [tag packet];
    unfold_listeners; cbn;
    (destruct (String.eqb_spec a get_master_server) as [->|Hne]; cbn;
       [|discriminate]);
    try (destruct (g_handshake_complete w) eqn:Hc; cbn; [|discriminate]);
    (destruct tag as [tag|]; [|discriminate]);
    (destruct (Z.eqb_spec tag (PROTOCOL e)) as [->|Ht]; cbn; [|discriminate]);
    (destruct packet as [p|]; [|discriminate]);
    intros _; rewrite bool_decide_eq_true_2 by reflexivity;
    repeat split; try discriminate.
Qed.

Lemma well_formed_handshake (e : Env) (p : handshake_packet) :
  well_formed e (InHandshake (mk_datagram (Some (PROTOCOL e)) (Some p))) = true.
Proof.
  unfold well_formed. cbn. rewrite bool_decide_eq_true_2 by reflexivity.
  reflexivity.
Qed.

Lemma well_formed_achievement (e : Env) (p : achievement_packet) :
  well_formed e (InAchievement (mk_datagram (Some (PROTOCOL e)) (Some p)))
  = true.
Proof.
  unfold well_formed. cbn. rewrite bool_decide_eq_true_2 by reflexivity.
  reflexivity.
Qed.

(** X6.  A message that does not come from the master server, or whose
    buffer lacks this build's protocol tag or is cut short, is counted as
    received and changes nothing else; its handler does not run to its
    end. *)
Theorem malformed_or_foreign_message_is_only_counted (e : Env) (a : string)
  (m : inbound) (w : World) :
  a <> get_master_server \/ well_formed e m = false ->
  fst (deliver e a m w) = increment_received w /\
  snd (deliver e a m w) <> Dispatched.
Proof.
  intros Hbad.
  assert (Hnd : snd (deliver e a m w) <> Dispatched).
  { intros Hd. destruct (deliver_outcome_dispatched e a m w Hd) as (Ha & Hw & _).
    destruct Hbad as [Hbad|Hbad]; congruence. }
  split; [|exact Hnd].
  destruct (deliver_shape e a m w)
    as [H|[(p & -> & _ & -> & H)|(p & -> & _ & -> & H)]]; [exact H| |];
    exfalso; (destruct Hbad as [Hbad|Hbad]; [apply Hbad; reflexivity|]).
  - rewrite well_formed_handshake in Hbad. discriminate.
  - rewrite well_formed_achievement in Hbad. discriminate.
Qed.

Lemma malformed_or_foreign_message_is_only_counted_witness :
  fst (deliver msvc "10.0.0.7:28960"
         (InHandshake
            (mk_datagram (Some 1) (Some (mk_handshake_packet 9 8 1 "eve" 0))))
         initial_world)
  = increment_received initial_world.
Proof.
  apply (malformed_or_foreign_message_is_only_counted msvc "10.0.0.7:28960").
  left. intros H. discriminate H.
Defined.


(** *** Calls that are not deliveries *)

Lemma release_global_session (e : Env) (forced : bool) (w : World) :
  session_of (release_global_story_lock e forced w) = session_of w.
Proof.
  unfold release_global_story_lock. rewrite flush_world. unfold now.
  cbn [fst snd g_loopback_enabled increment_sent set_telemetry
         set_clock_reads set_pending set_fact_cache set_sync].
  unfold release_lock.
  destruct (is_locked w); cbn [negb];
    (destruct (g_loopback_enabled _);
     [rewrite session_state_listener_world|]; reflexivity).
Qed.

Lemma broadcast_fact_session (e : Env) (n : string) (v : Z) (w : World) :
  session_of (broadcast_quest_fact e n v w) = session_of w.
Proof.
  unfold broadcast_quest_fact.
  destruct (g_W3mGlobalSyncInProgress w); reflexivity.
Qed.

Lemma step_keeps_session (e : Env) (c : call) (w : World) :
  (forall a m, c <> CallDeliver a m) ->
  session_of (step e w c) = session_of w.
Proof.
  intros Hc. destruct c as [g s| |n v|n v| | |st sc|b|address m]; cbn [step].
  - unfold W3mAcquireStoryLock, acquire_global_story_lock, acquire_lock.
    destruct (is_locked _); reflexivity.
  - unfold W3mReleaseStoryLock. apply release_global_session.
  - unfold W3mAtomicAddFact.
    destruct (g_W3mGlobalSyncInProgress w); [reflexivity|].
    unfold W3mBroadcastFact. apply broadcast_fact_session.
  - unfold W3mBroadcastFact. apply broadcast_fact_session.
  - reflexivity.
  - unfold broadcast_narrative_heartbeat, check_story_lock_timeout.
    destruct (is_locked w); cbn [negb]; [|reflexivity].
    unfold now. cbn [fst snd].
    destruct (_ <? _); [|reflexivity].
    rewrite release_global_session. reflexivity.
  - unfold W3mBroadcastSessionState, now.
    cbn [fst snd g_loopback_enabled increment_sent set_telemetry
           set_clock_reads].
    destruct (g_loopback_enabled w);
      [rewrite session_state_listener_world|]; reflexivity.
  - reflexivity.
  - exfalso. apply (Hc address m). reflexivity.
Qed.

Lemma session_fields (w w' : World) :
  session_of w' = session_of w ->
  g_handshake_complete w' = g_handshake_complete w /\
  m_unlocked_achievements w' = m_unlocked_achievements w.
Proof.
  intros H. split;
    [exact (f_equal (fun t => t.1.1.1) H) | exact (f_equal snd H)].
Qed.

(** X7.  Once the handshake is complete no sequence of script calls,
    heartbeats and deliveries undoes it, and the set of unlocked
    achievements only grows. *)
Theorem handshake_is_never_undone (e : Env) (calls : list call) (w : World) :
  g_handshake_complete w = true ->
  g_handshake_complete (run e calls w) = true /\
  m_unlocked_achievements w ⊆ m_unlocked_achievements (run e calls w).
Proof.
  unfold run. revert w.
  induction calls as [|c calls IH]; intros w Hw; cbn [foldl].
  - split; [exact Hw | reflexivity].
  - assert (Hstep : g_handshake_complete (step e w c) = true /\
                    m_unlocked_achievements w
                    ⊆ m_unlocked_achievements (step e w c)).
    { destruct c as [g s| |n v|n v| | |st sc|b|address m]; try (
        match goal with
        | |- context [step e w ?c] =>
            pose proof (step_keeps_session e c w ltac:(intros; discriminate)) as Hs
        end;
        destruct (session_fields _ _ Hs) as [H1 H4];
        rewrite H1, H4; split; [exact Hw | reflexivity]).
      cbn [step].
      destruct (deliver_shape e address m w)
        as [H|[(p & _ & _ & _ & H)|(p & _ & _ & _ & H)]]; rewrite H.
      - split; [exact Hw | reflexivity].
      - split; reflexivity.
      - split; [exact Hw|]. cbn. apply union_subseteq_r. }
    destruct Hstep as [H1 H2]. destruct (IH _ H1) as [H3 H4].
    split; [exact H3|]. etransitivity; eassumption.
Qed.

Lemma handshake_is_never_undone_witness :
  g_handshake_complete
    (run msvc one_scene (set_handshake_complete 9 "eve" initial_world))
  = true.
Proof.
  apply (handshake_is_never_undone msvc one_scene
           (set_handshake_complete 9 "eve" initial_world)).
  reflexivity.
Defined.

(** X8.  A handshake record from the master server with a non-zero
    session identifier is accepted in every state, also after a
    handshake has completed: identifier and player name are replaced by
    the record's. *)
Theorem handshake_rebinds_session (e : Env) (p : handshake_packet) (w : World) :
  hs_session_id p <> 0 ->
  let r := receive_handshake_safe e get_master_server
             (mk_datagram (Some (PROTOCOL e)) (Some p)) w in
  snd r = Dispatched /\
  g_handshake_complete (fst r) = true /\
  g_session_id (fst r) = hs_session_id p /\
  g_handshake_player_name (fst r) = hs_player_name p.
Proof.
  intros Hnz. cbv zeta. unfold_listeners. cbn.
  rewrite Z.eqb_refl. cbn.
  destruct (Z.eqb_spec (hs_session_id p) 0); [contradiction|].
  cbn. repeat split.
Qed.

Lemma handshake_rebinds_session_witness :
  g_session_id
    (fst (receive_handshake_safe msvc get_master_server
            (mk_datagram (Some (PROTOCOL msvc))
               (Some (mk_handshake_packet 12 8 1 "zed" 0)))
            (set_handshake_complete 9 "eve" initial_world)))
  = 12.
Proof.
  apply (handshake_rebinds_session msvc (mk_handshake_packet 12 8 1 "zed" 0)
           (set_handshake_complete 9 "eve" initial_world)).
  discriminate.
Defined.



Lemma cache_after_register_bound (e : Env) (k : nat) (name : string)
  (v guid : Z) (c : gmap Z quest_fact) :
  (forall l, std_sort e l ≡ₚ l) ->
  Z.of_nat (size c) <= FACT_CACHE_SIZE_LIMIT ->
  Z.of_nat (size (cache_after_register e k name v guid c))
  <= FACT_CACHE_SIZE_LIMIT.
Proof.
  intros Hperm Hsize. unfold cache_after_register.
  set (h := compute_fact_hash e name).
  set (stored := mk_quest_fact _ _ _ _ _).
  pose proof (size_insert_le c h stored) as Hle.
  unfold FACT_CACHE_SIZE_LIMIT in *.
  destruct (Z.ltb_spec 1024 (Z.of_nat (size (<[h:=stored]> c))))
    as [Hover|Hok]; [|lia].
  rewrite prune_size; [lia | exact Hperm | lia].
Qed.

Lemma cache_after_flush_bound (e : Env) (q : list quest_fact) (k : nat)
  (c : gmap Z quest_fact) :
  (forall l, std_sort e l ≡ₚ l) ->
  Z.of_nat (size c) <= FACT_CACHE_SIZE_LIMIT ->
  Z.of_nat (size (cache_after_flush e k c q)) <= FACT_CACHE_SIZE_LIMIT.
Proof.
  intros Hperm. revert k c.
  induction q as [|f q IH]; intros k c Hsize; cbn [cache_after_flush];
    [exact Hsize|].
  apply IH. apply cache_after_register_bound; assumption.
Qed.

Lemma release_consistent (e : Env) (forced : bool) (w : World) :
  (forall l, std_sort e l ≡ₚ l) ->
  consistent w -> consistent (release_global_story_lock e forced w).
Proof.
  intros Hperm (_ & _ & Hsize).
  destruct (release_effects e forced w) as (Hl & Hs & Hq & Hc & _).
  unfold consistent. rewrite Hl, Hs, Hq, Hc.
  repeat split. apply cache_after_flush_bound; assumption.
Qed.

Lemma broadcast_fact_consistent (e : Env) (n : string) (v : Z) (w : World) :
  (forall l, std_sort e l ≡ₚ l) ->
  consistent w -> consistent (broadcast_quest_fact e n v w).
Proof.
  intros Hperm (Hl & Hq & Hsize). unfold broadcast_quest_fact, consistent.
  destruct (g_W3mGlobalSyncInProgress w) eqn:Hs.
  - unfold queue_fact_during_sync, now. cbn. rewrite Hs.
    repeat split; [exact Hl | discriminate | exact Hsize].
  - rewrite register_fact_world. unfold now, network_send. cbn. rewrite Hs.
    repeat split; [exact Hl | intros _; apply Hq; reflexivity|].
    apply cache_after_register_bound; assumption.
Qed.

Lemma deliver_consistent (e : Env) (a : string) (m : inbound) (w : World) :
  consistent w -> consistent (fst (deliver e a m w)).
Proof.
  intros Hw.
  destruct (deliver_shape e a m w)
    as [H|[(p & _ & _ & _ & H)|(p & _ & _ & _ & H)]]; rewrite H; exact Hw.
Qed.

Lemma step_consistent (e : Env) (c : call) (w : World) :
  (forall l, std_sort e l ≡ₚ l) ->
  consistent w -> consistent (step e w c).
Proof.
  intros Hperm Hw.
  destruct c as [g s| |n v|n v| | |st sc|b|address m]; cbn [step].
  - destruct Hw as (Hl & Hq & Hsize).
    unfold W3mAcquireStoryLock, acquire_global_story_lock, acquire_lock,
      consistent.
    destruct (is_locked (set_sync true w)) eqn:E; cbn in *.
    + rewrite E. repeat split; [discriminate | exact Hsize].
    + repeat split; [discriminate | exact Hsize].
  - unfold W3mReleaseStoryLock. apply release_consistent; assumption.
  - unfold W3mAtomicAddFact.
    pose proof (broadcast_fact_consistent e n v w Hperm Hw) as Hb.
    unfold W3mBroadcastFact.
    destruct (g_W3mGlobalSyncInProgress w) eqn:Hs; [|exact Hb].
    unfold broadcast_quest_fact in Hb. rewrite Hs in Hb. exact Hb.
  - unfold W3mBroadcastFact. apply broadcast_fact_consistent; assumption.
  - destruct Hw as (Hl & Hq & Hsize). unfold consistent.
    repeat split; [exact Hl | exact Hq |].
    cbn. rewrite map_size_empty. unfold FACT_CACHE_SIZE_LIMIT. lia.
  - unfold broadcast_narrative_heartbeat, check_story_lock_timeout.
    destruct (is_locked w) eqn:E; cbn [negb]; [|exact Hw].
    unfold now. cbn [fst snd].
    destruct (_ <? _).
    + apply release_consistent; [exact Hperm|]. exact Hw.
    + exact Hw.
  - destruct Hw as (Hl & Hq & Hsize).
    unfold W3mBroadcastSessionState, now.
    cbn [fst snd g_loopback_enabled increment_sent set_telemetry
           set_clock_reads].
    destruct (g_loopback_enabled w);
      [rewrite session_state_listener_world|];
      (repeat split; [exact Hl | exact Hq | exact Hsize]).
  - exact Hw.
  - apply deliver_consistent. exact Hw.
Qed.

(** X9.  When [std::sort] returns a permutation of its input, every
    sequence of script calls, heartbeats and deliveries keeps the world
    consistent: the story lock is held exactly when the sync flag is up,
    the pending queue is empty whenever the flag is down, and the cache
    holds at most [FACT_CACHE_SIZE_LIMIT] facts. *)
Theorem run_keeps_world_consistent (e : Env) (calls : list call) (w : World) :
  (forall l, std_sort e l ≡ₚ l) ->
  consistent w -> consistent (run e calls w).
Proof.
  intros Hperm. unfold run. revert w.
  induction calls as [|c calls IH]; intros w Hw; cbn [foldl]; [exact Hw|].
  apply IH. apply step_consistent; assumption.
Qed.

Lemma run_keeps_world_consistent_witness :
  consistent (run msvc one_scene initial_world).
Proof.
  apply (run_keeps_world_consistent msvc one_scene initial_world).
  - exact sort_by_age_perm.
  - unfold consistent. split; [reflexivity|]. split; [reflexivity|].
    vm_compute. discriminate.
Defined.

(** *** Clearing the cache *)

(** X27.  [W3mClearFactCache] leaves no fact, a count of 0 and a
    fingerprint of 0; the pending queue, the sync flag and the story lock
    are not touched by it. *)
Theorem clear_cache_empties (e : Env) (name : string) (w : World) :
  let w' := W3mClearFactCache w in
  W3mGetFactCount w' = 0 /\
  W3mComputeWorldStateHash w' = 0 /\
  W3mHasFact e name w' = false /\
  W3mGetFactValue e name w' = 0 /\
  get_fact_by_hash (compute_fact_hash e name) w' = None /\
  g_W3mPendingFacts w' = g_W3mPendingFacts w /\
  g_W3mGlobalSyncInProgress w' = g_W3mGlobalSyncInProgress w /\
  g_story_lock w' = g_story_lock w.
Proof.
  cbv zeta.
  unfold W3mClearFactCache, clear_cache, W3mGetFactCount, get_fact_count,
    W3mComputeWorldStateHash, compute_world_state_hash, W3mHasFact, has_fact,
    W3mGetFactValue, get_fact, get_fact_by_hash.
  cbn [m_fact_cache set_fact_cache g_W3mPendingFacts
         g_W3mGlobalSyncInProgress g_story_lock].
  rewrite map_size_empty, lookup_empty. repeat split.
Qed.

(** *** Release without a lock *)

(** X10.  [W3mReleaseStoryLock] does not ask whether the lock is held.
    With no lock held and loopback off it leaves the lock record as it
    is, lowers the sync flag, empties the queue, counts one packet sent
    and sends an unlock packet carrying the scene and initiator the lock
    record holds. *)
Theorem release_without_lock_still_broadcasts (e : Env) (w : World) :
  is_locked w = false ->
  g_loopback_enabled w = false ->
  let w' := W3mReleaseStoryLock e w in
  let k := (clock_reads w + length (g_W3mPendingFacts w))%nat in
  g_story_lock w' = g_story_lock w /\
  g_W3mGlobalSyncInProgress w' = false /\
  g_W3mPendingFacts w' = [] /\
  packets_sent (g_telemetry w') = wrap32 (packets_sent (g_telemetry w) + 1) /\
  net_sent w'
  = net_sent w
    ++ [mk_sent QUEST_LOCK_CHANNEL (PROTOCOL e)
          (PQuestLock
             (mk_quest_lock_packet false (get_scene_id w)
                (get_initiator_guid w) (wrap32 (hrc_now e k))))].
Proof.
  intros Hfree Hnet w' k.
  destruct (release_effects e false w) as (_ & Hs & Hq & _ & Hn).
  fold (W3mReleaseStoryLock e w) in Hs, Hq, Hn. fold w' in Hs, Hq, Hn.
  rewrite Hnet in Hn.
  split; [|split; [exact Hs|split; [exact Hq|split; [|exact Hn]]]].
  - unfold w', W3mReleaseStoryLock, release_global_story_lock.
    rewrite flush_world. unfold now, release_lock. rewrite Hfree.
    cbn [negb fst snd g_loopback_enabled increment_sent set_telemetry
           set_clock_reads set_pending set_fact_cache set_sync].
    rewrite Hnet. reflexivity.
  - unfold w', W3mReleaseStoryLock, release_global_story_lock.
    rewrite flush_world. unfold now, release_lock. rewrite Hfree.
    cbn [negb fst snd g_loopback_enabled increment_sent set_telemetry
           set_clock_reads set_pending set_fact_cache set_sync].
    rewrite Hnet. reflexivity.
Qed.

Lemma release_without_lock_still_broadcasts_witness :
  length (net_sent (W3mReleaseStoryLock msvc initial_world)) = 1%nat.
Proof.
  destruct (release_without_lock_still_broadcasts msvc initial_world
              eq_refl eq_refl) as (_ & _ & _ & _ & Hn).
  rewrite Hn. reflexivity.
Defined.

End CppMoreProperties.

(** ** Party scaling *)

Section ScalingProperties.
Import Script Scaling ScriptScaling.

Lemma inject_Z_pos (z : Z) : 0 <= z -> (0 <= inject_Z z)%Q.
Proof. intros H. change 0%Q with (inject_Z 0). rewrite <- Zle_Qle. exact H. Qed.

Lemma health_multiplier_value (n : Z) :
  1 < n ->
  calculate_health_multiplier n = (1 + inject_Z (n - 1) * (1 # 2))%Q.
Proof.
  intros H. unfold calculate_health_multiplier.
  destruct (Z.leb_spec n 1); [lia|reflexivity].
Qed.

(** X11.  Party scaling never weakens an NPC and grows with the party;
    the damage factor of a boss is at least 1 and at most the health
    factor; nothing is scaled for a party of one nor, for damage, for an
    NPC that is no boss; and the scaled health is the base health times
    the health factor of [create_config]. *)
Theorem party_scaling_is_monotone (n m : Z) (boss : bool) (base : Q) :
  (1 <= calculate_health_multiplier n)%Q /\
  (n <= m -> (calculate_health_multiplier n
              <= calculate_health_multiplier m)%Q) /\
  (1 <= calculate_damage_multiplier n boss)%Q /\
  (calculate_damage_multiplier n boss <= calculate_health_multiplier n)%Q /\
  (apply_health_scaling base n = None <-> n <= 1) /\
  (apply_damage_scaling base n boss = None <-> n <= 1 \/ boss = false) /\
  (apply_health_scaling base n
   = (if 1 <? n
      then Some (base * health_multiplier (create_config n boss))%Q
      else None)).
Proof.
  unfold calculate_health_multiplier, calculate_damage_multiplier,
    apply_health_scaling, apply_damage_scaling, create_config,
    HEALTH_MULTIPLIER_PER_PLAYER, BOSS_DAMAGE_BONUS_PER_PLAYER.
  cbn [health_multiplier].
  unfold calculate_health_multiplier, HEALTH_MULTIPLIER_PER_PLAYER.
  destruct (Z.leb_spec n 1) as [Hn|Hn].
  - assert (H1 : (1 <? n) = false) by lia. rewrite H1. cbn [orb].
    repeat split; try lra; try (intros; lia); try (intros; left; lia).
    intros Hnm. destruct (Z.leb_spec m 1); [lra|].
    pose proof (inject_Z_pos (m - 1) ltac:(lia)). lra.
  - assert (H1 : (1 <? n) = true) by lia. rewrite H1. cbn [orb].
    pose proof (inject_Z_pos (n - 1) ltac:(lia)) as Hp.
    repeat split; try lra; try discriminate; try (intros; lia).
    + intros Hnm. destruct (Z.leb_spec m 1); [lia|].
      assert (inject_Z (n - 1) <= inject_Z (m - 1))%Q
        by (rewrite <- Zle_Qle; lia).
      lra.
    + destruct boss; cbn [negb]; lra.
    + destruct boss; cbn [negb]; lra.
    + destruct boss; cbn [negb]; [discriminate|]. intros _. right. reflexivity.
    + destruct boss; cbn [negb]; intros [H|H]; [lia|discriminate|lia|reflexivity].
Qed.

Lemma party_scaling_is_monotone_witness :
  (calculate_health_multiplier 2 <= calculate_health_multiplier 3)%Q /\
  apply_damage_scaling 10 1 true = None.
Proof.
  destruct (party_scaling_is_monotone 2 3 true 10) as (_ & Hm & _).
  destruct (party_scaling_is_monotone 1 1 true 10) as (_ & _ & _ & _ & _ & Hd & _).
  split; [apply Hm; lia | apply Hd; left; lia].
Defined.

Ltac eval_Qleb :=
  repeat match goal with
         | |- context [Qleb ?a ?b] =>
             let v := eval vm_compute in (Qleb a b) in
             change (Qleb a b) with v
         end.

Ltac scale_concrete boss :=
  unfold W3mScaleNPCHealth, calculate_health_multiplier;
  cbn [Z.leb Z.compare Pos.compare Pos.compare_cont Z.ltb andb];
  change (int32 (2 - 1)) with 1; change (int32 (3 - 1)) with 2;
  change (int32 (4 - 1)) with 3;
  eval_Qleb;
  unfold when, HasTag, SetHealthPerc, AddAbility;
  cbn [tags abilities healthPerc];
  unfold boss, HasTag;
  match goal with
  | |- context [bool_decide ?a || bool_decide ?b] =>
      destruct (bool_decide a || bool_decide b)
  end;
  cbn [andb replicate app]; rewrite <- ?app_assoc; reflexivity.

Lemma scale_solo (npc : CNewNPC) (n : Z) :
  n <= 1 ->
  W3mScaleNPCHealth (Some npc) (calculate_health_multiplier n) n
  = Some (mk_npc (abilities npc ++ []) (tags npc) 100).
Proof.
  intros H. unfold W3mScaleNPCHealth, calculate_health_multiplier.
  destruct (Z.leb_spec n 1); [|lia].
  assert (H1 : (1 <? n) = false) by lia. rewrite H1, andb_false_r.
  cbn. rewrite app_nil_r. reflexivity.
Qed.

Lemma scale_party (npc : CNewNPC) (n : Z) :
  4 <= n < 2 ^ 31 ->
  W3mScaleNPCHealth (Some npc) (calculate_health_multiplier n) n
  = W3mScaleNPCHealth (Some npc) (calculate_health_multiplier 4) 4.
Proof.
  intros H.
  assert (Hi : int32 (n - 1) = n - 1).
  { apply int32_small. change (2 ^ 31) with 2147483648 in *. lia. }
  assert (Hq : (3 <= inject_Z (n - 1))%Q)
    by (change 3%Q with (inject_Z 3); rewrite <- Zle_Qle; lia).
  unfold W3mScaleNPCHealth. rewrite health_multiplier_value by lia.
  rewrite (health_multiplier_value 4) by lia. rewrite Hi.
  assert (H1 : (1 <? n) = true) by lia. rewrite H1.
  repeat match goal with
         | |- context [Qleb ?a ?b] =>
             let E := fresh in
             assert (E : Qleb a b = true)
               by (apply Qleb_true; first [lra | vm_compute; discriminate]);
             rewrite E; clear E
         end.
  reflexivity.
Qed.

(** X12.  Given the health factor the native side computes for a party
    of [n], [W3mScaleNPCHealth] adds min(3, max(0, n - 1)) instances of the
    health ability, as many instances of the damage ability to a boss,
    and sets health to 100 percent: parties of more than four are scaled
    as a party of four. *)
Theorem scaling_caps_at_four_players (npc : CNewNPC) (n : Z) :
  - 2 ^ 31 <= n < 2 ^ 31 ->
  let boss := HasTag "Boss" npc || HasTag "boss" npc in
  W3mScaleNPCHealth (Some npc) (calculate_health_multiplier n) n
  = Some (mk_npc
            (abilities npc
             ++ replicate (earned n) "W3MP_PartyScaling_Health"
             ++ replicate (if boss && (1 <? n) then earned n else 0%nat)
                  "W3MP_BossScaling_Damage")
            (tags npc) 100) /\
  (4 <= n ->
   W3mScaleNPCHealth (Some npc) (calculate_health_multiplier n) n
   = W3mScaleNPCHealth (Some npc) (calculate_health_multiplier 4) 4).
Proof.
  intros Hn boss. change (2 ^ 31) with 2147483648 in Hn.
  assert (H4 : W3mScaleNPCHealth (Some npc) (calculate_health_multiplier 4) 4
               = Some (mk_npc
                         (abilities npc
                          ++ replicate 3 "W3MP_PartyScaling_Health"
                          ++ replicate (if boss then 3%nat else 0%nat)
                               "W3MP_BossScaling_Damage")
                         (tags npc) 100)).
  { scale_concrete boss. }
  split;
    [|intros H; apply scale_party; change (2 ^ 31) with 2147483648; lia].
  destruct (Z.le_gt_cases n 1) as [H1|H1].
  - rewrite scale_solo by exact H1.
    assert (E : earned n = 0%nat) by (unfold earned; lia). rewrite E.
    destruct (boss && (1 <? n)); reflexivity.
  - assert (Hb : (1 <? n) = true) by lia. rewrite Hb, andb_true_r.
    destruct (Z.le_gt_cases 4 n) as [Hge|Hlt].
    + rewrite scale_party by (change (2 ^ 31) with 2147483648; lia).
      rewrite H4.
      assert (E : earned n = 3%nat) by (unfold earned; lia). rewrite E.
      reflexivity.
    + assert (Hc : n = 2 \/ n = 3) by lia.
      destruct Hc as [-> | ->]; scale_concrete boss.
Qed.

Lemma scaling_caps_at_four_players_witness :
  W3mScaleNPCHealth (Some (mk_npc [] ["Boss"] 40))
    (calculate_health_multiplier 7) 7
  = W3mScaleNPCHealth (Some (mk_npc [] ["Boss"] 40))
      (calculate_health_multiplier 4) 4.
Proof.
  apply (scaling_caps_at_four_players (mk_npc [] ["Boss"] 40) 7).
  - split; [vm_compute; discriminate | reflexivity].
  - lia.
Defined.

End ScalingProperties.

(** ** Dialogue proximity *)

Section ProximityProperties.
Import Cpp Proximity.

(** X13.  The proximity test is symmetric in the two positions, depends
    on the radius through its square only, so that a negative radius acts
    as its absolute value, holds for a player at the initiator's position
    whatever the radius, and is kept by a radius of larger absolute
    value. *)
Theorem proximity_ignores_radius_sign (p i : float3) (radius : Q) :
  is_within_proximity (Some p) (Some i) radius
  = is_within_proximity (Some i) (Some p) radius /\
  is_within_proximity (Some p) (Some i) (- radius)
  = is_within_proximity (Some p) (Some i) radius /\
  is_within_proximity (Some p) (Some p) radius = true /\
  (forall r', (Qabs radius <= Qabs r')%Q ->
     is_within_proximity (Some p) (Some i) radius = true ->
     is_within_proximity (Some p) (Some i) r' = true).
Proof.
  destruct p as [[px py] pz], i as [[ix iy] iz].
  unfold is_within_proximity. cbn [fst snd].
  repeat split.
  - destruct (Qleb _ (radius * radius)) eqn:E1.
    + symmetry. apply Qleb_true. apply Qleb_true in E1. nra.
    + symmetry. apply Qleb_false. apply Qleb_false in E1. nra.
  - destruct (Qleb _ (radius * radius)) eqn:E1.
    + apply Qleb_true. apply Qleb_true in E1. nra.
    + apply Qleb_false. apply Qleb_false in E1. nra.
  - apply Qleb_true. nra.
  - intros r' Hr H. apply Qleb_true. apply Qleb_true in H.
    assert (radius * radius <= r' * r')%Q; [|lra].
    revert Hr. apply Qabs_case; apply Qabs_case; intros; nra.
Qed.

Lemma proximity_ignores_radius_sign_witness :
  is_within_proximity (Some (3, 4, 0)%Q) (Some (0, 0, 0)%Q) (-6) = true.
Proof.
  destruct (proximity_ignores_radius_sign (3, 4, 0)%Q (0, 0, 0)%Q 5)
    as (_ & _ & _ & Hwider).
  apply Hwider.
  - vm_compute. discriminate.
  - reflexivity.
Defined.

(** X14.  Teleport requests are kept per player: a request is pending
    once made, a second request for the same player replaces the first
    without adding an entry, clearing removes it, and other players'
    requests are not touched by either. *)
Theorem teleport_requests_are_per_player (e : Env) (g g' : Z)
  (t t' : float3) (w : World) (m : dialogue_proximity_manager) :
  let s1 := request_teleport e g t (w, m) in
  let s2 := request_teleport e g t' s1 in
  has_pending_teleport g s1.2 = true /\
  (g' <> g -> has_pending_teleport g' s1.2 = has_pending_teleport g' m) /\
  m_pending_teleports s2.2 !! g
  = Some (mk_request g t' (wrap64 (hrc_now e (S (clock_reads w))))) /\
  size (m_pending_teleports s2.2) = size (m_pending_teleports s1.2) /\
  has_pending_teleport g (clear_teleport g s2.2) = false /\
  (g' <> g ->
   has_pending_teleport g' (clear_teleport g s2.2)
   = has_pending_teleport g' m).
Proof.
  cbv zeta. unfold request_teleport, has_pending_teleport, clear_teleport, now.
  cbn [fst snd m_pending_teleports clock_reads set_clock_reads].
  split; [|split; [|split; [|split; [|split]]]].
  - apply bool_decide_eq_true_2. rewrite lookup_insert_eq. eauto.
  - intros Hne. rewrite lookup_insert_ne by congruence. reflexivity.
  - apply lookup_insert_eq.
  - rewrite insert_insert_eq, !map_size_insert. reflexivity.
  - apply bool_decide_eq_false_2. rewrite lookup_delete_eq.
    intros [x Hx]. discriminate.
  - intros Hne. rewrite lookup_delete_ne by congruence.
    rewrite !lookup_insert_ne by congruence. reflexivity.
Qed.

Lemma teleport_requests_are_per_player_witness :
  has_pending_teleport 8
    (clear_teleport 7
       (request_teleport msvc 7 (1, 2, 3)%Q
          (request_teleport msvc 7 (0, 0, 0)%Q
             (initial_world, mk_manager ∅))).2)
  = false.
Proof.
  destruct (teleport_requests_are_per_player msvc 7 8 (0, 0, 0)%Q
              (1, 2, 3)%Q initial_world (mk_manager ∅))
    as (_ & _ & _ & _ & _ & Hother).
  rewrite Hother; [reflexivity | discriminate].
Defined.

End ProximityProperties.

(** ** Telemetry rate and inventory bridge *)

Section InventoryProperties.
Import Protocol Cpp Telemetry Inventory.

(** X15.  [get_packets_per_second] returns the packets sent and received
    since the last reset, modulo 2^32, whatever the time passed: it is a
    count, not a rate.  Within a second of the last reset the counters are
    left alone; from one second on they are reset, so that the next call
    returns 0 if nothing was counted in between. *)
Theorem packets_per_second_is_a_count (now now' : Z) (t : timed_telemetry) :
  let total :=
    wrap32 (packets_sent (counters t) + packets_received (counters t)) in
  fst (get_packets_per_second now t) = total /\
  (now - last_reset_time t < 1000000000 ->
   snd (get_packets_per_second now t) = t) /\
  (1000000000 <= now - last_reset_time t ->
   snd (get_packets_per_second now t)
   = mk_timed (mk_telemetry 0 0 (current_rtt_ms (counters t))) now /\
   fst (get_packets_per_second now' (snd (get_packets_per_second now t)))
   = 0).
Proof.
  cbv zeta. unfold get_packets_per_second.
  destruct (Z.leb_spec 1000 ((now - last_reset_time t) ÷ 1000000)) as [H|H].
  - split; [reflexivity|]. split.
    + intros Hlt. exfalso. revert H Hlt.
      generalize (now - last_reset_time t). intros d H Hlt.
      Z.to_euclidean_division_equations. lia.
    + intros _. split; [reflexivity|]. cbn.
      destruct (_ <=? _); reflexivity.
  - split; [reflexivity|]. split; [reflexivity|].
    intros Hge. exfalso. revert H Hge.
    generalize (now - last_reset_time t). intros d H Hge.
    Z.to_euclidean_division_equations. lia.
Qed.

Lemma packets_per_second_is_a_count_witness :
  fst (get_packets_per_second 60000000000
         (mk_timed (mk_telemetry 90 30 0) 0))
  = 120 /\
  fst (get_packets_per_second 60000000001
         (snd (get_packets_per_second 60000000000
                 (mk_timed (mk_telemetry 90 30 0) 0))))
  = 0.
Proof.
  destruct (packets_per_second_is_a_count 60000000000 60000000001
              (mk_timed (mk_telemetry 90 30 0) 0)) as (Hv & _ & Hreset).
  split; [exact Hv|]. apply Hreset. cbn. lia.
Defined.

(** *** The inventory bridge *)

Lemma push_queue (e : Env) (n : string) (q : Z) (p : gset string) (h : Host) :
  m_outgoing_queue (g_inventory_bridge (push e n q p h))
  = m_outgoing_queue (g_inventory_bridge h)
    ++ [mk_loot_packet (copy_string MAX_ITEM_NAME_LENGTH n) q (get_guid e)
          (wrap32 (hrc_now e (clock_reads (world h))))] /\
  m_processed_items (g_inventory_bridge (push e n q p h)) = p.
Proof. split; reflexivity. Qed.

Lemma queue_item_again (e : Env) (name : string) (quantity : Z) (h : Host) :
  negb (String.eqb name "Crowns" || String.eqb name "crowns") = true ->
  item_key name quantity ∈ m_processed_items (g_inventory_bridge h) ->
  queue_item e name quantity true h = h.
Proof.
  intros Hc Hseen. unfold queue_item. rewrite Hc. cbn [andb].
  rewrite bool_decide_eq_true_2 by exact Hseen. reflexivity.
Qed.

Lemma queue_item_marks (e : Env) (name : string) (quantity : Z) (h : Host) :
  negb (String.eqb name "Crowns" || String.eqb name "crowns") = true ->
  item_key name quantity
  ∈ m_processed_items (g_inventory_bridge (queue_item e name quantity true h)).
Proof.
  intros Hc. unfold queue_item. rewrite Hc. cbn [andb].
  destruct (bool_decide _) eqn:Hseen.
  - apply bool_decide_eq_true in Hseen. exact Hseen.
  - rewrite (proj2 (push_queue _ _ _ _ _)). apply elem_of_union_l.
    apply elem_of_singleton. reflexivity.
Qed.

Lemma queue_item_appends (e : Env) (name : string) (quantity : Z)
  (relic : bool) (h : Host) :
  negb (String.eqb name "Crowns" || String.eqb name "crowns") && relic
  = false ->
  queue_item e name quantity relic h
  = push e name quantity (m_processed_items (g_inventory_bridge h)) h.
Proof.
  intros Hc. unfold queue_item. rewrite Hc. reflexivity.
Qed.

(** X16.  An item other than crowns flagged relic or boss loot is queued
    at most once per name and quantity: queueing it again changes
    nothing.  Crowns, and items not flagged, are queued on every call and
    are not remembered. *)
Theorem relic_is_queued_once (e : Env) (name : string) (quantity : Z)
  (relic : bool) (h : Host) :
  let is_crowns := String.eqb name "Crowns" || String.eqb name "crowns" in
  let h1 := queue_item e name quantity relic h in
  (negb is_crowns && relic = true ->
   item_key name quantity ∈ m_processed_items (g_inventory_bridge h1) /\
   queue_item e name quantity relic h1 = h1) /\
  (negb is_crowns && relic = false ->
   m_outgoing_queue (g_inventory_bridge h1)
   = m_outgoing_queue (g_inventory_bridge h)
     ++ [mk_loot_packet (copy_string MAX_ITEM_NAME_LENGTH name) quantity
           (get_guid e) (wrap32 (hrc_now e (clock_reads (world h))))] /\
   m_processed_items (g_inventory_bridge h1)
   = m_processed_items (g_inventory_bridge h)).
Proof.
  intros is_crowns h1. split; intros Hc.
  - apply andb_true_iff in Hc as [Hc ->].
    pose proof (queue_item_marks e name quantity h Hc) as Hin.
    split; [exact Hin|]. apply queue_item_again; assumption.
  - unfold h1. rewrite queue_item_appends by exact Hc. apply push_queue.
Qed.

Lemma relic_is_queued_once_witness :
  let looted := queue_item msvc "Aerondight" 1 true idle_host in
  queue_item msvc "Aerondight" 1 true looted = looted.
Proof.
  intros looted.
  apply (relic_is_queued_once msvc "Aerondight" 1 true idle_host).
  reflexivity.
Defined.

Lemma inventory_listener_world (e : Env) (d : datagram loot_packet)
  (w : World) :
  fst (receive_inventory_safe e get_master_server d w) = increment_received w.
Proof.
  unfold receive_inventory_safe, receive_packet_safe.
  rewrite master_is_master. cbn [negb].
  destruct (is_handshake_complete (increment_received w)); cbn [andb negb];
    [|reflexivity].
  destruct d as [[tag|] [packet|]]; cbn; try reflexivity;
    destruct (tag =? PROTOCOL e); reflexivity.
Qed.

Lemma wrap32_succ (a : Z) (n : nat) :
  wrap32 (wrap32 (a + 1) + Z.of_nat n) = wrap32 (a + Z.of_nat (S n)).
Proof.
  unfold wrap32. rewrite Zplus_mod_idemp_l. f_equal. lia.
Qed.

Lemma process_front_effects (e : Env) (p : loot_packet)
  (rest : list loot_packet) (h : Host) :
  let w := world h in
  let h1 := process_front e p rest h in
  m_outgoing_queue (g_inventory_bridge h1) = rest /\
  m_processed_items (g_inventory_bridge h1)
  = m_processed_items (g_inventory_bridge h) /\
  world h1
  = (if g_loopback_enabled w then increment_received (increment_sent w)
     else increment_sent w) /\
  loot_sent h1
  = (if g_loopback_enabled w then loot_sent h
     else loot_sent h ++ [mk_sent_loot "loot" (PROTOCOL e) p]).
Proof.
  cbv zeta. unfold process_front.
  change (g_loopback_enabled (increment_sent (world h)))
    with (g_loopback_enabled (world h)).
  destruct (g_loopback_enabled (world h)).
  - rewrite inventory_listener_world. repeat split.
  - repeat split.
Qed.

Lemma process_loop_effects (e : Env) (q : list loot_packet) (h : Host) :
  m_outgoing_queue (g_inventory_bridge h) = q ->
  let w := world h in
  let h' := process_loop e (length q) h in
  let w' := world h' in
  m_outgoing_queue (g_inventory_bridge h') = [] /\
  m_processed_items (g_inventory_bridge h')
  = m_processed_items (g_inventory_bridge h) /\
  w' = set_telemetry (g_telemetry w') w /\
  current_rtt_ms (g_telemetry w') = current_rtt_ms (g_telemetry w) /\
  wrap32 (packets_sent (g_telemetry w'))
  = wrap32 (packets_sent (g_telemetry w) + Z.of_nat (length q)) /\
  (if g_loopback_enabled w
   then loot_sent h' = loot_sent h /\
        wrap32 (packets_received (g_telemetry w'))
        = wrap32 (packets_received (g_telemetry w) + Z.of_nat (length q))
   else loot_sent h'
        = loot_sent h ++ (mk_sent_loot "loot" (PROTOCOL e) <$> q) /\
        packets_received (g_telemetry w')
        = packets_received (g_telemetry w)).
Proof.
  revert h. induction q as [|p rest IH]; intros h Hq; cbv zeta.
  - cbn [length process_loop]. rewrite Hq, Z.add_0_r.
    split; [reflexivity|]. split; [reflexivity|].
    split; [destruct (world h); reflexivity|].
    split; [reflexivity|]. split; [reflexivity|].
    destruct (g_loopback_enabled (world h)); split;
      [reflexivity | rewrite Z.add_0_r; reflexivity
      | cbn; rewrite app_nil_r; reflexivity | reflexivity].
  - cbn [length process_loop]. rewrite Hq.
    destruct (process_front_effects e p rest h) as (H1q & H1p & H1w & H1l).
    specialize (IH (process_front e p rest h) H1q). cbv zeta in IH.
    destruct IH as (Iq & Ip & Iw & Ir & Is & Il).
    set (h' := process_loop e (length rest) (process_front e p rest h)) in *.
    rewrite H1w, H1l in *. clear H1w H1l.
    split; [exact Iq|]. split; [congruence|].
    destruct (g_loopback_enabled (world h)) eqn:Hlb.
    + change (g_loopback_enabled
                (increment_received (increment_sent (world h))))
        with (g_loopback_enabled (world h)) in Il.
      rewrite Hlb in Il. destruct Il as [Il1 Il2].
      split; [rewrite Iw at 1; destruct (world h); reflexivity|].
      split; [exact Ir|].
      split; [rewrite Is; apply wrap32_succ|].
      split; [exact Il1|]. rewrite Il2. apply wrap32_succ.
    + change (g_loopback_enabled (increment_sent (world h)))
        with (g_loopback_enabled (world h)) in Il.
      rewrite Hlb in Il. destruct Il as [Il1 Il2].
      split; [rewrite Iw at 1; destruct (world h); reflexivity|].
      split; [exact Ir|].
      split; [rewrite Is; apply wrap32_succ|].
      split; [|exact Il2]. rewrite Il1, <- app_assoc. reflexivity.
Qed.

(** X17.  [process_queue] empties the outgoing queue and touches nothing
    of the world but the telemetry.  The counter of sent packets goes up
    by the number of packets queued, modulo 2^32.  With loopback off the
    packets are sent on the loot channel in the order they were queued;
    with loopback on nothing is sent and the counter of received packets
    goes up by the same number. *)
Theorem process_queue_drains_in_order (e : Env) (h : Host) :
  let q := m_outgoing_queue (g_inventory_bridge h) in
  let w := world h in
  let h' := process_queue e h in
  let w' := world h' in
  m_outgoing_queue (g_inventory_bridge h') = [] /\
  m_processed_items (g_inventory_bridge h')
  = m_processed_items (g_inventory_bridge h) /\
  w' = set_telemetry (g_telemetry w') w /\
  wrap32 (packets_sent (g_telemetry w'))
  = wrap32 (packets_sent (g_telemetry w) + Z.of_nat (length q)) /\
  (g_loopback_enabled w = false ->
   loot_sent h' = loot_sent h ++ (mk_sent_loot "loot" (PROTOCOL e) <$> q) /\
   packets_received (g_telemetry w') = packets_received (g_telemetry w)) /\
  (g_loopback_enabled w = true ->
   loot_sent h' = loot_sent h /\
   wrap32 (packets_received (g_telemetry w'))
   = wrap32 (packets_received (g_telemetry w) + Z.of_nat (length q))).
Proof.
  intros q w h' w'.
  destruct (process_loop_effects e q h eq_refl) as (Hq & Hp & Hw & _ & Hs & Hl).
  fold (process_queue e h) in Hq, Hp, Hw, Hs, Hl.
  fold h' in Hq, Hp, Hw, Hs, Hl. fold w' in Hw, Hs, Hl. fold w in Hw, Hs, Hl.
  split; [exact Hq|]. split; [exact Hp|]. split; [exact Hw|].
  split; [exact Hs|].
  split; intros Hlb; rewrite Hlb in Hl; exact Hl.
Qed.

Lemma process_queue_drains_in_order_witness :
  let h :=
    queue_item msvc "Crowns" 40 false
      (queue_item msvc "Aerondight" 1 true idle_host) in
  lp_item_name <$> (sl_packet <$> loot_sent (process_queue msvc h))
  = ["Aerondight"; "Crowns"].
Proof.
  intros h.
  destruct (process_queue_drains_in_order msvc h)
    as (_ & _ & _ & _ & Hnet & _).
  destruct (Hnet eq_refl) as [Hsent _]. rewrite Hsent. reflexivity.
Defined.

End InventoryProperties.

(** ** Handshake and achievement broadcasts *)

Section OutboundProperties.
Import Protocol Cpp CppMore Outbound.

(** X25.  In loopback mode [W3mInitiateHandshake] is answered by the
    sender's own listener: a non-zero session identifier completes the
    handshake with that identifier and the local name cut to 31
    characters, a zero one leaves the session as it was, and nothing is
    sent.  With loopback off the session is left as it was and one
    handshake packet is sent. *)
Theorem loopback_handshake_opens_gate (e : Env) (local_name : string)
  (session_id : Z) (s : Peer) :
  let s' := W3mInitiateHandshake e local_name session_id s in
  let sent := wrap32 (packets_sent (g_telemetry (world s)) + 1) in
  (g_loopback_enabled (world s) = true -> session_id <> 0 ->
   g_handshake_complete (world s') = true /\
   g_session_id (world s') = session_id /\
   g_handshake_player_name (world s')
   = copy_string PLAYER_NAME_SIZE local_name /\
   wire_sent s' = wire_sent s) /\
  (g_loopback_enabled (world s) = true -> session_id = 0 ->
   session_of (world s') = session_of (world s) /\
   wire_sent s' = wire_sent s) /\
  (g_loopback_enabled (world s) = false ->
   session_of (world s') = session_of (world s) /\
   packets_sent (g_telemetry (world s')) = sent /\
   wire_sent s'
   = wire_sent s
     ++ [mk_wire "handshake" (PROTOCOL e)
           (WHandshake
              (mk_handshake_packet session_id (wrap32 (get_guid e))
                 SCRIPT_VERSION (copy_string PLAYER_NAME_SIZE local_name)
                 (wrap32 (hrc_now e (clock_reads (world s))))))]).
Proof.
  cbv zeta. unfold W3mInitiateHandshake, now.
  cbn [fst snd g_loopback_enabled increment_sent set_telemetry
         set_clock_reads].
  split; [|split].
  - intros Hlb Hnz. rewrite Hlb.
    unfold receive_handshake_safe, receive_packet_safe, handshake_handler,
      read_packet.
    rewrite master_is_master. cbn. rewrite Z.eqb_refl. cbn.
    destruct (Z.eqb_spec session_id 0); [contradiction|]. cbn.
    repeat split.
  - intros Hlb ->. rewrite Hlb.
    unfold receive_handshake_safe, receive_packet_safe, handshake_handler,
      read_packet.
    rewrite master_is_master. cbn. rewrite Z.eqb_refl. cbn.
    repeat split.
  - intros Hlb. rewrite Hlb. repeat split.
Qed.

Lemma loopback_handshake_opens_gate_witness :
  g_handshake_complete
    (world (W3mInitiateHandshake msvc "Geralt" 42 looped_peer))
  = true.
Proof.
  destruct (loopback_handshake_opens_gate msvc "Geralt" 42 looped_peer)
    as [Hopen _].
  apply Hopen; [reflexivity | discriminate].
Defined.

Lemma achievement_listener_grows (e : Env) (d : datagram achievement_packet)
  (w : World) :
  m_unlocked_achievements w
  ⊆ m_unlocked_achievements
      (fst (receive_achievement_safe e get_master_server d w)).
Proof.
  change (receive_achievement_safe e get_master_server d w)
    with (deliver e get_master_server (InAchievement d) w).
  destruct (deliver_shape e get_master_server (InAchievement d) w)
    as [H|[(p & _ & _ & _ & H)|(p & _ & _ & _ & H)]]; rewrite H.
  - reflexivity.
  - reflexivity.
  - cbn. apply union_subseteq_r.
Qed.

Lemma broadcast_achievement_marks (e : Env) (id : string) (s : Peer) :
  id ∈ m_unlocked_achievements (world (W3mBroadcastAchievement e id s)).
Proof.
  unfold W3mBroadcastAchievement.
  destruct (bool_decide _) eqn:Hseen;
    [apply bool_decide_eq_true in Hseen; exact Hseen|].
  unfold now.
  cbn [fst snd g_loopback_enabled increment_sent set_telemetry
         set_clock_reads set_achievements].
  destruct (g_loopback_enabled (world s)); cbn [world].
  - apply achievement_listener_grows. cbn.
    apply elem_of_union_l, elem_of_singleton. reflexivity.
  - cbn. apply elem_of_union_l, elem_of_singleton. reflexivity.
Qed.

(** X26.  An achievement is broadcast at most once: a second broadcast
    of the same identifier changes nothing, and neither does the first
    when the identifier is already in the set, which received
    achievements also enter.  With loopback off, a new identifier is
    recorded in full and sent cut to 63 characters. *)
Theorem achievement_is_broadcast_once (e : Env) (id : string) (s : Peer) :
  let s' := W3mBroadcastAchievement e id s in
  W3mBroadcastAchievement e id s' = s' /\
  (id ∈ m_unlocked_achievements (world s) -> s' = s) /\
  (id ∉ m_unlocked_achievements (world s) ->
   g_loopback_enabled (world s) = false ->
   m_unlocked_achievements (world s')
   = {[id]} ∪ m_unlocked_achievements (world s) /\
   wire_sent s'
   = wire_sent s
     ++ [mk_wire "achievement" (PROTOCOL e)
           (WAchievement
              (mk_achievement_packet
                 (copy_string MAX_ACHIEVEMENT_ID_LENGTH id) (get_guid e)
                 (wrap32 (hrc_now e (clock_reads (world s))))))]).
Proof.
  cbv zeta. split; [|split].
  - unfold W3mBroadcastAchievement at 1.
    rewrite bool_decide_eq_true_2 by apply broadcast_achievement_marks.
    reflexivity.
  - intros Hin. unfold W3mBroadcastAchievement.
    rewrite bool_decide_eq_true_2 by exact Hin. reflexivity.
  - intros Hnew Hnet. unfold W3mBroadcastAchievement.
    rewrite bool_decide_eq_false_2 by exact Hnew.
    unfold now.
    cbn [fst snd g_loopback_enabled increment_sent set_telemetry
           set_clock_reads set_achievements].
    rewrite Hnet. split; reflexivity.
Qed.

Lemma achievement_is_broadcast_once_witness :
  length (wire_sent (W3mBroadcastAchievement msvc "EA_FindCiri" idle_peer))
  = 1%nat.
Proof.
  destruct (achievement_is_broadcast_once msvc "EA_FindCiri" idle_peer)
    as (_ & _ & Hfirst).
  destruct Hfirst as [_ Hsent];
    [apply not_elem_of_empty | reflexivity |].
  rewrite Hsent. reflexivity.
Defined.

End OutboundProperties.

(** ** More of the interpolator *)

Section InterpMoreProperties.
Import Interp InterpRuns InterpMore.

(** *** The ring buffer *)

Lemma add_snapshots_snoc (l : list (Z * player_state_packet))
  (a : Z * player_state_packet) (it : player_interpolator) :
  add_snapshots (l ++ [a]) it = add_snapshot a.1 a.2 (add_snapshots l it).
Proof. unfold add_snapshots. rewrite foldl_app. reflexivity. Qed.

Lemma mod3_apart (k n : nat) :
  (k < n)%nat -> (n < k + 3)%nat -> (n mod 3 <> k mod 3)%nat.
Proof.
  intros H1 H2 E.
  pose proof (Nat.div_mod_eq k 3). pose proof (Nat.div_mod_eq n 3).
  pose proof (Nat.mod_upper_bound k 3). pose proof (Nat.mod_upper_bound n 3).
  lia.
Qed.

(** X18.  After any number of snapshots added to a new interpolator the
    buffer still has three slots, the write index is the number of
    additions modulo 3, the count is that number capped at 3, and each of
    the last three arrivals sits, valid, in the slot its position modulo 3
    names. *)
Theorem ring_buffer_keeps_last_three (l : list (Z * player_state_packet)) :
  let it := add_snapshots l fresh in
  length (snapshots_ it) = 3%nat /\
  write_index_ it = (length l mod 3)%nat /\
  snapshot_count_ it = Nat.min (length l) 3 /\
  (forall k a, l !! k = Some a -> (length l <= k + 3)%nat ->
     snapshots_ it !! (k mod 3)%nat = Some (mk_snapshot a.2 a.1 true)).
Proof.
  induction l as [|a l IH] using rev_ind; cbv zeta.
  - repeat split. intros k a H. rewrite lookup_nil in H. discriminate.
  - rewrite add_snapshots_snoc. cbv zeta in IH.
    destruct IH as (Hlen & Hw & Hc & Hslots).
    set (it := add_snapshots l fresh) in *.
    rewrite length_app. cbn [length].
    unfold add_snapshot.
    cbn [snapshots_ write_index_ snapshot_count_].
    split; [rewrite length_insert; exact Hlen|].
    split.
    { rewrite Hw. unfold SNAPSHOT_BUFFER_SIZE.
      rewrite Nat.Div0.add_mod_idemp_l. reflexivity. }
    split.
    { rewrite Hc. unfold SNAPSHOT_BUFFER_SIZE.
      destruct (Nat.ltb_spec (Nat.min (length l) 3) 3); lia. }
    intros k b Hk Hrecent. rewrite Hw.
    destruct (decide (k = length l)) as [->|Hne].
    + rewrite lookup_app_r in Hk by lia.
      rewrite Nat.sub_diag in Hk. cbn in Hk. injection Hk as <-.
      apply list_lookup_insert_eq. rewrite Hlen.
      apply Nat.mod_upper_bound. lia.
    + assert (Hlt : (k < length l)%nat).
      { apply lookup_lt_Some in Hk. rewrite length_app in Hk. cbn in Hk. lia. }
      rewrite lookup_app_l in Hk by exact Hlt.
      rewrite list_lookup_insert_ne by (apply mod3_apart; lia).
      apply Hslots; [exact Hk | lia].
Qed.

Lemma ring_buffer_keeps_last_three_witness :
  snapshots_
    (add_snapshots
       [(0, standing_at 1); (10, standing_at 2); (20, standing_at 3);
        (30, standing_at 4)] fresh) !! 0%nat
  = Some (mk_snapshot (standing_at 4) 30 true).
Proof.
  destruct (ring_buffer_keeps_last_three
              [(0, standing_at 1); (10, standing_at 2); (20, standing_at 3);
               (30, standing_at 4)]) as (_ & _ & _ & Hslots).
  apply (Hslots 3%nat (30, standing_at 4)); [reflexivity | cbn; lia].
Defined.

(** *** The newest snapshot *)

Lemma latest_fold (l : list snapshot) (acc : option snapshot) :
  let r := foldl latest_step acc l in
  (forall a, acc = Some a ->
     exists s, r = Some s /\ timestamp a <= timestamp s) /\
  (forall s', s' ∈ l -> valid s' = true ->
     exists s, r = Some s /\ timestamp s' <= timestamp s) /\
  (forall s, r = Some s -> acc = Some s \/ (s ∈ l /\ valid s = true)) /\
  (r = None -> acc = None).
Proof.
  revert acc. induction l as [|x l IH]; intros acc; cbv zeta; cbn [foldl].
  - split; [intros a ->; exists a; split; [reflexivity|lia]|].
    split; [intros s' H; apply elem_of_nil in H; contradiction|].
    split; [intros s H; left; exact H|]. intros H; exact H.
  - specialize (IH (latest_step acc x)). cbv zeta in IH.
    destruct IH as (I1 & I2 & I3 & I4).
    set (r := foldl latest_step (latest_step acc x) l) in *.
    assert (Hstep : forall a, acc = Some a ->
              exists b, latest_step acc x = Some b
                        /\ timestamp a <= timestamp b).
    { intros a ->. unfold latest_step.
      destruct (valid x); cbn [negb]; [|exists a; split; [reflexivity|lia]].
      destruct (Z.ltb_spec (timestamp a) (timestamp x));
        [exists x | exists a]; split; try reflexivity; lia. }
    assert (Hx : valid x = true ->
              exists b, latest_step acc x = Some b
                        /\ timestamp x <= timestamp b).
    { intros Hv. unfold latest_step. rewrite Hv. cbn [negb].
      destruct acc as [a|]; [|exists x; split; [reflexivity|lia]].
      destruct (Z.ltb_spec (timestamp a) (timestamp x));
        [exists x | exists a]; split; try reflexivity; lia. }
    assert (Hfrom : forall b, latest_step acc x = Some b ->
              acc = Some b \/ (b = x /\ valid x = true)).
    { intros b. unfold latest_step.
      destruct (valid x); cbn [negb]; [|intros H; left; exact H].
      destruct acc as [a|].
      - destruct (timestamp a <? timestamp x); intros [= <-];
          [right; split; reflexivity | left; reflexivity].
      - intros [= <-]. right. split; reflexivity. }
    split; [|split; [|split]].
    + intros a Ha. destruct (Hstep a Ha) as (b & Hb & Hab).
      destruct (I1 b Hb) as (s & Hs & Hbs). exists s. split; [exact Hs|lia].
    + intros s' Hin Hv. apply elem_of_cons in Hin as [->|Hin].
      * destruct (Hx Hv) as (b & Hb & Hxb).
        destruct (I1 b Hb) as (s & Hs & Hbs). exists s. split; [exact Hs|lia].
      * apply I2; assumption.
    + intros s Hs. destruct (I3 s Hs) as [Hb|[Hin Hv]].
      * destruct (Hfrom s Hb) as [Ha|[-> Hv]]; [left; exact Ha|].
        right. split; [left | exact Hv].
      * right. split; [right; exact Hin | exact Hv].
    + intros Hr. specialize (I4 Hr). unfold latest_step in I4.
      destruct (valid x); cbn [negb] in I4; [|exact I4].
      destruct acc as [a|]; [|reflexivity].
      destruct (timestamp a <? timestamp x); discriminate.
Qed.

(** X19.  [get_latest_snapshot_ptr] returns nothing exactly when no slot
    is valid; what it returns is a valid slot of the buffer whose
    timestamp no valid slot exceeds; and [get_most_recent_snapshot] is the
    state of that slot. *)
Theorem latest_snapshot_is_newest_valid (it : player_interpolator) :
  (get_latest_snapshot_ptr it = None <->
   forall s, s ∈ snapshots_ it -> valid s = false) /\
  (forall s, get_latest_snapshot_ptr it = Some s ->
     s ∈ snapshots_ it /\ valid s = true /\
     forall s', s' ∈ snapshots_ it -> valid s' = true ->
       timestamp s' <= timestamp s) /\
  get_most_recent_snapshot it = state <$> get_latest_snapshot_ptr it.
Proof.
  unfold get_latest_snapshot_ptr, get_most_recent_snapshot.
  destruct (latest_fold (snapshots_ it) None) as (_ & I2 & I3 & _).
  cbv zeta in I2, I3.
  split; [split|split; [|reflexivity]].
  - intros Hnone s Hin. destruct (valid s) eqn:Hv; [|reflexivity].
    destruct (I2 s Hin Hv) as (x & Hx & _). congruence.
  - intros Hall. destruct (foldl latest_step None (snapshots_ it)) as [s|] eqn:E;
      [|reflexivity].
    destruct (I3 s eq_refl) as [H|[Hin Hv]]; [discriminate|].
    rewrite (Hall s Hin) in Hv. discriminate.
  - intros s Hs. destruct (I3 s Hs) as [H|[Hin Hv]]; [discriminate|].
    split; [exact Hin|]. split; [exact Hv|].
    intros s' Hin' Hv'. destruct (I2 s' Hin' Hv') as (x & Hx & Hle).
    rewrite Hs in Hx. injection Hx as <-. exact Hle.
Qed.

Lemma latest_snapshot_is_newest_valid_witness :
  get_latest_snapshot_ptr fresh = None.
Proof.
  destruct (latest_snapshot_is_newest_valid fresh) as ([_ Hnone] & _).
  apply Hnone. intros s Hin.
  apply elem_of_replicate in Hin as [-> _]. reflexivity.
Defined.

(** *** Reset *)

Lemma latest_skips_invalid (l : list snapshot) (acc : option snapshot) :
  (forall s, s ∈ l -> valid s = false) -> foldl latest_step acc l = acc.
Proof.
  revert acc. induction l as [|x l IH]; intros acc Hall; [reflexivity|].
  cbn [foldl]. unfold latest_step at 2.
  rewrite (Hall x) by left. cbn [negb]. apply IH.
  intros s Hs. apply Hall. right. exact Hs.
Qed.

(** X20.  After [reset] a query returns, with nothing, and changes
    nothing, and the first snapshot added afterwards is the most recent
    one: no earlier snapshot is seen again.  [reset] leaves the
    extrapolation flag, the blend flag and the extrapolation anchor as
    they were. *)
Theorem reset_forgets_every_snapshot (fuel : nat) (now later t : Z)
  (p : player_state_packet) (it : player_interpolator) :
  get_interpolated_state fuel now later (reset it)
  = Some (None, reset it) /\
  (snapshots_ it <> [] ->
   get_most_recent_snapshot (add_snapshot t p (reset it)) = Some p) /\
  in_extrapolation_ (reset it) = in_extrapolation_ it /\
  blend_active_ (reset it) = blend_active_ it /\
  extrapolation_anchor_ (reset it) = extrapolation_anchor_ it.
Proof.
  assert (Hinv : forall s, s ∈ snapshots_ (reset it) -> valid s = false).
  { intros s Hs. unfold reset in Hs. cbn [snapshots_] in Hs.
    apply list_elem_of_fmap in Hs as (s0 & -> & _). reflexivity. }
  split; [|split; [|repeat split]].
  - unfold get_interpolated_state. cbn [snapshot_count_ reset Nat.ltb Nat.leb].
    unfold handle_extrapolation, get_extrapolated_position,
      get_most_recent_snapshot.
    rewrite latest_skips_invalid by exact Hinv. reflexivity.
  - intros Hne. unfold get_most_recent_snapshot, add_snapshot.
    cbn [snapshots_ write_index_ reset].
    destruct (snapshots_ it) as [|s0 rest]; [contradiction|].
    cbn [fmap list_fmap]. cbn [insert list_insert foldl].
    unfold latest_step at 2. cbn [valid negb].
    rewrite latest_skips_invalid; [reflexivity|].
    intros s Hs. apply list_elem_of_fmap in Hs as (s1 & -> & _). reflexivity.
Qed.

Lemma reset_forgets_every_snapshot_witness :
  get_most_recent_snapshot (add_snapshot 70 (standing_at 5) (reset steady))
  = Some (standing_at 5).
Proof.
  apply (reset_forgets_every_snapshot 0 0 0 70 (standing_at 5) steady).
  discriminate.
Defined.

(** *** The selection loop *)

Lemma bracket_step_facts (rt : Z) (acc : option snapshot * option snapshot)
  (x : snapshot) :
  let r := bracket_step rt acc x in
  (forall a, acc.1 = Some a ->
     exists o, r.1 = Some o /\ timestamp a <= timestamp o) /\
  (valid x = true -> timestamp x <= rt ->
     exists o, r.1 = Some o /\ timestamp x <= timestamp o) /\
  (forall a, acc.2 = Some a ->
     exists n, r.2 = Some n /\ timestamp n <= timestamp a) /\
  (valid x = true -> rt < timestamp x ->
     exists n, r.2 = Some n /\ timestamp n <= timestamp x) /\
  (forall o, r.1 = Some o -> acc.1 = Some o \/ (o = x /\ valid x = true)) /\
  (forall n, r.2 = Some n -> acc.2 = Some n \/ (n = x /\ valid x = true)).
Proof.
  destruct acc as [older newer]. cbv zeta. unfold bracket_step.
  destruct (valid x) eqn:Hv; cbn [negb];
    [destruct (Z.leb_spec (timestamp x) rt);
     destruct older as [o|], newer as [n|];
     repeat match goal with
            | |- context [?a <? ?b] => destruct (Z.ltb_spec a b)
            end|];
    cbn [fst snd];
    repeat split; intros;
    repeat match goal with
           | H : Some _ = Some _ |- _ => injection H as <-
           | H : None = Some _ |- _ => discriminate H
           | H : false = true |- _ => discriminate H
           end;
    first [ lia
          | exfalso; lia
          | eexists; split; [reflexivity | lia]
          | eexists; split; [eassumption | lia]
          | left; reflexivity
          | right; split; reflexivity
          | left; assumption ].
Qed.

Lemma bracket_fold (rt : Z) (l : list snapshot)
  (acc : option snapshot * option snapshot) :
  let r := foldl (bracket_step rt) acc l in
  (forall a, acc.1 = Some a ->
     exists o, r.1 = Some o /\ timestamp a <= timestamp o) /\
  (forall s, s ∈ l -> valid s = true -> timestamp s <= rt ->
     exists o, r.1 = Some o /\ timestamp s <= timestamp o) /\
  (forall a, acc.2 = Some a ->
     exists n, r.2 = Some n /\ timestamp n <= timestamp a) /\
  (forall s, s ∈ l -> valid s = true -> rt < timestamp s ->
     exists n, r.2 = Some n /\ timestamp n <= timestamp s) /\
  (forall o, r.1 = Some o -> acc.1 = Some o \/ (o ∈ l /\ valid o = true)) /\
  (forall n, r.2 = Some n -> acc.2 = Some n \/ (n ∈ l /\ valid n = true)).
Proof.
  revert acc. induction l as [|x l IH]; intros acc; cbv zeta; cbn [foldl].
  - repeat split; intros;
      first [ eexists; split; [eassumption | lia]
            | match goal with H : _ ∈ [] |- _ =>
                apply elem_of_nil in H; contradiction end
            | left; assumption ].
  - specialize (IH (bracket_step rt acc x)). cbv zeta in IH.
    destruct IH as (I1 & I2 & I3 & I4 & I5 & I6).
    destruct (bracket_step_facts rt acc x) as (S1 & S2 & S3 & S4 & S5 & S6).
    cbv zeta in S1, S2, S3, S4, S5, S6.
    set (r := foldl (bracket_step rt) (bracket_step rt acc x) l) in *.
    split; [|split; [|split; [|split; [|split]]]].
    + intros a Ha. destruct (S1 a Ha) as (b & Hb & Hab).
      destruct (I1 b Hb) as (o & Ho & Hbo). exists o. split; [exact Ho|lia].
    + intros s Hin Hv Hle. apply elem_of_cons in Hin as [->|Hin].
      * destruct (S2 Hv Hle) as (b & Hb & Hxb).
        destruct (I1 b Hb) as (o & Ho & Hbo). exists o. split; [exact Ho|lia].
      * apply I2; assumption.
    + intros a Ha. destruct (S3 a Ha) as (b & Hb & Hab).
      destruct (I3 b Hb) as (n & Hn & Hnb). exists n. split; [exact Hn|lia].
    + intros s Hin Hv Hgt. apply elem_of_cons in Hin as [->|Hin].
      * destruct (S4 Hv Hgt) as (b & Hb & Hxb).
        destruct (I3 b Hb) as (n & Hn & Hnb). exists n. split; [exact Hn|lia].
      * apply I4; assumption.
    + intros o Ho. destruct (I5 o Ho) as [Hb|[Hin Hv]].
      * destruct (S5 o Hb) as [Ha|[-> Hv]]; [left; exact Ha|].
        right. split; [left | exact Hv].
      * right. split; [right; exact Hin | exact Hv].
    + intros n Hn. destruct (I6 n Hn) as [Hb|[Hin Hv]].
      * destruct (S6 n Hb) as [Ha|[-> Hv]]; [left; exact Ha|].
        right. split; [left | exact Hv].
      * right. split; [right; exact Hin | exact Hv].
Qed.

(** X21.  The selection loop returns the tightest bracket: for every
    valid scanned snapshot at or before the render time, the older end
    returned is a valid scanned snapshot no earlier than it and not after
    the render time; for every one after the render time, the newer end
    is a valid scanned snapshot after the render time and no later than
    it. *)
Theorem find_bracket_is_tightest (rt : Z) (it : player_interpolator)
  (s : snapshot) :
  s ∈ scanned it -> valid s = true ->
  (timestamp s <= rt ->
   exists o, (find_bracket rt it).1 = Some o /\
     timestamp s <= timestamp o <= rt /\
     o ∈ scanned it /\ valid o = true) /\
  (rt < timestamp s ->
   exists n, (find_bracket rt it).2 = Some n /\
     rt < timestamp n <= timestamp s /\
     n ∈ scanned it /\ valid n = true).
Proof.
  intros Hin Hv. unfold find_bracket. fold (scanned it).
  destruct (bracket_fold rt (scanned it) (None, None))
    as (_ & I2 & _ & I4 & I5 & I6).
  destruct (bracket_step_invariant rt (scanned it) (None, None))
    as [Ho Hn]; try (cbn; discriminate).
  cbv zeta in I2, I4, I5, I6.
  split.
  - intros Hle. destruct (I2 s Hin Hv Hle) as (o & Hfo & Hso).
    exists o. split; [exact Hfo|].
    split; [split; [exact Hso | apply Ho; exact Hfo]|].
    destruct (I5 o Hfo) as [H|H]; [discriminate | exact H].
  - intros Hgt. destruct (I4 s Hin Hv Hgt) as (n & Hfn & Hns).
    exists n. split; [exact Hfn|].
    split; [split; [apply Hn; exact Hfn | exact Hns]|].
    destruct (I6 n Hfn) as [H|H]; [discriminate | exact H].
Qed.

Lemma find_bracket_is_tightest_witness :
  exists o, (find_bracket (of_ms 1150) steady).1 = Some o /\
    of_ms 1000 <= timestamp o <= of_ms 1150.
Proof.
  destruct (find_bracket_is_tightest (of_ms 1150) steady snapshot_A)
    as [Holder _].
  - vm_compute. left.
  - reflexivity.
  - destruct Holder as (o & Ho & Hts & _); [vm_compute; discriminate|].
    exists o. split; [exact Ho | exact Hts].
Defined.

(** *** The recovery blend *)





End InterpMoreProperties.

(** ** More of the script side *)

Section ScriptMoreProperties.
Import Script ScriptRuns ScriptWorld.

Lemma smoothing_keeps_queue (host : Z) (p : CR4Player) (s : State) :
  thePlayer s = Some p ->
  exists s' p',
    W3mSmoothTimeReconciliation host s = Some s' /\
    thePlayer s' = Some p' /\
    w3mPendingFacts p' = w3mPendingFacts p /\
    factCalls (theGame s') = factCalls (theGame s).
Proof.
  intros Hp. unfold W3mSmoothTimeReconciliation. rewrite Hp.
  destruct (in_smoothing_band _).
  - destruct (w3mTimeSmoothingActive p); cbn [negb];
      destruct (Qltb _ smoothingDuration);
      eexists; eexists; (split; [reflexivity|]); repeat split.
  - destruct (Qltb 10 _); eexists; exists p;
      (split; [reflexivity|]); repeat split; exact Hp.
Qed.

(** X23.  With a player present [W3mReconcileWorldState] always
    completes and lowers, before it returns, the sync flag it raised: the
    queue is empty afterwards, every entry queued before the call has been
    replayed in order, and a weather change is requested exactly when the
    host's weather differs.  With no player it fails in every case. *)
Theorem reconcile_world_state_flushes (host weather : Z) (x : Session) :
  (forall p, thePlayer (st x) = Some p ->
     exists x' p',
       W3mReconcileWorldState host weather x = Some x' /\
       thePlayer (st x') = Some p' /\
       w3mGlobalSyncInProgress p' = false /\
       w3mPendingFacts p' = [] /\
       factCalls (theGame (st x'))
       = factCalls (theGame (st x)) ++ map replayed_as (w3mPendingFacts p) /\
       curWeather x' = curWeather x /\
       weatherRequests x'
       = (if curWeather x =? weather then weatherRequests x
          else weatherRequests x ++ [weather])) /\
  (thePlayer (st x) = None -> W3mReconcileWorldState host weather x = None).
Proof.
  split.
  - intros p Hp. unfold W3mReconcileWorldState, raise_sync. rewrite Hp.
    destruct (smoothing_keeps_queue host
                (set_queue true (w3mPendingFacts p) p)
                (mk_state (Some (set_queue true (w3mPendingFacts p) p))
                   (theGame (st x))) eq_refl)
      as (s' & p' & Hs & Hp' & Hq & Hc).
    rewrite Hs. cbn [curWeather weatherRequests st].
    assert (Hst : st (if negb (curWeather x =? weather)
                      then RequestWeatherChange weather
                             (mk_session s' (curWeather x) (weatherRequests x))
                      else mk_session s' (curWeather x) (weatherRequests x))
                  = s')
      by (destruct (curWeather x =? weather); reflexivity).
    rewrite Hst. unfold W3mFlushPendingFacts. rewrite Hp'.
    destruct (flush_replays_in_order (w3mPendingFacts p') s')
      as (_ & _ & _ & _ & Hcalls).
    eexists. eexists. split; [reflexivity|].
    cbn [st thePlayer theGame]. split; [reflexivity|].
    split; [reflexivity|]. split; [reflexivity|].
    split; [rewrite Hcalls, Hq, Hc; reflexivity|].
    destruct (curWeather x =? weather); split; reflexivity.
  - intros Hn. unfold W3mReconcileWorldState, raise_sync. rewrite Hn.
    unfold W3mSmoothTimeReconciliation. rewrite Hn.
    destruct (in_smoothing_band _); [reflexivity|].
    destruct (Qltb 10 _); cbn [curWeather weatherRequests];
      destruct (curWeather x =? weather); cbn [negb st];
      unfold W3mFlushPendingFacts, RequestWeatherChange;
      cbn [st thePlayer]; rewrite ?Hn; reflexivity.
Qed.

Lemma reconcile_world_state_flushes_witness :
  let p := mk_player (Some 10) false [mk_pending "q_done" 1 (-1) 0] false 0 0 0 in
  let x := mk_session (mk_state (Some p) (game_at 1000 0)) 2 [] in
  exists x',
    W3mReconcileWorldState 1003 5 x = Some x' /\
    factCalls (theGame (st x')) = [FactsRemove "q_done"] /\
    weatherRequests x' = [5].
Proof.
  intros p x.
  destruct (reconcile_world_state_flushes 1003 5 x) as [Hsome _].
  destruct (Hsome p eq_refl) as (x' & p' & Hx & _ & _ & _ & Hc & _ & Hw).
  exists x'. split; [exact Hx|]. split; [exact Hc | exact Hw].
Defined.

End ScriptMoreProperties.

(** ** Loot from the script to the bridge *)

Section LootProperties.
Import Protocol Cpp Inventory Script ScriptLoot.

(** X24.  For a player with an inventory: crowns are shared on every
    loot, twice for two loots; an item of quality below 4 from a container
    whose tag does not mention a boss is not shared; and any other item
    that is a relic or comes from a boss container is shared at most once
    per name and quantity, a second loot changing nothing. *)
Theorem loot_sharing_rules (e : Env) (quality : string -> Z * Z)
  (item container : string) (quantity crowns : Z) (p : CR4Player)
  (s : State) (h : Host) :
  thePlayer s = Some p -> inv p = Some crowns ->
  let loot := W3mOnItemLooted e quality item quantity container s in
  let shared h := length (m_outgoing_queue (g_inventory_bridge h)) in
  let relic :=
    (4 <=? (quality item).2)
    || StrContains container "boss" || StrContains container "Boss" in
  (item = "Crowns" -> shared (loot (loot h)) = S (S (shared h))) /\
  (item <> "Crowns" -> relic = false -> loot h = h) /\
  (item <> "Crowns" -> item <> "crowns" -> relic = true ->
   shared (loot h) <= S (shared h) /\ loot (loot h) = loot h)%nat.
Proof.
  intros Hp Hinv loot shared relic.
  assert (Hloot : forall h,
            loot h
            = if String.eqb item "Crowns"
              then W3mInventoryBridge_Queue e item quantity false h
              else if relic
                   then W3mInventoryBridge_Queue e item quantity true h
                   else h).
  { intros h0. unfold loot, W3mOnItemLooted, relic. rewrite Hp, Hinv.
    destruct (quality item) as [lo hi]. cbn [snd].
    rewrite <- orb_assoc. reflexivity. }
  split; [|split].
  - intros ->. rewrite !Hloot. cbn [String.eqb Ascii.eqb Bool.eqb].
    unfold W3mInventoryBridge_Queue.
    rewrite !queue_item_appends by reflexivity.
    unfold shared. rewrite !(proj1 (push_queue _ _ _ _ _)).
    rewrite !length_app. cbn [length]. lia.
  - intros Hne Hr. rewrite Hloot, Hr.
    destruct (String.eqb_spec item "Crowns"); [contradiction|reflexivity].
  - intros Hne Hne' Hr. rewrite !Hloot, Hr.
    destruct (String.eqb_spec item "Crowns"); [contradiction|].
    assert (Hc : negb (String.eqb item "Crowns" || String.eqb item "crowns")
                 = true).
    { destruct (String.eqb_spec item "Crowns"); [contradiction|].
      destruct (String.eqb_spec item "crowns"); [contradiction|]. reflexivity. }
    unfold W3mInventoryBridge_Queue. split.
    + unfold shared, queue_item. rewrite Hc. cbn [andb].
      destruct (bool_decide _); [lia|].
      rewrite (proj1 (push_queue _ _ _ _ _)), length_app. cbn [length]. lia.
    + apply queue_item_again; [exact Hc|]. apply queue_item_marks. exact Hc.
Qed.

Lemma loot_sharing_rules_witness :
  let s := ScriptRuns.state_at 10 0 0 false in
  let loot :=
    W3mOnItemLooted msvc swords_are_relics "silver sword" 1 "chest" s in
  loot (loot idle_host) = loot idle_host.
Proof.
  intros s loot.
  apply (loot_sharing_rules msvc swords_are_relics "silver sword" "chest" 1
           10 (ScriptRuns.player_with 10 false) s idle_host);
    first [reflexivity | discriminate].
Defined.

End LootProperties.
